(** * boxes: the flex scanner for box design configuration files (src/lexer.l)

    The scanner is embedded as it is written: the patterns of the rules
    section are regular expressions over bytes, matched by the rule that
    consumes the most input (the earliest rule on a tie), under
    [%option case-insensitive]; the actions are functions on the scanner
    state, which holds the start condition, the unread input, the
    beginning-of-line flag, the text kept by [yymore()], the [pass_to_flex]
    block ([yyextra]) and the log of the [yyerror] calls. *)

From Stdlib Require Import String Ascii ZArith Lia Bool Arith List.
Import ListNotations.

Set Implicit Arguments.

(** ** Bytes and C strings *)

Module Chars.

Definition code (c : ascii) : N := N_of_ascii c.

Definition in_range (lo hi c : ascii) : bool :=
  ((code lo <=? code c) && (code c <=? code hi))%N.

Definition isupper (c : ascii) : bool := in_range "A" "Z" c.
Definition islower (c : ascii) : bool := in_range "a" "z" c.

Definition tolower (c : ascii) : ascii :=
  if isupper c then ascii_of_N (code c + 32) else c.

Definition toupper (c : ascii) : ascii :=
  if islower c then ascii_of_N (code c - 32) else c.

Definition NUL : ascii := "000"%char.
Definition TAB : ascii := "009"%char.
Definition LF : ascii := "010"%char.
Definition CR : ascii := "013"%char.
Definition SPACE : ascii := " "%char.
Definition DQUOTE : ascii := "034"%char.
Definition BACKSLASH : ascii := "\"%char.

(** A C string is the list of its bytes before the terminating NUL. *)
Definition cstring := list ascii.

Definition chars (s : string) : cstring := list_ascii_of_string s.

(** [strdup] and [strlen] see a buffer up to its first NUL. *)
Fixpoint strdup (buf : list ascii) : cstring :=
  match buf with
  | [] => []
  | c :: buf' => if Ascii.eqb c NUL then [] else c :: strdup buf'
  end.

Definition strlen (buf : list ascii) : nat := length (strdup buf).

(** [strchr s c <> NULL], for [c] other than NUL. *)
Definition strchr (s : cstring) (c : ascii) : bool :=
  existsb (Ascii.eqb c) s.

Definition no_nul (s : list ascii) : Prop := ~ In NUL s.

End Chars.
Import Chars.

(** ** Regular expressions and the longest match *)

Module Regex.

(** A character class is a list of byte ranges, possibly negated. *)
Inductive regex : Type :=
| Void : regex
| Eps : regex
| Ccl : bool -> list (ascii * ascii) -> regex
| Cat : regex -> regex -> regex
| Alt : regex -> regex -> regex
| Star : regex -> regex.

(** [%option case-insensitive]: a character belongs to a class when it or
    its other-case form is listed. *)
Definition in_ranges (rs : list (ascii * ascii)) (c : ascii) : bool :=
  existsb (fun r => in_range (fst r) (snd r) c
                    || in_range (fst r) (snd r) (tolower c)
                    || in_range (fst r) (snd r) (toupper c)) rs.

Definition ccl_mem (neg : bool) (rs : list (ascii * ascii)) (c : ascii) : bool :=
  xorb neg (in_ranges rs c).

Definition one (c : ascii) : list (ascii * ascii) := [(c, c)].
Definition set (s : string) : list (ascii * ascii) :=
  map (fun c => (c, c)) (chars s).

Definition Chr (c : ascii) : regex := Ccl false (one c).
Definition Any (s : string) : regex := Ccl false (set s).
Definition Plus (r : regex) : regex := Cat r (Star r).
Definition Opt (r : regex) : regex := Alt r Eps.
Fixpoint Seq (rs : list regex) : regex :=
  match rs with
  | [] => Eps
  | [r] => r
  | r :: rs' => Cat r (Seq rs')
  end.
Fixpoint Alts (rs : list regex) : regex :=
  match rs with
  | [] => Void
  | [r] => r
  | r :: rs' => Alt r (Alts rs')
  end.
Definition Lit (s : string) : regex := Seq (map Chr (chars s)).
(** [.] is any byte except newline. *)
Definition Dot : regex := Ccl true (one LF).

Inductive matches : regex -> list ascii -> Prop :=
| MEps : matches Eps []
| MCcl neg rs c : ccl_mem neg rs c = true -> matches (Ccl neg rs) [c]
| MCat r s u v : matches r u -> matches s v -> matches (Cat r s) (u ++ v)
| MAltL r s u : matches r u -> matches (Alt r s) u
| MAltR r s u : matches s u -> matches (Alt r s) u
| MStar0 r : matches (Star r) []
| MStarS r u v : matches r u -> matches (Star r) v -> matches (Star r) (u ++ v).

Fixpoint nullable (r : regex) : bool :=
  match r with
  | Void => false
  | Eps => true
  | Ccl _ _ => false
  | Cat r s => nullable r && nullable s
  | Alt r s => nullable r || nullable s
  | Star _ => true
  end.

Definition mkCat (r s : regex) : regex :=
  match r with
  | Void => Void
  | Eps => s
  | _ => match s with Void => Void | _ => Cat r s end
  end.

Definition mkAlt (r s : regex) : regex :=
  match r with
  | Void => s
  | _ => match s with Void => r | _ => Alt r s end
  end.

Fixpoint deriv (c : ascii) (r : regex) : regex :=
  match r with
  | Void => Void
  | Eps => Void
  | Ccl neg rs => if ccl_mem neg rs c then Eps else Void
  | Cat r s =>
      mkAlt (mkCat (deriv c r) s) (if nullable r then deriv c s else Void)
  | Alt r s => mkAlt (deriv c r) (deriv c s)
  | Star r => mkCat (deriv c r) (Star r)
  end.

Definition is_void (r : regex) : bool :=
  match r with Void => true | _ => false end.

(** [longest r s n best]: the length of the longest prefix of [s] in the
    language of [r], counted from [n], or [best] when there is none. *)
Fixpoint longest (r : regex) (s : list ascii) (n : nat) (best : option nat)
  : option nat :=
  let best' := if nullable r then Some n else best in
  match s with
  | [] => best'
  | c :: s' =>
      let d := deriv c r in
      if is_void d then best' else longest d s' (S n) best'
  end.

Definition longest_match (r : regex) (s : list ascii) : option nat :=
  longest r s 0 None.

End Regex.
Import Regex.

(** ** The scanner state *)

(** Start conditions: [INITIAL] and the six [%x] conditions. *)
Inductive start_condition : Type :=
| INITIAL | BOX | SAMPLE | SHAPES | ELASTIC | DELIMSPEC | PARENT.

Definition sc_eqb (a b : start_condition) : bool :=
  match a, b with
  | INITIAL, INITIAL | BOX, BOX | SAMPLE, SAMPLE | SHAPES, SHAPES
  | ELASTIC, ELASTIC | DELIMSPEC, DELIMSPEC | PARENT, PARENT => true
  | _, _ => false
  end.

(** [shape_t] of shape.h, in a module of its own: its [S] and [N] would
    hide the successor of [nat] and the type of binary naturals. *)
Module Shape.
Inductive shape_t : Type :=
| NW | NNW | N | NNE | NE | ENE | E | ESE | SE | SSE | S | SSW | SW | WSW | W | WNW.
End Shape.
Definition shape_t : Type := Shape.shape_t.

(** The token kinds the rules return; [CHAR c] is [return yytext[0]]. *)
Inductive token : Type :=
| YUNREC | YDELIMSPEC | STRING | YPARENT | FILENAME | YSAMPLE | YENDSAMPLE
| YTAGS | YELASTIC | YSHAPES | YBOX | YREPLACE | YREVERSE | YPADDING | YTO
| YWITH | YRXPFLAG | YEND | SHAPE | KEYWORD | YCHGDEL | ASCII_ID | WORD
| YNUMBER | CHAR (c : ascii).

(** What an action stores in [yylval]. The [s] member carries the bytes
    handed to [u32_strconv_from_arg]; decoding them is outside the scanner. *)
Inductive yystype : Type :=
| val_s (s : cstring)
| val_ascii (s : cstring)
| val_c (c : ascii)
| val_num (n : Z)
| val_shape (sh : shape_t).

(** The calls of [yyerror]. *)
Inductive diagnostic : Type :=
| Unterminated_String (yytext : list ascii)
| SAMPLE_block_must_not_be_empty
| invalid_string_delimiter_specification (delim_expr : cstring)
| string_delimiter_and_escape_char_may_not_be_the_same
| invalid_string_delimiter (c : ascii).

Record pass_to_flex : Type := {
  yyerrcnt : Z;
  sdel : ascii;
  sesc : ascii
}.

Record scanner : Type := {
  yy_start : start_condition;
  yy_input : list ascii;       (* the unread input, from yy_c_buf_p on *)
  yy_at_bol : bool;
  yy_more : list ascii;        (* yytext kept by yymore(), [] when not set *)
  yyextra : pass_to_flex;
  yyerrlog : list diagnostic   (* yyerror calls, oldest first *)
}.

Definition BEGIN (s : start_condition) (sc : scanner) : scanner :=
  {| yy_start := s; yy_input := yy_input sc; yy_at_bol := yy_at_bol sc;
     yy_more := yy_more sc; yyextra := yyextra sc; yyerrlog := yyerrlog sc |}.

Definition set_input (i : list ascii) (sc : scanner) : scanner :=
  {| yy_start := yy_start sc; yy_input := i; yy_at_bol := yy_at_bol sc;
     yy_more := yy_more sc; yyextra := yyextra sc; yyerrlog := yyerrlog sc |}.

Definition set_at_bol (b : bool) (sc : scanner) : scanner :=
  {| yy_start := yy_start sc; yy_input := yy_input sc; yy_at_bol := b;
     yy_more := yy_more sc; yyextra := yyextra sc; yyerrlog := yyerrlog sc |}.

Definition set_more (m : list ascii) (sc : scanner) : scanner :=
  {| yy_start := yy_start sc; yy_input := yy_input sc; yy_at_bol := yy_at_bol sc;
     yy_more := m; yyextra := yyextra sc; yyerrlog := yyerrlog sc |}.

Definition set_extra (e : pass_to_flex) (sc : scanner) : scanner :=
  {| yy_start := yy_start sc; yy_input := yy_input sc; yy_at_bol := yy_at_bol sc;
     yy_more := yy_more sc; yyextra := e; yyerrlog := yyerrlog sc |}.

Definition yyerror (d : diagnostic) (sc : scanner) : scanner :=
  {| yy_start := yy_start sc; yy_input := yy_input sc; yy_at_bol := yy_at_bol sc;
     yy_more := yy_more sc; yyextra := yyextra sc;
     yyerrlog := yyerrlog sc ++ [d] |}.

(** [yymore()]: the next match is appended to the current [yytext]. *)
Definition yymore (yytext : list ascii) (sc : scanner) : scanner :=
  set_more yytext sc.

(** [yyless(n)]: all but the first [n] characters of [yytext] go back to
    the input. *)
Definition yyless (n : nat) (yytext : list ascii) (sc : scanner) : scanner :=
  set_input (skipn n yytext ++ yy_input sc) sc.

(** [int] arithmetic of the error counter, with its wrap-around. *)
Definition INT_MAX : Z := 2147483647.
Definition int_wrap (z : Z) : Z := ((z + 2 ^ 31) mod 2 ^ 32 - 2 ^ 31)%Z.

Definition set_yyerrcnt (n : Z) (e : pass_to_flex) : pass_to_flex :=
  {| yyerrcnt := n; sdel := sdel e; sesc := sesc e |}.

(** ** Constants of the definitions section *)

(** [LEX_SDELIM]: the characters allowed as string delimiters. *)
Definition LEX_SDELIM : cstring :=
  DQUOTE :: chars "~'`!@%&*=:;<>?/|.\".
Definition LEX_SDELIM_RECOMMENDED : cstring :=
  DQUOTE :: chars "~'!|".

(** [#define LEX_MAX_WARN 3]; no rule refers to it. *)
Definition LEX_MAX_WARN : Z := 3.

(** The bound the string rule and the sample rule compare [yyerrcnt]
    with: [(yyextra->yyerrcnt)++ < 5]. *)
Definition yyerrcnt_limit : Z := 5.

(** ** change_string_delimiters *)

(** Returns the updated scanner and the [int] result (0 success, 1 failure). *)
Definition change_string_delimiters (sc : scanner) (delim_expr : cstring)
  : scanner * Z :=
  if negb (strlen delim_expr =? 2) then
    (yyerror (invalid_string_delimiter_specification delim_expr) sc, 1%Z)
  else if Ascii.eqb (nth 0 delim_expr NUL) (nth 1 delim_expr NUL) then
    (yyerror string_delimiter_and_escape_char_may_not_be_the_same sc, 1%Z)
  else if negb (strchr LEX_SDELIM (nth 1 delim_expr NUL)) then
    (yyerror (invalid_string_delimiter (nth 1 delim_expr NUL)) sc, 1%Z)
  else
    (set_extra {| yyerrcnt := yyerrcnt (yyextra sc);
                  sdel := nth 1 delim_expr NUL;
                  sesc := nth 0 delim_expr NUL |} sc, 0%Z).

(** ** Patterns of the definitions section *)

Module Patterns.

Definition range (lo hi : nat) : ascii * ascii :=
  (ascii_of_nat lo, ascii_of_nat hi).
Definition bytes (lo hi : nat) : regex := Ccl false [range lo hi].
Definition byte (n : nat) : regex := Ccl false [range n n].
Definition cont : regex := bytes 128 191.          (* [\x80-\xBF] *)

Definition PBOM : regex := Seq [byte 239; byte 187; byte 191].
Definition U2A : regex := Seq [bytes 194 223; cont].
Definition U2B : regex := Seq [byte 224; bytes 160 191; cont].
Definition U3A : regex :=
  Seq [Ccl false [range 225 236; range 238 238; range 239 239]; cont; cont].
Definition U3B : regex := Seq [byte 237; bytes 128 159; cont].
Definition U4A : regex := Seq [byte 240; bytes 144 191; cont; cont].
Definition U4B : regex := Seq [bytes 241 243; cont; cont; cont].
Definition U4C : regex := Seq [byte 244; bytes 128 143; cont; cont].
Definition UTF_8 : regex := Alts [U2A; U2B; U3A; U3B; U4A; U4B; U4C].

Definition letters : list (ascii * ascii) :=
  [("a"%char, "z"%char); ("A"%char, "Z"%char)].
Definition word_chars : list (ascii * ascii) :=
  letters ++ [("0"%char, "9"%char); ("_"%char, "_"%char); ("-"%char, "-"%char)].

Definition PWORD : regex :=
  Cat (Alt (Ccl false letters) UTF_8) (Star (Alt (Ccl false word_chars) UTF_8)).
Definition PASCII_ID : regex :=
  Cat (Ccl false letters) (Star (Ccl false word_chars)).
Definition blanks : list (ascii * ascii) :=
  [(SPACE, SPACE); (TAB, TAB); (CR, CR); (LF, LF)].
Definition PWHITE : regex := Ccl false blanks.
Definition SDELIM : regex := Ccl false (map (fun c => (c, c)) LEX_SDELIM).
Definition PPARENT : regex := Lit "parent".
Definition PFILENAME : regex := Plus (Ccl true [(CR, CR); (LF, LF)]).

End Patterns.
Import Patterns.

(** ** The rules section *)

(** A pattern with its [^] anchor and its [$] trailing context. *)
Record pattern : Type := {
  pat_bol : bool;
  pat_re : regex;
  pat_eol : bool
}.

Definition plain (r : regex) : pattern :=
  {| pat_bol := false; pat_re := r; pat_eol := false |}.
Definition to_eol (r : regex) : pattern :=
  {| pat_bol := false; pat_re := r; pat_eol := true |}.
Definition line (r : regex) : pattern :=
  {| pat_bol := true; pat_re := r; pat_eol := true |}.

(** The rules, named after what they recognise. *)
Inductive rule_id : Type :=
| R_WHITE | R_DELIMSPEC | R_STRING | R_PARENT | R_FILENAME | R_PARENT_NL
| R_SAMPLE | R_SAMPLE_NL | R_SAMPLE_ENDS_LINE | R_SAMPLE_ANY | R_SAMPLE_ENDS
| R_TAGS | R_ELASTIC | R_SHAPES | R_BOX
| R_REPLACE | R_REVERSE | R_PADDING | R_TO | R_WITH | R_GLOBAL | R_ONCE
| R_END
| R_SHAPE (sh : shape_t)
| R_ELASTIC_CLOSE | R_SHAPES_CLOSE
| R_KEYWORD | R_CHGDEL | R_ASCII_ID | R_WORD | R_NUMBER | R_SYMBOL
| R_COMMENT | R_UNREC.

Record rule : Type := {
  rule_name : rule_id;
  rule_starts : list start_condition;
  rule_pat : pattern
}.

Definition mk (n : rule_id) (ss : list start_condition) (p : pattern) : rule :=
  {| rule_name := n; rule_starts := ss; rule_pat := p |}.

Definition horizontal : list (ascii * ascii) := [(SPACE, SPACE); (TAB, TAB)].
Definition trailing : list (ascii * ascii) :=
  [(SPACE, SPACE); (TAB, TAB); (CR, CR)].

Definition shape_rule (sh : shape_t) (name : string) : rule :=
  mk (R_SHAPE sh) [SHAPES; ELASTIC] (plain (Lit name)).

(** In the order of the source, which breaks ties between matches. *)
Definition rules : list rule :=
  [ mk R_WHITE [INITIAL; BOX; DELIMSPEC; ELASTIC; SHAPES] (plain (Alt PWHITE PBOM));
    mk R_DELIMSPEC [DELIMSPEC] (plain (Plus (Ccl true blanks)));
    mk R_STRING [BOX; SHAPES] (to_eol (Cat SDELIM (Star Dot)));
    mk R_PARENT [INITIAL] (plain PPARENT);
    mk R_FILENAME [PARENT] (plain PFILENAME);
    mk R_PARENT_NL [PARENT] (plain (Cat (Opt (Chr CR)) (Chr LF)));
    mk R_SAMPLE [BOX] (plain (Lit "Sample"));
    mk R_SAMPLE_NL [SAMPLE] (plain (Chr LF));
    mk R_SAMPLE_ENDS_LINE [SAMPLE]
       (line (Seq [Star (Ccl false horizontal); Lit "ends";
                   Star (Ccl false trailing)]));
    mk R_SAMPLE_ANY [SAMPLE] (plain Dot);
    mk R_SAMPLE_ENDS [SAMPLE]
       (to_eol (Seq [Lit "ends"; Star (Ccl false trailing)]));
    mk R_TAGS [BOX] (plain (Lit "Tags"));
    mk R_ELASTIC [BOX] (plain (Lit "Elastic"));
    mk R_SHAPES [BOX] (plain (Lit "Shapes"));
    mk R_BOX [INITIAL] (plain (Lit "Box"));
    mk R_REPLACE [BOX] (plain (Lit "Replace"));
    mk R_REVERSE [BOX] (plain (Lit "Reverse"));
    mk R_PADDING [BOX] (plain (Lit "Padding"));
    mk R_TO [BOX] (plain (Lit "To"));
    mk R_WITH [BOX] (plain (Lit "With"));
    mk R_GLOBAL [BOX] (plain (Lit "Global"));
    mk R_ONCE [BOX] (plain (Lit "Once"));
    mk R_END [BOX] (plain (Lit "End"));
    shape_rule Shape.NW "nw"; shape_rule Shape.NNW "nnw"; shape_rule Shape.N "n";
    shape_rule Shape.NNE "nne"; shape_rule Shape.NE "ne"; shape_rule Shape.ENE "ene";
    shape_rule Shape.E "e"; shape_rule Shape.ESE "ese"; shape_rule Shape.SE "se";
    shape_rule Shape.SSE "sse"; shape_rule Shape.S "s"; shape_rule Shape.SSW "ssw";
    shape_rule Shape.SW "sw"; shape_rule Shape.WSW "wsw"; shape_rule Shape.W "w";
    shape_rule Shape.WNW "wnw";
    mk R_ELASTIC_CLOSE [ELASTIC] (plain (Chr ")"));
    mk R_SHAPES_CLOSE [SHAPES] (plain (Chr "}"));
    mk R_KEYWORD [BOX]
       (plain (Alts [Lit "author"; Lit "designer"; Lit "created";
                     Lit "revision"; Lit "revdate"; Lit "indent"]));
    mk R_CHGDEL [BOX] (plain (Alt (Lit "Delimiter") (Lit "Delim")));
    mk R_ASCII_ID [INITIAL; BOX] (plain PASCII_ID);
    mk R_WORD [INITIAL; BOX] (plain PWORD);
    mk R_NUMBER [BOX]
       (plain (Cat (Opt (Any "+-")) (Plus (Ccl false [("0"%char, "9"%char)]))));
    mk R_SYMBOL [BOX; SHAPES; ELASTIC] (plain (Any ",(){}"));
    mk R_COMMENT [INITIAL; BOX; SHAPES; ELASTIC] (to_eol (Cat (Chr "#") (Star Dot)));
    mk R_UNREC [INITIAL; BOX; SHAPES; ELASTIC] (plain Dot) ].

(** ** Helpers the actions call *)

(** [buf[p] = c]. *)
Definition poke (buf : list ascii) (p : nat) (c : ascii) : list ascii :=
  firstn p buf ++ c :: skipn (S p) buf.

(** [memmove (buf + p, buf + p + 1, n)]. *)
Definition memmove_left (buf : list ascii) (p n : nat) : list ascii :=
  firstn p buf ++ firstn n (skipn (S p) buf) ++ skipn (p + n) buf.

Definition is_space (c : ascii) : bool :=
  Ascii.eqb c SPACE || Ascii.eqb c TAB || Ascii.eqb c CR || Ascii.eqb c LF.

(** The length of the first [len] characters of [text] without the white
    space (space, tab, carriage return, newline) that ends them. *)
Fixpoint rtrim_len (text : list ascii) (len : nat) : nat :=
  match len with
  | 0 => 0
  | S i => if is_space (nth i text NUL) then rtrim_len text i else len
  end.

(** How many of the first [k] characters of [s] come before its first
    newline. *)
Fixpoint line_rest (s : list ascii) (k : nat) : nat :=
  match k, s with
  | S k', c :: s' => if Ascii.eqb c LF then 0 else S (line_rest s' k')
  | _, _ => 0
  end.

(** Modelled from the spec: the trimming of a sample block, whose words
    are "strip trailing blank lines".  A line is blank when it holds white
    space only.  The length of the first [len] characters of [text] without
    the blank lines that end them: they are kept up to the end of the last
    line that is not blank, the blanks that end this line included and its
    newline not; nothing is kept when every line is blank. *)
Definition blank_lines_len (text : list ascii) (len : nat) : nat :=
  let n := rtrim_len text len in
  if n =? 0 then 0 else n + line_rest (skipn n text) (len - n).

(** Modelled from the spec: [btrim] (tools.c) is not part of the sources at
    hand.  The sample rule calls it to reduce the content to empty when only
    blank lines precede the terminator: it strips the trailing blank lines
    of the first [len] characters of [text], which it blanks out with NUL,
    and stores the length that is left in [len]. *)
Definition btrim (text : list ascii) (len : nat) : list ascii * nat :=
  let len' := blank_lines_len text len in
  (firstn len' text ++ repeat NUL (len - len') ++ skipn len text, len').

(** Modelled from the spec: [bxs_rtrim] (bxstring.c) is not part of the
    sources at hand; it strips the trailing blank lines of a decoded
    text. *)
Definition bxs_rtrim (s : cstring) : cstring :=
  firstn (blank_lines_len s (length s)) s.

(** Modelled from the spec: [bxs_trim] (bxstring.c), which gives the
    white-space-trimmed text of a parent file name. *)
Fixpoint ltrim (s : cstring) : cstring :=
  match s with
  | c :: s' => if is_space c then ltrim s' else s
  | [] => []
  end.
Definition bxs_trim (s : cstring) : cstring :=
  firstn (rtrim_len (ltrim s) (length (ltrim s))) (ltrim s).

(** [atoi] on the text of the number rule, an optional sign and digits.
    A number outside the range of [int] is undefined behaviour in C: the
    value given for it here, reduced to the range, stands for no
    particular library, and no statement relies on it. *)
Definition digit_val (c : ascii) : Z := Z.of_N (code c) - 48.
Definition decimal (s : list ascii) : Z :=
  fold_left (fun acc c => acc * 10 + digit_val c)%Z s 0%Z.
Definition atoi (s : list ascii) : Z :=
  match s with
  | "-"%char :: ds => int_wrap (- decimal ds)
  | "+"%char :: ds => int_wrap (decimal ds)
  | _ => int_wrap (decimal s)
  end.

(** ** The actions *)

Inductive action_result : Type :=
| Return (t : token) (v : option yystype) (sc : scanner)
| Continue (sc : scanner)
| REJECT.

(** The string rule: what the loop over the copied text finds. *)
Inductive string_scan : Type :=
| Terminated (str : cstring) (less : Z)   (* the text and the yyless argument *)
| Unterminated.

(** The loop over [str], the copy of [yytext + 1] with its NUL, at index
    [p]; one unit of [fuel] per iteration. *)
Fixpoint string_loop (fuel : nat) (esc del : ascii) (str : list ascii)
    (p : nat) (rest_len qcnt : Z) : option string_scan :=
  match fuel with
  | 0 => None
  | S fuel' =>
      if Ascii.eqb (nth p str NUL) NUL then Some Unterminated
      else if Ascii.eqb (nth p str NUL) esc then
        let str' := memmove_left str p (Z.to_nat rest_len) in
        let qcnt' := (qcnt + 1)%Z in
        let rest_len' := (rest_len - 1)%Z in
        if Ascii.eqb (nth p str' NUL) NUL then Some Unterminated
        else string_loop fuel' esc del str' (S p) (rest_len' - 1)%Z qcnt'
      else if Ascii.eqb (nth p str NUL) del then
        Some (Terminated (strdup (poke str p NUL)) (Z.of_nat p + 2 + qcnt)%Z)
      else string_loop fuel' esc del str (S p) (rest_len - 1)%Z qcnt
  end.

Definition scan_string (esc del : ascii) (yytext : list ascii)
  : option string_scan :=
  let rest_len := (Z.of_nat (length yytext) - 1)%Z in
  let str := strdup (tl yytext) ++ [NUL] in
  string_loop (S (length yytext)) esc del str 0 rest_len 0%Z.

(** [(yyextra->yyerrcnt)++ < 5], then [yyerror] when it held. *)
Definition count_error (d : diagnostic) (sc : scanner) : scanner :=
  let cnt := yyerrcnt (yyextra sc) in
  let sc' := set_extra (set_yyerrcnt (int_wrap (cnt + 1)) (yyextra sc)) sc in
  if (cnt <? yyerrcnt_limit)%Z then yyerror d sc' else sc'.

Definition string_action (yytext : list ascii) (sc : scanner) : action_result :=
  if negb (Ascii.eqb (nth 0 yytext NUL) (sdel (yyextra sc))) then REJECT
  else
    match scan_string (sesc (yyextra sc)) (sdel (yyextra sc)) yytext with
    | Some (Terminated str less) =>
        Return STRING (Some (val_s str)) (yyless (Z.to_nat less) yytext sc)
    | Some Unterminated | None =>
        Return YUNREC None (count_error (Unterminated_String yytext) sc)
    end.

(** The sample rule: the loop that steps [p] back over the blanks, tabs
    and carriage returns that end [yytext]. *)
Definition is_trailing (c : ascii) : bool :=
  Ascii.eqb c SPACE || Ascii.eqb c TAB || Ascii.eqb c CR.

Fixpoint skip_trailing (yytext : list ascii) (p : nat) : nat :=
  match p with
  | 0 => 0
  | S p' =>
      if is_trailing (nth p yytext NUL) then skip_trailing yytext p' else p
  end.

Definition sample_action (yytext : list ascii) (sc : scanner) : action_result :=
  let p := skip_trailing yytext (length yytext - 1) in
  let p := p - 2 in                                  (* on the 'n' *)
  let sample := strdup (poke yytext p NUL) ++ [NUL] in
  let p := p - 1 in
  let len := p in
  let sc := yyless len yytext sc in
  let sample := poke sample len LF in
  let (sample, len) := btrim sample len in
  if 0 <? len then
    Return STRING (Some (val_s (bxs_rtrim (strdup sample) ++ [LF]))) sc
  else
    Return YUNREC None (count_error SAMPLE_block_must_not_be_empty sc).

Definition default_delimiters : cstring := [BACKSLASH; DQUOTE].

Definition yy_action (r : rule_id) (yytext : list ascii) (sc : scanner)
  : action_result :=
  match r with
  | R_WHITE => Continue sc
  | R_DELIMSPEC =>
      let str := strdup yytext in
      let sc := BEGIN BOX sc in
      let (sc, rc) := change_string_delimiters sc str in
      if negb (rc =? 0)%Z then Return YUNREC (Some (val_s (chars "IGNORED"))) sc
      else Return YDELIMSPEC (Some (val_s (chars "IGNORED"))) sc
  | R_STRING => string_action yytext sc
  | R_PARENT => Return YPARENT None (BEGIN PARENT sc)
  | R_FILENAME =>
      Return FILENAME (Some (val_s (bxs_trim (strdup yytext)))) (BEGIN INITIAL sc)
  | R_PARENT_NL => Continue (BEGIN INITIAL sc)
  | R_SAMPLE => Return YSAMPLE None (BEGIN SAMPLE sc)
  | R_SAMPLE_NL =>
      if 1 <? length yytext then Continue (yymore yytext sc) else Continue sc
  | R_SAMPLE_ENDS_LINE => sample_action yytext sc
  | R_SAMPLE_ANY => Continue (yymore yytext sc)
  | R_SAMPLE_ENDS => Return YENDSAMPLE None (BEGIN BOX sc)
  | R_TAGS => Return YTAGS None sc
  | R_ELASTIC => Return YELASTIC None (BEGIN ELASTIC sc)
  | R_SHAPES => Return YSHAPES None (BEGIN SHAPES sc)
  | R_BOX =>
      let sc := BEGIN BOX sc in
      let sc := set_extra (set_yyerrcnt 0 (yyextra sc)) sc in
      let (sc, _) := change_string_delimiters sc default_delimiters in
      Return YBOX None sc
  | R_REPLACE => Return YREPLACE None sc
  | R_REVERSE => Return YREVERSE None sc
  | R_PADDING => Return YPADDING None sc
  | R_TO => Return YTO None sc
  | R_WITH => Return YWITH None sc
  | R_GLOBAL => Return YRXPFLAG (Some (val_c "g")) sc
  | R_ONCE => Return YRXPFLAG (Some (val_c "o")) sc
  | R_END =>
      let sc := BEGIN INITIAL sc in
      let (sc, _) := change_string_delimiters sc default_delimiters in
      Return YEND None sc
  | R_SHAPE sh => Return SHAPE (Some (val_shape sh)) sc
  | R_ELASTIC_CLOSE => Return (CHAR (nth 0 yytext NUL)) None (BEGIN BOX sc)
  | R_SHAPES_CLOSE => Return (CHAR (nth 0 yytext NUL)) None (BEGIN BOX sc)
  | R_KEYWORD => Return KEYWORD (Some (val_ascii (strdup yytext))) sc
  | R_CHGDEL => Return YCHGDEL None (BEGIN DELIMSPEC sc)
  | R_ASCII_ID => Return ASCII_ID (Some (val_ascii (strdup yytext))) sc
  | R_WORD => Return WORD (Some (val_s (strdup yytext))) sc
  | R_NUMBER => Return YNUMBER (Some (val_num (atoi yytext))) sc
  | R_SYMBOL => Return (CHAR (nth 0 yytext NUL)) None sc
  | R_COMMENT => Continue sc
  | R_UNREC => Return YUNREC None sc
  end.

(** ** Matching *)

(** A trailing context [$] stands for [/\n]: the newline counts for the
    length that decides between the rules and is given back to the input
    before the action runs. *)
Definition pat_regex (p : pattern) : regex :=
  if pat_eol p then Cat (pat_re p) (Chr LF) else pat_re p.

Record candidate : Type := {
  cand_rule : rule_id;
  cand_total : nat;     (* length matched, trailing context included *)
  cand_len : nat        (* length of the text the action sees *)
}.

Definition active (sc : scanner) (r : rule) : bool :=
  existsb (sc_eqb (yy_start sc)) (rule_starts r)
  && implb (pat_bol (rule_pat r)) (yy_at_bol sc).

Definition try_rule (sc : scanner) (r : rule) : option candidate :=
  if active sc r then
    match longest_match (pat_regex (rule_pat r)) (yy_input sc) with
    | Some n =>
        Some {| cand_rule := rule_name r; cand_total := n;
                cand_len := if pat_eol (rule_pat r) then n - 1 else n |}
    | None => None
    end
  else None.

Fixpoint candidates_of (sc : scanner) (rs : list rule) : list candidate :=
  match rs with
  | [] => []
  | r :: rs' =>
      match try_rule sc r with
      | Some c => c :: candidates_of sc rs'
      | None => candidates_of sc rs'
      end
  end.

Definition candidates (sc : scanner) : list candidate := candidates_of sc rules.

(** The rule that matches the most text wins; of two rules that match the
    same amount, the one defined first. *)
Fixpoint yy_find_action (cands : list candidate) : option candidate :=
  match cands with
  | [] => None
  | c :: cs =>
      match yy_find_action cs with
      | Some b => if cand_total b <=? cand_total c then Some c else Some b
      | None => Some c
      end
  end.

Definition rule_id_eq_dec (a b : rule_id) : {a = b} + {a <> b}.
Proof. decide equality. decide equality. Defined.

Definition rule_eqb (a b : rule_id) : bool :=
  if rule_id_eq_dec a b then true else false.

(** What flex does before the action: [yytext] is the kept text followed by
    the match, the input moves past the match, and the beginning-of-line
    flag is taken from the last character of [yytext]. *)
Definition yy_text (c : candidate) (sc : scanner) : list ascii :=
  yy_more sc ++ firstn (cand_len c) (yy_input sc).

Definition yy_before_action (c : candidate) (sc : scanner) : scanner :=
  let yytext := yy_text c sc in
  let sc := set_more [] (set_input (skipn (cand_len c) (yy_input sc)) sc) in
  if 0 <? length yytext then set_at_bol (Ascii.eqb (last yytext NUL) LF) sc
  else sc.

Definition yy_do_action (c : candidate) (sc : scanner) : action_result :=
  yy_action (cand_rule c) (yy_text c sc) (yy_before_action c sc).

Inductive step_result : Type :=
| SToken (t : token) (v : option yystype) (sc : scanner)
| SSkip (sc : scanner)
| SEof
| SJam.      (* no rule matches: %option nodefault, the scanner gives up *)

(** One match and its action; on [REJECT] the rule is set aside and the
    next best candidate is taken, at the same position. *)
Fixpoint yy_run (k : nat) (cands : list candidate) (sc : scanner) : step_result :=
  match yy_find_action cands with
  | None => SJam
  | Some c =>
      match yy_do_action c sc with
      | Return t v sc' => SToken t v sc'
      | Continue sc' => SSkip sc'
      | REJECT =>
          match k with
          | 0 => SJam
          | S k' =>
              yy_run k'
                (filter (fun c' => negb (rule_eqb (cand_rule c') (cand_rule c))) cands)
                sc
          end
      end
  end.

Definition yy_step (sc : scanner) : step_result :=
  match yy_input sc with
  | [] => SEof
  | _ => let cands := candidates sc in yy_run (length cands) cands sc
  end.

Inductive lex_result : Type :=
| LToken (t : token) (v : option yystype) (sc : scanner)
| LEof (sc : scanner)
| LJam
| LFuel.

(** [yylex]: steps until an action returns a token. *)
Fixpoint yylex (fuel : nat) (sc : scanner) : lex_result :=
  match fuel with
  | 0 => LFuel
  | S fuel' =>
      match yy_step sc with
      | SToken t v sc' => LToken t v sc'
      | SSkip sc' => yylex fuel' sc'
      | SEof => LEof sc
      | SJam => LJam
      end
  end.

(** The scanner on a fresh buffer; the delimiters are set by the first
    [box]. *)
Definition yy_init (input : list ascii) : scanner :=
  {| yy_start := INITIAL; yy_input := input; yy_at_bol := true; yy_more := [];
     yyextra := {| yyerrcnt := 0; sdel := NUL; sesc := NUL |};
     yyerrlog := [] |}.

(** The tokens of a whole input, one [yylex] call each. *)
Fixpoint tokens (n : nat) (sc : scanner) : list (token * option yystype) * scanner :=
  match n with
  | 0 => ([], sc)
  | S n' =>
      match yylex (S (length (yy_input sc))) sc with
      | LToken t v sc' =>
          let (ts, sc'') := tokens n' sc' in ((t, v) :: ts, sc'')
      | _ => ([], sc)
      end
  end.

(** * Vocabulary of the statements

    Predicates, measures, sample inputs and scanner states the
    properties below are stated with. *)

Unset Implicit Arguments.

(** The three constraints on a delimiter specification. *)
Definition valid_delimiters (delim_expr : cstring) : Prop :=
  strlen delim_expr = 2 /\
  nth 0 delim_expr NUL <> nth 1 delim_expr NUL /\
  In (nth 1 delim_expr NUL) LEX_SDELIM.

(** The rules have distinct names: a rule of the table is found by its
    name. *)
Definition rule_named (n : rule_id) : option rule :=
  find (fun r => rule_eqb (rule_name r) n) rules.

(** The two diagnostics that are issued under the counter. *)
Definition is_limited (d : diagnostic) : bool :=
  match d with
  | Unterminated_String _ | SAMPLE_block_must_not_be_empty => true
  | _ => false
  end.

(** How many of them a log holds. *)
Definition limited (log : list diagnostic) : nat :=
  length (filter is_limited log).

(** What a step leaves behind: the token, if any, and the scanner. *)
Definition step_outcome (r : step_result) : option (option token * scanner) :=
  match r with
  | SToken t _ sc => Some (Some t, sc)
  | SSkip sc => Some (None, sc)
  | SEof | SJam => None
  end.

(** A scan session: [n] steps in a row, as the parser drives them, with the
    tokens they return. *)
Fixpoint yy_steps (n : nat) (sc : scanner) : list token * scanner :=
  match n with
  | 0 => ([], sc)
  | S n' =>
      match step_outcome (yy_step sc) with
      | Some (t, sc') =>
          let (ts, sc'') := yy_steps n' sc' in
          (match t with Some t => t :: ts | None => ts end, sc'')
      | None => ([], sc)
      end
  end.

(** The three ways a step can touch the counter and the limited
    diagnostics. *)
Definition counter_effect (sc : scanner) (t : option token) (sc' : scanner)
  : Prop :=
  let cnt := yyerrcnt (yyextra sc) in
  let cnt' := yyerrcnt (yyextra sc') in
  (t = Some YBOX /\ cnt' = 0%Z /\ yyerrlog sc' = yyerrlog sc) \/
  (exists d, is_limited d = true /\ t = Some YUNREC /\
             cnt' = int_wrap (cnt + 1) /\
             yyerrlog sc' = if (cnt <? yyerrcnt_limit)%Z
                            then yyerrlog sc ++ [d] else yyerrlog sc) \/
  (t <> Some YBOX /\ cnt' = cnt /\
   limited (yyerrlog sc') = limited (yyerrlog sc)).

(** Token tests, to count the tokens of a session. *)
Definition is_YUNREC (t : token) : bool :=
  match t with YUNREC => true | _ => false end.

Definition is_YBOX (t : token) : bool :=
  match t with YBOX => true | _ => false end.

(** A line with a string that is never closed. *)
Definition unterminated_line : list ascii := DQUOTE :: chars "x" ++ [LF].

Definition six_unterminated : list ascii :=
  concat (repeat unterminated_line 6).

(** Two box definitions with six unterminated strings each. *)
Definition two_boxes : list ascii :=
  chars "box a " ++ six_unterminated ++ chars "end box b " ++ six_unterminated
  ++ chars "end ".

(** The bytes of a UTF-8 byte order mark. *)
Definition BOM : list ascii := map ascii_of_nat [239; 187; 191].

(** The decoding of a string as the specification words it: from just after
    the opening delimiter, an escape character is dropped and the character
    after it is kept as it is; the first delimiter that is not escaped ends
    the string.  The result is the text and the input after the closing
    delimiter, or [None] when the line ends first. *)
Fixpoint unescape (esc del : ascii) (s : list ascii)
  : option (cstring * list ascii) :=
  match s with
  | [] => None
  | c :: s' =>
      if Ascii.eqb c esc then
        match s' with
        | [] => None
        | c' :: s'' =>
            match unescape esc del s'' with
            | Some (txt, rest) => Some (c' :: txt, rest)
            | None => None
            end
        end
      else if Ascii.eqb c del then Some ([], s')
      else
        match unescape esc del s' with
        | Some (txt, rest) => Some (c :: txt, rest)
        | None => None
        end
  end.

(** A rule is live on [c] when it is active and the derivative of its
    pattern by [c] is not void. *)
Definition first_live (st : start_condition) (bol : bool) (c : ascii) (r : rule)
  : bool :=
  existsb (sc_eqb st) (rule_starts r)
  && implb (pat_bol (rule_pat r)) bol
  && negb (is_void (deriv c (pat_regex (rule_pat r)))).

(** The pattern of the rule does not match the empty text. *)
Definition not_nullable (r : rule) : bool :=
  negb (nullable (pat_regex (rule_pat r))).

(** The string rule, after its first character: [.*] and the newline. *)
Definition rest_of_line : regex := Cat (Star Dot) (Chr LF).

(** Rules of the table, by name, as the proofs single them out. *)
Definition string_rule : rule :=
  mk R_STRING [BOX; SHAPES] (to_eol (Cat SDELIM (Star Dot))).

Definition unrec_rule : rule :=
  mk R_UNREC [INITIAL; BOX; SHAPES; ELASTIC] (plain Dot).

Definition white_rule : rule :=
  mk R_WHITE [INITIAL; BOX; DELIMSPEC; ELASTIC; SHAPES] (plain (Alt PWHITE PBOM)).

(** The scanner as the string action finds it: past the line, not at the
    beginning of a line, nothing kept by [yymore]. *)
Definition after_line (rest : list ascii) (sc : scanner) : scanner :=
  set_at_bol false (set_more [] (set_input (LF :: rest) sc)).

(** The string of the specification's example, between double quotes:
    a, backslash, double quote, b, backslash, backslash, c. *)
Definition escaped_example : list ascii :=
  [DQUOTE; "a"%char; BACKSLASH; DQUOTE; "b"%char; BACKSLASH; BACKSLASH;
   "c"%char; DQUOTE].

(** Its decoded text: a, double quote, b, backslash, c. *)
Definition escaped_example_text : cstring :=
  ["a"%char; DQUOTE; "b"%char; BACKSLASH; "c"%char].

(** No class of the expression accepts a newline. *)
Fixpoint lf_free (r : regex) : bool :=
  match r with
  | Void | Eps => true
  | Ccl neg rs => negb (ccl_mem neg rs LF)
  | Cat r s | Alt r s => lf_free r && lf_free s
  | Star r => lf_free r
  end.

(** Blank or tab: the white space allowed before the terminator. *)
Definition is_horizontal (c : ascii) : bool :=
  Ascii.eqb c SPACE || Ascii.eqb c TAB.

(** [kw] spells [word], whatever the case of its letters. *)
Definition spells (kw : list ascii) (word : string) : Prop :=
  map tolower kw = chars word.

(** The two terminator patterns of the sample block, and its four rules. *)
Definition ends_line_re : regex :=
  Seq [Star (Ccl false horizontal); Lit "ends"; Star (Ccl false trailing)].

Definition ends_re : regex := Seq [Lit "ends"; Star (Ccl false trailing)].

Definition nl_rule : rule := mk R_SAMPLE_NL [SAMPLE] (plain (Chr LF)).

Definition ends_line_rule : rule :=
  mk R_SAMPLE_ENDS_LINE [SAMPLE] (line ends_line_re).

Definition any_rule : rule := mk R_SAMPLE_ANY [SAMPLE] (plain Dot).

Definition ends_rule : rule := mk R_SAMPLE_ENDS [SAMPLE] (to_eol ends_re).



(** Two texts that differ in the case of their letters only. *)
Definition ci_eq (s1 s2 : list ascii) : Prop :=
  Forall2 (fun a b => tolower a = tolower b) s1 s2.

(** Two scanners that differ in the case of the letters of their input
    only. *)
Definition agree (sc1 sc2 : scanner) : Prop :=
  yy_start sc1 = yy_start sc2 /\ yy_at_bol sc1 = yy_at_bol sc2 /\
  yy_more sc1 = yy_more sc2 /\ yyextra sc1 = yyextra sc2 /\
  yyerrlog sc1 = yyerrlog sc2 /\ ci_eq (yy_input sc1) (yy_input sc2).

(** The rules of the keywords. *)
Definition is_keyword_rule (n : rule_id) : bool :=
  match n with
  | R_PARENT | R_SAMPLE | R_SAMPLE_ENDS_LINE | R_SAMPLE_ENDS | R_TAGS
  | R_ELASTIC | R_SHAPES | R_BOX | R_REPLACE | R_REVERSE | R_PADDING | R_TO
  | R_WITH | R_GLOBAL | R_ONCE | R_END | R_SHAPE _ | R_KEYWORD | R_CHGDEL =>
      true
  | _ => false
  end.

(** A sample block whose first content line ends in the word friends. *)
Definition friends_sample : list ascii :=
  chars "box b sample" ++ [LF] ++ chars "my friends" ++ [LF]
  ++ chars "second line" ++ [LF] ++ chars "ends" ++ [LF] ++ chars "end" ++ [LF].

(** A sample block with a line on which other text follows the word. *)
Definition ends_now_sample : list ascii :=
  chars "box b sample" ++ [LF] ++ chars "  ends now" ++ [LF]
  ++ chars "ends" ++ [LF] ++ chars "end" ++ [LF].

(** A scanner inside a box definition, with the default delimiters. *)
Definition in_box (cnt : Z) (input : list ascii) : scanner :=
  {| yy_start := BOX; yy_input := input; yy_at_bol := false; yy_more := [];
     yyextra := {| yyerrcnt := cnt; sdel := DQUOTE; sesc := BACKSLASH |};
     yyerrlog := [] |}.

(** A scanner inside a sample block, at the beginning of a line, with the
    text [more] kept so far. *)
Definition in_sample (more input : list ascii) : scanner :=
  {| yy_start := SAMPLE; yy_input := input; yy_at_bol := true; yy_more := more;
     yyextra := {| yyerrcnt := 0; sdel := DQUOTE; sesc := BACKSLASH |};
     yyerrlog := [] |}.

(** A scanner after the [delimiter] keyword. *)
Definition in_delimspec (input : list ascii) : scanner :=
  {| yy_start := DELIMSPEC; yy_input := input; yy_at_bol := false; yy_more := [];
     yyextra := {| yyerrcnt := 0; sdel := DQUOTE; sesc := BACKSLASH |};
     yyerrlog := [] |}.

(** A line that ends on the escape character. *)
Definition dangling_line : list ascii := chars "abc" ++ [BACKSLASH].

(** An unterminated string on the last line of a file, which no newline
    ends, and the same with an escape character at the end. *)
Definition unterminated_last_line : list ascii := DQUOTE :: chars "abc".

Definition dangling_last_line : list ascii := DQUOTE :: dangling_line.

(** ** Vocabulary of the properties of the scanner as a whole *)

(** What is left to scan: two units for each character of the input and
    one for the beginning-of-line flag, which the sample rule uses up when
    it gives the terminator back. *)
Definition yy_left (sc : scanner) : nat :=
  2 * length (yy_input sc) + (if yy_at_bol sc then 1 else 0).

(** The delimiter in force is one of [LEX_SDELIM] and is not the escape
    character. *)
Definition delimiters_valid (sc : scanner) : Prop :=
  In (sdel (yyextra sc)) LEX_SDELIM /\ sesc (yyextra sc) <> sdel (yyextra sc).

(** What the rules keep between two matches: text is kept by [yymore] in
    [SAMPLE] only, and inside a box definition the delimiters are valid. *)
Definition scanner_inv (sc : scanner) : Prop :=
  (yy_start sc <> SAMPLE -> yy_more sc = []) /\
  (yy_start sc <> INITIAL -> yy_start sc <> PARENT -> delimiters_valid sc).

(** The pattern proper of a rule, without its trailing context, does not
    match the empty text. *)
Definition pattern_not_nullable (r : rule) : bool :=
  negb (nullable (pat_re (rule_pat r))).
(** The start conditions a rule is declared for, by the name of the rule. *)
Definition rule_starts_of (n : rule_id) : list start_condition :=
  match rule_named n with
  | Some r => rule_starts r
  | None => []
  end.

(** The moves between start conditions: from [a] to [b] on a step that
    returns [t], or no token when [t] is [None]. *)
Definition transition (a : start_condition) (t : option token)
    (b : start_condition) : Prop :=
  b = a \/
  (a = INITIAL /\ t = Some YBOX /\ b = BOX) \/
  (a = INITIAL /\ t = Some YPARENT /\ b = PARENT) \/
  (a = PARENT /\ (t = Some FILENAME \/ t = None) /\ b = INITIAL) \/
  (a = BOX /\ t = Some YEND /\ b = INITIAL) \/
  (a = BOX /\ t = Some YSAMPLE /\ b = SAMPLE) \/
  (a = SAMPLE /\ t = Some YENDSAMPLE /\ b = BOX) \/
  (a = BOX /\ t = Some YSHAPES /\ b = SHAPES) \/
  (a = SHAPES /\ (exists c, t = Some (CHAR c)) /\ b = BOX) \/
  (a = BOX /\ t = Some YELASTIC /\ b = ELASTIC) \/
  (a = ELASTIC /\ (exists c, t = Some (CHAR c)) /\ b = BOX) \/
  (a = BOX /\ t = Some YCHGDEL /\ b = DELIMSPEC) \/
  (a = DELIMSPEC /\ (t = Some YDELIMSPEC \/ t = Some YUNREC) /\ b = BOX).
(** The member of [yylval] a token comes with; [None] when the action
    stores nothing. *)
Definition value_fits (t : token) (v : option yystype) : Prop :=
  match t with
  | STRING | WORD | FILENAME | YDELIMSPEC => exists s, v = Some (val_s s)
  | KEYWORD | ASCII_ID => exists s, v = Some (val_ascii s)
  | YRXPFLAG => v = Some (val_c "g") \/ v = Some (val_c "o")
  | YNUMBER => exists n, v = Some (val_num n)
  | SHAPE => exists sh, v = Some (val_shape sh)
  | YUNREC => v = None \/ v = Some (val_s (chars "IGNORED"))
  | _ => v = None
  end.
(** More rules of the table, by name. *)
Definition delimspec_rule : rule :=
  mk R_DELIMSPEC [DELIMSPEC] (plain (Plus (Ccl true blanks))).

Definition filename_rule : rule := mk R_FILENAME [PARENT] (plain PFILENAME).

Definition parent_nl_rule : rule :=
  mk R_PARENT_NL [PARENT] (plain (Cat (Opt (Chr CR)) (Chr LF))).

Definition comment_rule : rule :=
  mk R_COMMENT [INITIAL; BOX; SHAPES; ELASTIC] (to_eol (Cat (Chr "#") (Star Dot))).

(** A carriage return that no newline follows. *)
Definition lone_CR (input : list ascii) : Prop :=
  exists rest, input = CR :: rest /\ forall rest', rest <> LF :: rest'.
(** All the bytes. *)
Definition all_ascii : list ascii := map ascii_of_nat (seq 0 256).

(** The derivative by a text, and matching by derivatives. *)
Fixpoint derivs (r : regex) (u : list ascii) : regex :=
  match u with
  | [] => r
  | c :: u' => derivs (deriv c r) u'
  end.

Definition matchb (r : regex) (u : list ascii) : bool := nullable (derivs r u).

(** The bytes of a range of a character class. *)
Fixpoint chars_from (n : nat) (lo : N) : list ascii :=
  match n with
  | 0 => []
  | S n' => ascii_of_N lo :: chars_from n' (N.succ lo)
  end.

Definition range_chars (lo hi : ascii) : list ascii :=
  chars_from (N.to_nat (N.succ (code hi) - code lo)) (code lo).

(** The classes of [r] hold characters of [ok] only (a class that is not
    negated is checked range by range): with [ok] blind to case, every text
    of the language of [r] is made of characters of [ok]. *)
Fixpoint confined (ok : ascii -> bool) (r : regex) : bool :=
  match r with
  | Void | Eps => true
  | Ccl true rs => forallb (fun c => implb (ccl_mem true rs c) (ok c)) all_ascii
  | Ccl false rs =>
      forallb (fun lh => forallb ok (range_chars (fst lh) (snd lh))) rs
  | Cat a b | Alt a b => confined ok a && confined ok b
  | Star a => confined ok a
  end.

Definition case_closed (ok : ascii -> bool) : Prop :=
  forall c, ok (tolower c) = ok c /\ ok (toupper c) = ok c.

(** No text of the pattern starts with a character of [first]. *)
Definition dead_on (first : ascii -> bool) (r : regex) : bool :=
  forallb (fun c => implb (first c) (is_void (deriv c r))) all_ascii.

(** The texts of [r] that start with a character of [first] go on with
    characters of [ok] only. *)
Fixpoint tail_confined (ok first : ascii -> bool) (r : regex) : bool :=
  match r with
  | Void | Eps | Ccl _ _ => true
  | Cat a b =>
      if tail_confined ok first a && confined ok b then true
      else dead_on first r
  | Alt a b => tail_confined ok first a && tail_confined ok first b
  | Star a => if confined ok a then true else dead_on first r
  end.

(** [active], by the start condition and the beginning-of-line flag. *)
Definition active_in (st : start_condition) (bol : bool) (r : rule) : bool :=
  existsb (sc_eqb st) (rule_starts r) && implb (pat_bol (rule_pat r)) bol.

(** After a character of [first], whatever the active rules go on to
    match is made of characters of [ok]. *)
Definition run_confined (ok first : ascii -> bool) (st : start_condition)
    (bol : bool) : bool :=
  forallb (fun r => if active_in st bol r
                    then tail_confined ok first (pat_regex (rule_pat r))
                    else true) rules.

(** The input does not go on with a character of [ok]. *)
Definition stops (ok : ascii -> bool) (rest : list ascii) : Prop :=
  match rest with
  | [] => True
  | x :: _ => ok x = false
  end.

(** The first rule of the table that is active and matches all of [w]. *)
Definition whole_match (st : start_condition) (bol : bool) (w : list ascii)
  : option rule :=
  find (fun r => active_in st bol r && matchb (pat_regex (rule_pat r)) w) rules.

(** The scanner as flex hands it to the action of a rule without trailing
    context that matched [w] before [rest]. *)
Definition advance (w rest : list ascii) (sc : scanner) : scanner :=
  set_at_bol (Ascii.eqb (last (yy_more sc ++ w) NUL) LF)
    (set_more [] (set_input rest sc)).

(** What a step makes of the outcome of the action. *)
Definition step_of (a : action_result) : step_result :=
  match a with
  | Return t v sc' => SToken t v sc'
  | Continue sc' => SSkip sc'
  | REJECT => SJam
  end.
(** The characters of identifiers: [[a-zA-Z]], [[0-9]], and the classes
    of [PASCII_ID] and [PWORD]; a byte of a multi-byte character has its
    high bit set. *)
Definition is_letter (c : ascii) : bool := isupper c || islower c.

Definition is_digit (c : ascii) : bool := in_range "0" "9" c.

Definition is_word_char (c : ascii) : bool :=
  is_letter c || is_digit c || Ascii.eqb c "_" || Ascii.eqb c "-".

Definition is_high (c : ascii) : bool := (128 <=? code c)%N.

Definition is_word_byte (c : ascii) : bool := is_word_char c || is_high c.

(** What a word starts with. *)
Definition word_start (c : ascii) : bool := is_letter c || is_high c.

(** The keywords, by start condition, with the rule of each. *)
Definition keyword_table : list (start_condition * string * rule_id) :=
  [ (INITIAL, "parent", R_PARENT); (INITIAL, "box", R_BOX);
    (BOX, "sample", R_SAMPLE); (BOX, "tags", R_TAGS);
    (BOX, "elastic", R_ELASTIC); (BOX, "shapes", R_SHAPES);
    (BOX, "replace", R_REPLACE); (BOX, "reverse", R_REVERSE);
    (BOX, "padding", R_PADDING); (BOX, "to", R_TO); (BOX, "with", R_WITH);
    (BOX, "global", R_GLOBAL); (BOX, "once", R_ONCE); (BOX, "end", R_END);
    (BOX, "author", R_KEYWORD); (BOX, "designer", R_KEYWORD);
    (BOX, "created", R_KEYWORD); (BOX, "revision", R_KEYWORD);
    (BOX, "revdate", R_KEYWORD); (BOX, "indent", R_KEYWORD);
    (BOX, "delimiter", R_CHGDEL); (BOX, "delim", R_CHGDEL) ]%string.

Definition keywords (st : start_condition) : list (list ascii) :=
  map (fun k => chars (snd (fst k)))
    (filter (fun k => sc_eqb (fst (fst k)) st) keyword_table).

(** The texts of a pattern without repetition whose classes hold one
    character each, in lower case; [None] for the other patterns. *)
Fixpoint finite_lang (r : regex) : option (list (list ascii)) :=
  match r with
  | Void => Some []
  | Eps => Some [[]]
  | Ccl false [(lo, hi)] =>
      if Ascii.eqb lo hi then Some [[tolower lo]] else None
  | Ccl _ _ => None
  | Cat a b =>
      match finite_lang a, finite_lang b with
      | Some la, Some lb =>
          Some (flat_map (fun u => map (fun v => u ++ v) lb) la)
      | _, _ => None
      end
  | Alt a b =>
      match finite_lang a, finite_lang b with
      | Some la, Some lb => Some (la ++ lb)
      | _, _ => None
      end
  | Star _ => None
  end.

Definition list_ascii_eqb (a b : list ascii) : bool :=
  if list_eq_dec ascii_dec a b then true else false.

(** A rule that cannot take the word [w] of the start condition [st] for
    itself unless [w] is one of [kws]: it is not active, or none of its
    texts starts with a letter, or its texts are among [kws]. *)
Definition yields_to_words (kws : list (list ascii)) (st : start_condition)
    (bol : bool) (r : rule) : bool :=
  if active_in st bol r then
    if dead_on is_letter (pat_regex (rule_pat r)) then true
    else match finite_lang (pat_regex (rule_pat r)) with
         | Some l => forallb (fun u => existsb (list_ascii_eqb u) kws) l
         | None => false
         end
  else true.

(** The rules of the table before the rule named [n]. *)
Fixpoint rules_before (n : rule_id) (rs : list rule) : list rule :=
  match rs with
  | [] => []
  | r :: rs' => if rule_eqb (rule_name r) n then [] else r :: rules_before n rs'
  end.

Definition ascii_id_rule : rule := mk R_ASCII_ID [INITIAL; BOX] (plain PASCII_ID).

Definition word_rule : rule := mk R_WORD [INITIAL; BOX] (plain PWORD).
(** The check of a keyword of the table: its rule is the first that
    matches it as a whole, and it is made of letters. *)
Definition keyword_check (bol : bool) (k : start_condition * string * rule_id)
  : bool :=
  let '(st, kw, n) := k in
  (sc_eqb st INITIAL || sc_eqb st BOX)
  && forallb is_letter (chars kw)
  && match whole_match st bol (chars kw) with
     | Some r => rule_eqb (rule_name r) n && negb (pat_eol (rule_pat r))
     | None => false
     end.
(** A byte of the ASCII range. *)
Definition is_ascii (c : ascii) : bool := negb (is_high c).

(** A rule that cannot take a word with a multi-byte character for
    itself: it is the white space rule, whose byte order mark is the one
    exception, or it is not active, or its texts are ASCII, or none of them
    starts like a word. *)
Definition yields_to_multibyte (st : start_condition) (bol : bool) (r : rule)
  : bool :=
  if rule_eqb (rule_name r) R_WHITE then true
  else if active_in st bol r then
    if confined is_ascii (pat_regex (rule_pat r)) then true
    else dead_on word_start (pat_regex (rule_pat r))
  else true.
(** A rule that takes no text that starts with a character of [first]. *)
Definition yields_on (first : ascii -> bool) (st : start_condition)
    (bol : bool) (r : rule) : bool :=
  if active_in st bol r then dead_on first (pat_regex (rule_pat r)) else true.

(** Numbers. *)
Definition is_sign (c : ascii) : bool := Ascii.eqb c "+" || Ascii.eqb c "-".

Definition number_start (c : ascii) : bool := is_digit c || is_sign c.

Definition number_rule : rule :=
  mk R_NUMBER [BOX]
    (plain (Cat (Opt (Any "+-")) (Plus (Ccl false [("0"%char, "9"%char)])))).

(** The letters of the shape names, and the names as the rules spell
    them. *)
Definition is_compass (c : ascii) : bool :=
  let l := tolower c in
  Ascii.eqb l "n" || Ascii.eqb l "e" || Ascii.eqb l "s" || Ascii.eqb l "w".

Definition shape_table : list (shape_t * string) :=
  [ (Shape.NW, "nw"); (Shape.NNW, "nnw"); (Shape.N, "n"); (Shape.NNE, "nne");
    (Shape.NE, "ne"); (Shape.ENE, "ene"); (Shape.E, "e"); (Shape.ESE, "ese");
    (Shape.SE, "se"); (Shape.SSE, "sse"); (Shape.S, "s"); (Shape.SSW, "ssw");
    (Shape.SW, "sw"); (Shape.WSW, "wsw"); (Shape.W, "w"); (Shape.WNW, "wnw") ]%string.

Definition shape_check (st : start_condition) (bol : bool)
    (k : shape_t * string) : bool :=
  forallb is_compass (chars (snd k))
  && match whole_match st bol (chars (snd k)) with
     | Some r => rule_eqb (rule_name r) (R_SHAPE (fst k))
                 && negb (pat_eol (rule_pat r))
     | None => false
     end.

(** The symbols of the rule [[,(){}]], and the two that close a list. *)
Definition is_symbol (c : ascii) : bool := existsb (Ascii.eqb c) (chars ",(){}").

Definition closes (st : start_condition) (c : ascii) : bool :=
  match st with
  | ELASTIC => Ascii.eqb c ")"
  | SHAPES => Ascii.eqb c "}"
  | _ => false
  end.

Definition nothing (c : ascii) : bool := false.

(** The characters a sample block keeps one by one: not the newline, not
    the first letter of the terminator and, at the beginning of a line, not
    the blanks that may precede it. *)
Definition sample_plain (bol : bool) (c : ascii) : bool :=
  negb (Ascii.eqb c LF) && negb (Ascii.eqb (tolower c) "e")
  && negb (bol && is_horizontal c).

(** The characters of a file name: all but carriage return and newline. *)
Definition is_name_char (c : ascii) : bool :=
  negb (Ascii.eqb c CR || Ascii.eqb c LF).
(** The pattern of a comment, before its trailing context. *)
Definition comment_re : regex := Cat (Chr "#") (Star Dot).

(** The start conditions in which a character opens a text that runs to
    the end of the line: the number sign of a comment, or a character of
    [LEX_SDELIM], which may open a string. *)
Definition opens_line (st : start_condition) (c : ascii) : Prop :=
  (c = "#"%char /\
   (st = INITIAL \/ st = BOX \/ st = SHAPES \/ st = ELASTIC)) \/
  (In c LEX_SDELIM /\ (st = BOX \/ st = SHAPES)).

(** The scanner after a rule without trailing context took the one
    character before [rest], which is no newline. *)
Definition past_char (rest : list ascii) (sc : scanner) : scanner :=
  set_at_bol false (set_more [] (set_input rest sc)).
(** Lines of strings that are never closed: each opens with the delimiter
    [d], goes on with one of [bodies] and ends in its newline. *)
Definition string_lines (d : ascii) (bodies : list (list ascii)) : list ascii :=
  flat_map (fun body => d :: body ++ [LF]) bodies.

(** What the writer of a definition does to put a text between
    delimiters: an escape character before every delimiter and every escape
    character of the text. *)
Definition escape (esc del : ascii) (s : list ascii) : list ascii :=
  flat_map (fun c => if Ascii.eqb c esc || Ascii.eqb c del then [esc; c] else [c]) s.

(** The [memmove] calls of the string rule, checked against the buffer
    that [strdup] returned: the loop of [string_loop], true when every call
    [memmove (p, p+1, rest_len)] has a length that is not negative and
    reads inside [str]. *)
Fixpoint string_loop_in_bounds (fuel : nat) (esc del : ascii) (str : list ascii)
    (p : nat) (rest_len qcnt : Z) : bool :=
  match fuel with
  | 0 => true
  | S fuel' =>
      if Ascii.eqb (nth p str NUL) NUL then true
      else if Ascii.eqb (nth p str NUL) esc then
        if (0 <=? rest_len)%Z && (S p + Z.to_nat rest_len <=? length str) then
          let str' := memmove_left str p (Z.to_nat rest_len) in
          let qcnt' := (qcnt + 1)%Z in
          let rest_len' := (rest_len - 1)%Z in
          if Ascii.eqb (nth p str' NUL) NUL then true
          else string_loop_in_bounds fuel' esc del str' (S p) (rest_len' - 1)%Z qcnt'
        else false
      else if Ascii.eqb (nth p str NUL) del then true
      else string_loop_in_bounds fuel' esc del str (S p) (rest_len - 1)%Z qcnt
  end.

Definition scan_string_in_bounds (esc del : ascii) (yytext : list ascii) : bool :=
  let rest_len := (Z.of_nat (length yytext) - 1)%Z in
  let str := strdup (tl yytext) ++ [NUL] in
  string_loop_in_bounds (S (length yytext)) esc del str 0 rest_len 0%Z.

(** The sample rule: where [p] stands after the loop over the trailing
    blanks, the copy of the text cut at the letter n, and the index [len]
    at which the newline is stored in the copy. *)
Definition sample_p (yytext : list ascii) : nat :=
  skip_trailing yytext (length yytext - 1).

Definition sample_copy (yytext : list ascii) : list ascii :=
  strdup (poke yytext (sample_p yytext - 2) NUL) ++ [NUL].

Definition sample_len (yytext : list ascii) : nat := sample_p yytext - 2 - 1.

(** [report_state_char] and [report_state]: the text formatted into the
    buffer of four bytes, and the line written to [stderr], which is empty
    unless [LEXER_DEBUG] is defined. *)
Definition is_print (c : ascii) : bool :=
  (code SPACE <=? code c)%N && (code c <=? 126)%N.

Definition quoted (c : ascii) : cstring :=
  ["'"%char; if is_print c then c else "?"%char; "'"%char].

Definition pad_left (width : nat) (s : cstring) : cstring :=
  repeat SPACE (width - length s) ++ s.

Definition report_state (lexerDebug : bool) (symbol text expected_state_str : cstring)
  : list ascii :=
  if lexerDebug then
    pad_left 7 symbol ++ chars ": " ++ text ++ chars " -- STATE "
    ++ expected_state_str ++ [LF]
  else [].

Definition report_state_char (lexerDebug : bool) (symbol : cstring) (c : ascii)
    (expected_state_str : cstring) : list ascii :=
  report_state lexerDebug symbol (quoted c) expected_state_str.

(** shape.h: the enumerators of [shape_t] count from 0, and the sizes of
    the tables indexed by them. *)
Definition shape_index (s : shape_t) : nat :=
  match s with
  | Shape.NW => 0 | Shape.NNW => 1 | Shape.N => 2 | Shape.NNE => 3
  | Shape.NE => 4 | Shape.ENE => 5 | Shape.E => 6 | Shape.ESE => 7
  | Shape.SE => 8 | Shape.SSE => 9 | Shape.S => 10 | Shape.SSW => 11
  | Shape.SW => 12 | Shape.WSW => 13 | Shape.W => 14 | Shape.WNW => 15
  end.

Definition NUM_SHAPES : nat := 16.
Definition SHAPES_PER_SIDE : nat := 5.
Definition CORNERS_PER_SIDE : nat := 2.
Definition NUM_SIDES : nat := 4.
Definition NUM_CORNERS : nat := 4.

(** * Properties *)

Arguments strchr : simpl never.
Arguments strlen : simpl never.

(** ** Bytes *)

Module CharsFacts.

Lemma strdup_no_nul s : no_nul s -> strdup s = s.
Proof.
  unfold no_nul. induction s as [|c s IH]; simpl; intros H; [reflexivity|].
  destruct (Ascii.eqb_spec c NUL) as [->|_].
  - exfalso. apply H. now left.
  - f_equal. apply IH. intros Hin. apply H. now right.
Qed.

Lemma tolower_idem c : tolower (tolower c) = tolower c.
Proof. destruct c as [[] [] [] [] [] [] [] []]; reflexivity. Qed.

Lemma toupper_tolower c : toupper (tolower c) = toupper c.
Proof. destruct c as [[] [] [] [] [] [] [] []]; reflexivity. Qed.

Lemma lower_or_upper c : tolower c = c \/ toupper c = c.
Proof. destruct c as [[] [] [] [] [] [] [] []]; auto. Qed.

End CharsFacts.
Import CharsFacts.

(** ** The matcher computes the longest prefix in the language *)

Module RegexFacts.

Lemma matches_Void w : ~ matches Void w.
Proof. intros H; inversion H. Qed.

Lemma matches_Eps w : matches Eps w <-> w = [].
Proof. split; [intros H; now inversion H | intros ->; constructor]. Qed.

Lemma matches_Ccl neg rs w :
  matches (Ccl neg rs) w <-> exists c, w = [c] /\ ccl_mem neg rs c = true.
Proof.
  split.
  - intros H; inversion H; subst; eauto.
  - intros (c & -> & H); now constructor.
Qed.

Lemma matches_Cat r s w :
  matches (Cat r s) w <-> exists u v, w = u ++ v /\ matches r u /\ matches s v.
Proof.
  split.
  - intros H; inversion H; subst; eauto.
  - intros (u & v & -> & Hu & Hv); now constructor.
Qed.

Lemma matches_Alt r s w : matches (Alt r s) w <-> matches r w \/ matches s w.
Proof.
  split.
  - intros H; inversion H; subst; auto.
  - intros [H|H]; [now apply MAltL | now apply MAltR].
Qed.

Lemma nullable_spec r : nullable r = true <-> matches r [].
Proof.
  induction r as [| |neg rs|r IHr s IHs|r IHr s IHs|r IHr]; simpl.
  - split; [discriminate | intros H; inversion H].
  - split; [constructor | reflexivity].
  - split; [discriminate | intros H; inversion H].
  - rewrite andb_true_iff, IHr, IHs, matches_Cat. split.
    + intros [Hr Hs]. now exists [], [].
    + intros (u & v & E & Hu & Hv). symmetry in E.
      apply app_eq_nil in E as [-> ->]. now split.
  - rewrite orb_true_iff, IHr, IHs. symmetry. apply matches_Alt.
  - split; [constructor | reflexivity].
Qed.

Lemma mkCat_spec r s w : matches (mkCat r s) w <-> matches (Cat r s) w.
Proof.
  rewrite matches_Cat.
  destruct r; simpl;
    try (destruct s; simpl; rewrite ?matches_Cat; try tauto;
         split; [intros H; now inversion H
                |intros (u & v & _ & _ & H); now inversion H]).
  - split; [intros H; now inversion H | intros (u & v & _ & H & _); now inversion H].
  - split.
    + intros H. now exists [], w; repeat split; [constructor|].
    + intros (u & v & -> & Hu & Hv). apply matches_Eps in Hu. now subst.
Qed.

Lemma mkAlt_spec r s w : matches (mkAlt r s) w <-> matches (Alt r s) w.
Proof.
  rewrite matches_Alt.
  destruct r; simpl;
    try (destruct s; simpl; rewrite ?matches_Alt; try tauto;
         split; [tauto | intros [H|H]; [assumption | now inversion H]]).
  split; [tauto | intros [H|H]; [now inversion H | assumption]].
Qed.

Lemma star_cons r c w :
  matches (Star r) (c :: w) ->
  exists u v, w = u ++ v /\ matches r (c :: u) /\ matches (Star r) v.
Proof.
  intros H. remember (Star r) as q eqn:Eq. remember (c :: w) as x eqn:Ex.
  revert w Ex. induction H; intros w Ex; try discriminate.
  injection Eq as ->.
  destruct u as [|a u]; simpl in Ex.
  - apply IHmatches2; auto.
  - injection Ex as -> <-. eauto.
Qed.

Lemma deriv_spec c r : forall w, matches (deriv c r) w <-> matches r (c :: w).
Proof.
  induction r as [| |neg rs|r IHr s IHs|r IHr s IHs|r IHr]; intros w; simpl.
  - split; intros H; inversion H.
  - split; intros H; inversion H.
  - rewrite matches_Ccl. destruct (ccl_mem neg rs c) eqn:E.
    + rewrite matches_Eps. split.
      * intros ->. eauto.
      * intros (c' & [= -> ->] & _). reflexivity.
    + split; [intros H; inversion H|].
      intros (c' & [= -> ->] & H). congruence.
  - rewrite mkAlt_spec, matches_Alt, mkCat_spec, !matches_Cat. split.
    + intros [(u & v & -> & Hu & Hv)|H].
      * exists (c :: u), v. repeat split; auto. now apply IHr.
      * destruct (nullable r) eqn:En; [|now inversion H].
        exists [], (c :: w). repeat split; auto.
        -- now apply nullable_spec.
        -- now apply IHs.
    + intros (u & v & E & Hu & Hv). destruct u as [|a u]; simpl in E.
      * right. subst v. apply nullable_spec in Hu. rewrite Hu. now apply IHs.
      * injection E as <- ->. left. exists u, v. repeat split; auto.
        now apply IHr.
  - rewrite mkAlt_spec, !matches_Alt, IHr, IHs. tauto.
  - rewrite mkCat_spec, matches_Cat. split.
    + intros (u & v & -> & Hu & Hv). apply IHr in Hu.
      change (c :: u ++ v) with ((c :: u) ++ v). now constructor.
    + intros H. apply star_cons in H as (u & v & -> & Hu & Hv).
      exists u, v. repeat split; auto. now apply IHr.
Qed.

Lemma is_void_true r : is_void r = true -> r = Void.
Proof. destruct r; simpl; congruence. Qed.

Lemma longest_cases r : forall s n best,
  longest r s n best = best \/
  exists k, k <= length s /\ longest r s n best = Some (n + k)
            /\ matches r (firstn k s).
Proof.
  intros s; revert r. induction s as [|c s IH]; intros r n best; simpl.
  - destruct (nullable r) eqn:En; auto.
    right. exists 0. rewrite Nat.add_0_r. repeat split; auto.
    now apply nullable_spec.
  - assert (Hnow : (if nullable r then Some n else best) = best \/
                   (nullable r = true /\
                    (if nullable r then Some n else best) = Some n)).
    { destruct (nullable r); auto. }
    destruct (is_void (deriv c r)).
    + destruct Hnow as [->|[En ->]]; auto.
      right. exists 0. rewrite Nat.add_0_r. repeat split; [lia|].
      now apply nullable_spec.
    + destruct (IH (deriv c r) (S n) (if nullable r then Some n else best))
        as [E|(k & Hk & E & Hm)].
      * rewrite E. destruct Hnow as [->|[En ->]]; auto.
        right. exists 0. rewrite Nat.add_0_r. repeat split; [lia|].
        now apply nullable_spec.
      * right. exists (S k). repeat split; [lia| |].
        -- rewrite E. f_equal. lia.
        -- simpl. now apply deriv_spec.
Qed.

Lemma longest_keeps r : forall s n b,
  b <= n -> exists m, longest r s n (Some b) = Some m /\ b <= m.
Proof.
  intros s n b Hb.
  destruct (longest_cases r s n (Some b)) as [E|(k & _ & E & _)].
  - exists b. auto.
  - exists (n + k). split; [assumption | lia].
Qed.

Lemma longest_complete : forall s r n best k,
  k <= length s -> matches r (firstn k s) ->
  exists m, longest r s n best = Some m /\ n + k <= m.
Proof.
  induction s as [|c s IH]; intros r n best k Hk Hm.
  - simpl in Hk. assert (k = 0) as -> by lia. simpl in *.
    apply nullable_spec in Hm. rewrite Hm. exists n. split; [reflexivity | lia].
  - destruct k as [|k]; simpl in *.
    + apply nullable_spec in Hm. rewrite Hm.
      destruct (is_void (deriv c r)).
      * exists n. split; [reflexivity | lia].
      * destruct (longest_keeps (deriv c r) s (S n) n) as (m & E & Hle); [lia|].
        exists m. split; [assumption | lia].
    + apply deriv_spec in Hm.
      destruct (is_void (deriv c r)) eqn:Ev.
      * apply is_void_true in Ev. rewrite Ev in Hm. now inversion Hm.
      * destruct (IH (deriv c r) (S n) (if nullable r then Some n else best) k)
          as (m & E & Hle); [lia | assumption |].
        exists m. split; [assumption | lia].
Qed.

(** The longest match is the one prefix in the language that no longer
    prefix in the language extends. *)
Lemma longest_match_is r s k :
  k <= length s -> matches r (firstn k s) ->
  (forall j, k < j <= length s -> ~ matches r (firstn j s)) ->
  longest_match r s = Some k.
Proof.
  intros Hk Hm Hmax. unfold longest_match.
  destruct (longest_complete s r 0 None k Hk Hm) as (m & E & Hle).
  destruct (longest_cases r s 0 None) as [E'|(j & Hj & E' & Hmj)];
    [congruence|].
  rewrite E' in E. injection E as <-. simpl in *.
  destruct (Nat.eq_dec j k) as [->|Hne]; [assumption|].
  exfalso. apply (Hmax j); [lia | assumption].
Qed.

Lemma longest_match_none r s :
  (forall j, j <= length s -> ~ matches r (firstn j s)) ->
  longest_match r s = None.
Proof.
  intros H. unfold longest_match.
  destruct (longest_cases r s 0 None) as [E|(j & Hj & _ & Hm)]; [assumption|].
  exfalso. now apply (H j).
Qed.

Lemma longest_match_sound r s k :
  longest_match r s = Some k -> k <= length s /\ matches r (firstn k s).
Proof.
  unfold longest_match. intros E.
  destruct (longest_cases r s 0 None) as [E'|(j & Hj & E' & Hm)]; [congruence|].
  rewrite E' in E. injection E as <-. auto.
Qed.

Lemma longest_match_max r s k j :
  longest_match r s = Some k -> j <= length s -> matches r (firstn j s) ->
  j <= k.
Proof.
  unfold longest_match. intros E Hj Hm.
  destruct (longest_complete s r 0 None j Hj Hm) as (m & E' & Hle).
  rewrite E' in E. injection E as <-. lia.
Qed.

End RegexFacts.
Import RegexFacts.

(** ** change_string_delimiters *)

Lemma strchr_In s c : strchr s c = true <-> In c s.
Proof.
  unfold strchr. rewrite existsb_exists. split.
  - intros (x & Hx & E). apply Ascii.eqb_eq in E. now subst.
  - intros H. exists c. split; [assumption | apply Ascii.eqb_refl].
Qed.

Lemma change_string_delimiters_cases sc delim_expr :
  (valid_delimiters delim_expr /\
   change_string_delimiters sc delim_expr =
     (set_extra {| yyerrcnt := yyerrcnt (yyextra sc);
                   sdel := nth 1 delim_expr NUL;
                   sesc := nth 0 delim_expr NUL |} sc, 0%Z)) \/
  (~ valid_delimiters delim_expr /\
   exists d, change_string_delimiters sc delim_expr = (yyerror d sc, 1%Z) /\
             (d = invalid_string_delimiter_specification delim_expr \/
              d = string_delimiter_and_escape_char_may_not_be_the_same \/
              d = invalid_string_delimiter (nth 1 delim_expr NUL))).
Proof.
  unfold change_string_delimiters, valid_delimiters.
  destruct (Nat.eqb_spec (strlen delim_expr) 2) as [El|El]; cbn [negb].
  2:{ right. split; [tauto | eauto]. }
  destruct (Ascii.eqb_spec (nth 0 delim_expr NUL) (nth 1 delim_expr NUL)) as [Ee|Ee].
  { right. split; [tauto | eauto 6]. }
  destruct (strchr LEX_SDELIM (nth 1 delim_expr NUL)) eqn:Ec; cbn [negb].
  - left. apply strchr_In in Ec. repeat split; auto.
  - right. split; [|eauto 6].
    intros (_ & _ & Hin). apply strchr_In in Hin. congruence.
Qed.

(** C1. [change_string_delimiters] returns 0 exactly for a specification of
    two characters that differ and whose second one is in [LEX_SDELIM]; it
    then stores the first as escape character and the second as delimiter.
    For every other specification it returns 1 and leaves both characters
    (and the rest of the scanner but the error log) as they were. *)
Theorem change_string_delimiters_spec (sc : scanner) (delim_expr : cstring) :
  let sc' := fst (change_string_delimiters sc delim_expr) in
  let rc := snd (change_string_delimiters sc delim_expr) in
  (rc = 0%Z <-> valid_delimiters delim_expr) /\
  (rc = 0%Z ->
     sesc (yyextra sc') = nth 0 delim_expr NUL /\
     sdel (yyextra sc') = nth 1 delim_expr NUL) /\
  (rc <> 0%Z ->
     rc = 1%Z /\ yyextra sc' = yyextra sc /\ yy_start sc' = yy_start sc /\
     yy_input sc' = yy_input sc).
Proof.
  destruct (change_string_delimiters_cases sc delim_expr)
    as [(Hv & E)|(Hv & d & E & _)]; rewrite E; simpl.
  - split; [|split].
    + split; auto.
    + auto.
    + intros H. now exfalso.
  - split; [|split].
    + split; [discriminate | intros H; now exfalso].
    + discriminate.
    + auto.
Qed.

(** ** One step of the scanner: which rule ran *)

Lemma yy_find_action_In cands c : yy_find_action cands = Some c -> In c cands.
Proof.
  revert c. induction cands as [|a cs IH]; simpl; intros c H; [discriminate|].
  destruct (yy_find_action cs) as [b|].
  - destruct (cand_total b <=? cand_total a).
    + injection H as <-. now left.
    + injection H as <-. right. now apply IH.
  - injection H as <-. now left.
Qed.

Lemma yy_find_action_some cands : cands <> [] -> yy_find_action cands <> None.
Proof.
  destruct cands as [|a cs]; [congruence|]. intros _. simpl.
  destruct (yy_find_action cs) as [b|]; [|discriminate].
  destruct (cand_total b <=? cand_total a); discriminate.
Qed.

Lemma yy_run_inv k : forall cands sc,
  match yy_run k cands sc with
  | SToken t v sc' => exists c, In c cands /\ yy_do_action c sc = Return t v sc'
  | SSkip sc' => exists c, In c cands /\ yy_do_action c sc = Continue sc'
  | SEof => False
  | SJam => True
  end.
Proof.
  induction k as [|k IH]; intros cands sc; simpl;
    destruct (yy_find_action cands) as [c|] eqn:Ef; auto;
    apply yy_find_action_In in Ef;
    destruct (yy_do_action c sc) eqn:Ea; eauto.
  specialize (IH (filter (fun c' => negb (rule_eqb (cand_rule c') (cand_rule c))) cands) sc).
  destruct (yy_run k _ sc); auto.
  - destruct IH as (c' & Hin & E). apply filter_In in Hin as [Hin _]. eauto.
  - destruct IH as (c' & Hin & E). apply filter_In in Hin as [Hin _]. eauto.
Qed.

Lemma try_rule_some sc r c :
  try_rule sc r = Some c ->
  cand_rule c = rule_name r /\
  existsb (sc_eqb (yy_start sc)) (rule_starts r) = true /\
  (pat_bol (rule_pat r) = true -> yy_at_bol sc = true) /\
  longest_match (pat_regex (rule_pat r)) (yy_input sc) = Some (cand_total c) /\
  cand_len c = (if pat_eol (rule_pat r) then cand_total c - 1 else cand_total c).
Proof.
  unfold try_rule, active. intros H.
  destruct (existsb _ _) eqn:Es; [|discriminate].
  destruct (implb _ _) eqn:Eb; [|discriminate]. simpl in H.
  destruct (longest_match _ _) as [n|] eqn:El; [|discriminate].
  injection H as <-. simpl. repeat split; auto.
  intros Hb. rewrite Hb in Eb. assumption.
Qed.

Lemma candidates_of_In sc rs c :
  In c (candidates_of sc rs) -> exists r, In r rs /\ try_rule sc r = Some c.
Proof.
  induction rs as [|r rs IH]; simpl; [tauto|].
  destruct (try_rule sc r) as [c'|] eqn:E.
  - intros [<-|H]; [eauto | destruct (IH H) as (r' & ? & ?); eauto].
  - intros H. destruct (IH H) as (r' & ? & ?); eauto.
Qed.

Lemma candidates_of_intro sc rs r c :
  In r rs -> try_rule sc r = Some c -> In c (candidates_of sc rs).
Proof.
  induction rs as [|r' rs IH]; simpl; [tauto|].
  intros [->|H] E.
  - rewrite E. now left.
  - destruct (try_rule sc r'); [right|]; auto.
Qed.

Lemma candidates_In sc c :
  In c (candidates sc) -> exists r, In r rules /\ try_rule sc r = Some c.
Proof. unfold candidates. apply candidates_of_In. Qed.

Lemma candidates_intro sc r c :
  In r rules -> try_rule sc r = Some c -> In c (candidates sc).
Proof. unfold candidates. apply candidates_of_intro. Qed.

(** A step that returns or skips ran the action of a rule of the table that
    is active and matched. *)
Lemma yy_step_rule sc :
  match yy_step sc with
  | SToken t v sc' =>
      exists r c, In r rules /\ try_rule sc r = Some c /\
        yy_action (rule_name r) (yy_text c sc) (yy_before_action c sc)
        = Return t v sc'
  | SSkip sc' =>
      exists r c, In r rules /\ try_rule sc r = Some c /\
        yy_action (rule_name r) (yy_text c sc) (yy_before_action c sc)
        = Continue sc'
  | SEof => yy_input sc = []
  | SJam => True
  end.
Proof.
  unfold yy_step. destruct (yy_input sc) as [|a i] eqn:Ei; [reflexivity|].
  cbv zeta.
  generalize (yy_run_inv (length (candidates sc)) (candidates sc) sc).
  generalize (yy_run (length (candidates sc)) (candidates sc) sc).
  intros res H.
  assert (Hc : forall c, In c (candidates sc) ->
                         exists r, In r rules /\ try_rule sc r = Some c).
  { intros c. apply candidates_In. }
  clear Ei. generalize dependent (candidates sc). intros cands H Hc.
  destruct res; [| |contradiction|exact I];
    destruct H as (c & Hin & E);
    apply Hc in Hin as (r & Hr & Ht);
    exists r, c; (split; [exact Hr|split; [exact Ht|]]);
    unfold yy_do_action in E;
    destruct (try_rule_some sc r c Ht) as (Hn & _); rewrite <- Hn; exact E.
Qed.

Lemma before_action_fields c sc :
  yy_start (yy_before_action c sc) = yy_start sc /\
  yyextra (yy_before_action c sc) = yyextra sc /\
  yyerrlog (yy_before_action c sc) = yyerrlog sc /\
  yy_input (yy_before_action c sc) = skipn (cand_len c) (yy_input sc) /\
  yy_more (yy_before_action c sc) = [].
Proof.
  unfold yy_before_action. destruct (0 <? _); simpl; auto.
Qed.

Lemma change_default_delimiters sc :
  change_string_delimiters sc default_delimiters =
  (set_extra {| yyerrcnt := yyerrcnt (yyextra sc);
                sdel := DQUOTE; sesc := BACKSLASH |} sc, 0%Z).
Proof. reflexivity. Qed.

Lemma string_action_cases yytext sc :
  string_action yytext sc = REJECT \/
  (exists str less,
     string_action yytext sc
     = Return STRING (Some (val_s str)) (yyless less yytext sc)) \/
  string_action yytext sc
  = Return YUNREC None (count_error (Unterminated_String yytext) sc).
Proof.
  unfold string_action.
  destruct (negb _); auto.
  destruct (scan_string _ _ _) as [[str less|]|]; eauto.
Qed.

Lemma sample_action_cases yytext sc :
  exists n,
    (exists str,
       sample_action yytext sc
       = Return STRING (Some (val_s str)) (yyless n yytext sc)) \/
    sample_action yytext sc
    = Return YUNREC None
        (count_error SAMPLE_block_must_not_be_empty (yyless n yytext sc)).
Proof.
  unfold sample_action.
  exists (skip_trailing yytext (length yytext - 1) - 2 - 1).
  destruct (btrim _ _) as [sample len]. destruct (0 <? len); eauto.
Qed.

Lemma delimspec_action_cases yytext sc :
  let str := strdup yytext in
  (valid_delimiters str /\
   yy_action R_DELIMSPEC yytext sc =
     Return YDELIMSPEC (Some (val_s (chars "IGNORED")))
       (set_extra {| yyerrcnt := yyerrcnt (yyextra sc);
                     sdel := nth 1 str NUL; sesc := nth 0 str NUL |}
          (BEGIN BOX sc))) \/
  (~ valid_delimiters str /\
   exists d, yy_action R_DELIMSPEC yytext sc =
     Return YUNREC (Some (val_s (chars "IGNORED"))) (yyerror d (BEGIN BOX sc)) /\
     (d = invalid_string_delimiter_specification str \/
      d = string_delimiter_and_escape_char_may_not_be_the_same \/
      d = invalid_string_delimiter (nth 1 str NUL))).
Proof.
  intros str. unfold yy_action. fold str.
  destruct (change_string_delimiters_cases (BEGIN BOX sc) str)
    as [(Hv & ->)|(Hv & d & -> & Hd)]; [left | right]; split; auto.
  exists d. split; auto.
Qed.

Lemma rule_named_In r : In r rules -> rule_named (rule_name r) = Some r.
Proof.
  unfold rules. intros H.
  repeat (destruct H as [<-|H]; [vm_compute; reflexivity|]).
  destruct H.
Qed.

Lemma starts_single sc s :
  existsb (sc_eqb (yy_start sc)) [s] = true -> yy_start sc = s.
Proof.
  simpl. destruct (yy_start sc), s; simpl; congruence.
Qed.

(** ** The [box] and [end] keywords *)

(** Splits the action under analysis into the outcomes of its helpers. *)
Ltac action_split yytext sc :=
  unfold yy_action; cbv zeta;
  match goal with
  | |- context [string_action yytext sc] =>
      destruct (string_action_cases yytext sc) as [->|[(?s & ?l & ->)| ->]]
  | |- context [sample_action yytext sc] =>
      destruct (sample_action_cases yytext sc) as (?k & [(?s & ->)| ->])
  | |- context [change_string_delimiters _ default_delimiters] =>
      rewrite change_default_delimiters
  | |- context [change_string_delimiters (BEGIN BOX sc) (strdup yytext)] =>
      destruct (change_string_delimiters_cases (BEGIN BOX sc) (strdup yytext))
        as [(?Hv & ->)|(?Hv & ?d & -> & ?Hd)]; cbn [negb Z.eqb]
  | |- context [1 <? length yytext] => destruct (1 <? length yytext)
  | _ => idtac
  end.

Lemma action_returns_YBOX n yytext sc v sc' :
  yy_action n yytext sc = Return YBOX v sc' ->
  n = R_BOX /\
  sc' = set_extra {| yyerrcnt := 0; sdel := DQUOTE; sesc := BACKSLASH |}
          (BEGIN BOX sc).
Proof.
  destruct n; action_split yytext sc; try discriminate.
  intros [= <- <-]. split; reflexivity.
Qed.

Lemma action_returns_YEND n yytext sc v sc' :
  yy_action n yytext sc = Return YEND v sc' ->
  n = R_END /\
  sc' = set_extra {| yyerrcnt := yyerrcnt (yyextra sc);
                     sdel := DQUOTE; sesc := BACKSLASH |}
          (BEGIN INITIAL sc).
Proof.
  destruct n; action_split yytext sc; try discriminate.
  intros [= <- <-]. split; reflexivity.
Qed.

(** Whatever the state of the scanner, and so whatever delimiters were set
    before: a step that returns the [box] token was taken in [INITIAL],
    leaves the scanner in [BOX] with escape character backslash and
    delimiter double quote, and clears the error counter; a step that
    returns the [end] token was taken in [BOX], resets the same pair and
    leaves the scanner in [INITIAL]. *)
Lemma box_end_tokens_reset sc t v sc' :
  yy_step sc = SToken t v sc' ->
  (t = YBOX ->
     yy_start sc = INITIAL /\ yy_start sc' = BOX /\
     sesc (yyextra sc') = BACKSLASH /\ sdel (yyextra sc') = DQUOTE /\
     yyerrcnt (yyextra sc') = 0%Z) /\
  (t = YEND ->
     yy_start sc = BOX /\ yy_start sc' = INITIAL /\
     sesc (yyextra sc') = BACKSLASH /\ sdel (yyextra sc') = DQUOTE).
Proof.
  intros H. pose proof (yy_step_rule sc) as Hs. rewrite H in Hs.
  destruct Hs as (r & c & Hr & Ht & Ha).
  apply rule_named_In in Hr.
  destruct (try_rule_some sc r c Ht) as (_ & Hst & _).
  split; intros ->.
  - apply action_returns_YBOX in Ha as [En ->]. rewrite En in Hr.
    vm_compute in Hr. injection Hr as <-.
    apply starts_single in Hst. simpl. auto.
  - apply action_returns_YEND in Ha as [En ->]. rewrite En in Hr.
    vm_compute in Hr. injection Hr as <-.
    apply starts_single in Hst. simpl. auto.
Qed.

(** ** The error counter *)

Lemma count_error_fields d sc :
  yyerrcnt (yyextra (count_error d sc)) = int_wrap (yyerrcnt (yyextra sc) + 1) /\
  sdel (yyextra (count_error d sc)) = sdel (yyextra sc) /\
  sesc (yyextra (count_error d sc)) = sesc (yyextra sc) /\
  yyerrlog (count_error d sc) =
    (if (yyerrcnt (yyextra sc) <? yyerrcnt_limit)%Z
     then yyerrlog sc ++ [d] else yyerrlog sc) /\
  yy_start (count_error d sc) = yy_start sc /\
  yy_input (count_error d sc) = yy_input sc /\
  yy_at_bol (count_error d sc) = yy_at_bol sc /\
  yy_more (count_error d sc) = yy_more sc.
Proof.
  unfold count_error. destruct (_ <? _)%Z; simpl; repeat split.
Qed.

Lemma limited_app l d :
  limited (l ++ [d]) = limited l + (if is_limited d then 1 else 0).
Proof.
  unfold limited. rewrite filter_app, length_app. simpl.
  destruct (is_limited d); reflexivity.
Qed.

Lemma yy_action_counter n yytext sc :
  match yy_action n yytext sc with
  | REJECT => True
  | Return t _ sc' => counter_effect sc (Some t) sc'
  | Continue sc' => counter_effect sc None sc'
  end.
Proof.
  assert (Hsame : forall t sc', t <> Some YBOX ->
            yyextra sc' = yyextra sc -> yyerrlog sc' = yyerrlog sc ->
            counter_effect sc t sc').
  { intros t sc' Ht He Hl. right; right. rewrite He, Hl. auto. }
  assert (Hcount : forall d sc0, is_limited d = true ->
            yyextra sc0 = yyextra sc -> yyerrlog sc0 = yyerrlog sc ->
            counter_effect sc (Some YUNREC) (count_error d sc0)).
  { intros d sc0 Hd He Hl. right; left. exists d.
    destruct (count_error_fields d sc0) as (E1 & _ & _ & E2 & _).
    rewrite E1, E2, He, Hl. auto. }
  destruct n; action_split yytext sc;
    try exact I;
    try (apply Hsame; first [discriminate | reflexivity]);
    try (apply Hcount; reflexivity).
  - right; right. simpl. repeat split. discriminate.
  - right; right. simpl. repeat split; [discriminate|].
    rewrite limited_app. destruct Hd as [->|[->| ->]]; simpl; lia.
  - left. simpl. auto.
  - right; right. simpl. repeat split. discriminate.
Qed.

Lemma yy_step_counter sc t sc' :
  step_outcome (yy_step sc) = Some (t, sc') -> counter_effect sc t sc'.
Proof.
  intros H. pose proof (yy_step_rule sc) as Hs.
  destruct (yy_step sc) as [t0 v sc0|sc0| |]; simpl in H; try discriminate;
    injection H as <- <-;
    destruct Hs as (r & c & _ & _ & Ha);
    pose proof (yy_action_counter (rule_name r) (yy_text c sc)
                  (yy_before_action c sc)) as Hc;
    rewrite Ha in Hc;
    destruct (before_action_fields c sc) as (_ & He & Hl & _);
    unfold counter_effect in *; rewrite He, Hl in Hc; exact Hc.
Qed.

(** C10. The unterminated-string diagnostic and the empty-sample diagnostic
    share the one counter [yyerrcnt]: a step that issues or suppresses
    either of them returns the failure token, adds one to the counter, and
    issues the diagnostic only while the counter is below the bound of the
    two rules; every other step leaves the counter and the number of these
    diagnostics as they were, except the step that returns the [box] token,
    which sets the counter to 0.  The [end] token is among the steps that
    leave the counter alone. *)
Theorem one_shared_error_counter sc t sc' :
  step_outcome (yy_step sc) = Some (t, sc') ->
  let cnt := yyerrcnt (yyextra sc) in
  let cnt' := yyerrcnt (yyextra sc') in
  ((t = Some YBOX /\ cnt' = 0%Z /\ yyerrlog sc' = yyerrlog sc) \/
   (exists d,
      (d = SAMPLE_block_must_not_be_empty \/
       exists yytext, d = Unterminated_String yytext) /\
      t = Some YUNREC /\ cnt' = int_wrap (cnt + 1) /\
      yyerrlog sc' = if (cnt <? yyerrcnt_limit)%Z
                     then yyerrlog sc ++ [d] else yyerrlog sc) \/
   (t <> Some YBOX /\ cnt' = cnt /\
    limited (yyerrlog sc') = limited (yyerrlog sc))) /\
  (t = Some YEND -> cnt' = cnt).
Proof.
  intros H. apply yy_step_counter in H.
  destruct H as [H|[(d & Hd & Ht & Hc & Hl)|H]]; cbv zeta.
  - split; [auto|]. destruct H as (-> & _). discriminate.
  - split.
    + right; left. exists d. repeat split; auto.
      destruct d; try discriminate; eauto.
    + rewrite Ht. discriminate.
  - split; [auto|]. intros _. tauto.
Qed.

Lemma int_wrap_succ z : (0 <= z < INT_MAX)%Z -> int_wrap (z + 1) = (z + 1)%Z.
Proof.
  unfold int_wrap, INT_MAX. intros H.
  rewrite Z.mod_small; lia.
Qed.

(** Between two [box] tokens the counter only grows, by one for each
    counted error, and the limited diagnostics follow it up to the bound. *)
Lemma yy_steps_counter n : forall sc toks sc',
  yy_steps n sc = (toks, sc') ->
  existsb is_YBOX toks = false ->
  (0 <= yyerrcnt (yyextra sc))%Z ->
  (yyerrcnt (yyextra sc) + Z.of_nat n <= INT_MAX)%Z ->
  let cnt := yyerrcnt (yyextra sc) in
  let cnt' := yyerrcnt (yyextra sc') in
  (cnt <= cnt' <= cnt + Z.of_nat n)%Z /\
  (Z.of_nat (limited (yyerrlog sc')) + Z.min cnt yyerrcnt_limit
   = Z.of_nat (limited (yyerrlog sc)) + Z.min cnt' yyerrcnt_limit)%Z /\
  (cnt' - cnt <= Z.of_nat (length (filter is_YUNREC toks)))%Z.
Proof.
  induction n as [|n IH]; intros sc toks sc' H Hbox H0 Hmax; cbv zeta.
  - simpl in H. injection H as <- <-. simpl. lia.
  - cbn [yy_steps] in H.
    destruct (step_outcome (yy_step sc)) as [[t sc1]|] eqn:Es.
    2:{ injection H as <- <-. simpl. lia. }
    destruct (yy_steps n sc1) as [ts sc2] eqn:En. injection H as <- <-.
    apply yy_step_counter in Es.
    assert (Hts : existsb is_YBOX ts = false /\ t <> Some YBOX).
    { destruct t as [t|]; [|split; [assumption|discriminate]].
      simpl in Hbox. apply orb_false_iff in Hbox as [Ht Hts].
      split; [assumption|]. intros [= ->]. discriminate. }
    destruct Hts as [Hts Hnb].
    destruct Es as [(Ht & _)|[(d & Hd & Ht & Hc & Hl)|(_ & Hc & Hl)]].
    + contradiction.
    + rewrite int_wrap_succ in Hc by lia.
      destruct (IH sc1 ts sc2 En Hts) as (I1 & I2 & I3); [lia | lia |].
      rewrite Hc in I1, I2, I3. subst t. cbn [filter is_YUNREC length].
      assert (El : (Z.of_nat (limited (yyerrlog sc1)) + Z.min (yyerrcnt (yyextra sc)) yyerrcnt_limit
                    = Z.of_nat (limited (yyerrlog sc)) + Z.min (yyerrcnt (yyextra sc) + 1) yyerrcnt_limit)%Z).
      { rewrite Hl. unfold yyerrcnt_limit.
        destruct (Z.ltb_spec (yyerrcnt (yyextra sc)) 5).
        - rewrite limited_app, Hd. lia.
        - lia. }
      repeat split; lia.
    + destruct (IH sc1 ts sc2 En Hts) as (I1 & I2 & I3); [lia | lia |].
      rewrite Hc in I1, I2, I3. rewrite Hl in I2.
      assert (length (filter is_YUNREC ts)
              <= length (filter is_YUNREC match t with Some t0 => t0 :: ts | None => ts end)).
      { destruct t as [t|]; [|lia]. simpl. destruct (is_YUNREC t); simpl; lia. }
      repeat split; lia.
Qed.

(** In a run of steps without a [box] token, started with a counter that
    cannot overflow in the run: at most [yyerrcnt_limit] unterminated-string
    and empty-sample diagnostics are added to the log, while each error
    counted gave one failure token.  The bound holds between two [box]
    tokens, not for a session: [box] sets the counter to 0. *)
Lemma diagnostics_bounded_run n sc toks sc' :
  yy_steps n sc = (toks, sc') ->
  existsb is_YBOX toks = false ->
  (0 <= yyerrcnt (yyextra sc))%Z ->
  (yyerrcnt (yyextra sc) + Z.of_nat n <= INT_MAX)%Z ->
  (Z.of_nat (limited (yyerrlog sc'))
   <= Z.of_nat (limited (yyerrlog sc)) + yyerrcnt_limit)%Z /\
  (yyerrcnt (yyextra sc') - yyerrcnt (yyextra sc)
   <= Z.of_nat (length (filter is_YUNREC toks)))%Z.
Proof.
  intros H Hbox H0 Hmax.
  destruct (yy_steps_counter n sc toks sc' H Hbox H0 Hmax) as (I1 & I2 & I3).
  split; [|assumption]. unfold yyerrcnt_limit in *. lia.
Qed.

(** C5 as stated fails: one session, ten diagnostics of the limited kind. *)
Lemma diagnostics_per_session_counterexample :
  let sc' := snd (yy_steps 100 (yy_init two_boxes)) in
  limited (yyerrlog sc') = 10 /\
  length (filter is_YUNREC (fst (yy_steps 100 (yy_init two_boxes)))) = 12 /\
  ~ (Z.of_nat (limited (yyerrlog sc')) <= yyerrcnt_limit)%Z.
Proof.
  vm_compute. repeat split. intros H. apply H. reflexivity.
Qed.

(** ** Character classes and their repetitions *)

Lemma blanks_mem c : ccl_mem false blanks c = is_space c.
Proof. destruct c as [[] [] [] [] [] [] [] []]; reflexivity. Qed.

Lemma non_blanks_mem c : ccl_mem true blanks c = negb (is_space c).
Proof. destruct c as [[] [] [] [] [] [] [] []]; reflexivity. Qed.

Lemma dot_mem c : ccl_mem true (one LF) c = negb (Ascii.eqb c LF).
Proof. destruct c as [[] [] [] [] [] [] [] []]; reflexivity. Qed.

Lemma matches_star_class neg rs w :
  matches (Star (Ccl neg rs)) w <-> Forall (fun c => ccl_mem neg rs c = true) w.
Proof.
  split.
  - intros H. remember (Star (Ccl neg rs)) as q eqn:Eq.
    induction H; try discriminate; [constructor|].
    injection Eq as ->. apply matches_Ccl in H as (c & -> & Hc).
    constructor; auto.
  - induction 1 as [|c w Hc _ IH]; [constructor|].
    change (c :: w) with ([c] ++ w). constructor; [now constructor | assumption].
Qed.

Lemma matches_plus_class neg rs w :
  matches (Plus (Ccl neg rs)) w <->
  w <> [] /\ Forall (fun c => ccl_mem neg rs c = true) w.
Proof.
  unfold Plus. rewrite matches_Cat. split.
  - intros (u & v & -> & Hu & Hv). apply matches_Ccl in Hu as (c & -> & Hc).
    apply matches_star_class in Hv. split; [discriminate|]. now constructor.
  - intros [Hne H]. destruct w as [|c w]; [congruence|].
    inversion H; subst. exists [c], w. repeat split.
    + now constructor.
    + now apply matches_star_class.
Qed.

(** ** The delimiter specification state *)

Lemma yy_run_jam k : forall cands sc,
  yy_run k cands sc = SJam ->
  cands = [] \/ exists c, In c cands /\ yy_do_action c sc = REJECT.
Proof.
  induction k as [|k IH]; intros cands sc; simpl;
    destruct (yy_find_action cands) as [c|] eqn:Ef.
  - apply yy_find_action_In in Ef.
    destruct (yy_do_action c sc) eqn:Ea; try discriminate. eauto.
  - intros _. left. destruct cands; [reflexivity|].
    exfalso. revert Ef. apply yy_find_action_some. discriminate.
  - apply yy_find_action_In in Ef.
    destruct (yy_do_action c sc) eqn:Ea; try discriminate. eauto.
  - intros _. left. destruct cands; [reflexivity|].
    exfalso. revert Ef. apply yy_find_action_some. discriminate.
Qed.

Lemma action_REJECT n yytext sc : yy_action n yytext sc = REJECT -> n = R_STRING.
Proof. destruct n; action_split yytext sc; try discriminate. reflexivity. Qed.

(** The rules that can run in [DELIMSPEC]. *)
Lemma delimspec_rules sc r c :
  yy_start sc = DELIMSPEC -> In r rules -> try_rule sc r = Some c ->
  r = mk R_WHITE [INITIAL; BOX; DELIMSPEC; ELASTIC; SHAPES] (plain (Alt PWHITE PBOM))
  \/ r = mk R_DELIMSPEC [DELIMSPEC] (plain (Plus (Ccl true blanks))).
Proof.
  intros Hs Hr Ht. destruct (try_rule_some sc r c Ht) as (_ & Hst & _).
  rewrite Hs in Hst. unfold rules in Hr.
  repeat (destruct Hr as [<-|Hr]; [first [now left | now right | discriminate Hst]|]).
  destruct Hr.
Qed.

Lemma matches_white w :
  matches (Alt PWHITE PBOM) w -> (exists c, w = [c] /\ is_space c = true) \/ w = BOM.
Proof.
  intros H. apply matches_Alt in H as [H|H].
  - apply matches_Ccl in H as (c & -> & Hc). rewrite blanks_mem in Hc. eauto.
  - right. unfold PBOM, Seq in H.
    apply matches_Cat in H as (u1 & v1 & -> & H1 & H).
    apply matches_Cat in H as (u2 & u3 & -> & H2 & H3).
    apply matches_Ccl in H1 as (c1 & -> & H1).
    apply matches_Ccl in H2 as (c2 & -> & H2).
    apply matches_Ccl in H3 as (c3 & -> & H3).
    assert (E : forall n c, n < 256 -> ccl_mem false [range n n] c = true ->
                            isupper (ascii_of_nat n) = false ->
                            islower (ascii_of_nat n) = false ->
                            c = ascii_of_nat n).
    { clear. intros n c Hn Hc Hu Hl.
      unfold ccl_mem, in_ranges, range in Hc. simpl in Hc.
      rewrite orb_false_r in Hc.
      assert (Hr : forall x, in_range (ascii_of_nat n) (ascii_of_nat n) x = true ->
                             x = ascii_of_nat n).
      { intros x Hx. unfold in_range, code in Hx.
        apply andb_true_iff in Hx as [A B].
        apply N.leb_le in A, B.
        rewrite <- (ascii_N_embedding x), <- (ascii_N_embedding (ascii_of_nat n)).
        f_equal. lia. }
      apply orb_true_iff in Hc as [Hc|Hc]; [apply orb_true_iff in Hc as [Hc|Hc]|].
      - now apply Hr.
      - apply Hr in Hc. unfold tolower in Hc.
        destruct (isupper c) eqn:Ec; [|assumption].
        exfalso. rewrite <- Hc in Hl.
        revert Ec Hl. clear. destruct c as [[] [] [] [] [] [] [] []]; vm_compute; congruence.
      - apply Hr in Hc. unfold toupper in Hc.
        destruct (islower c) eqn:Ec; [|assumption].
        exfalso. rewrite <- Hc in Hu.
        revert Ec Hu. clear. destruct c as [[] [] [] [] [] [] [] []]; vm_compute; congruence. }
    apply E in H1, H2, H3; try reflexivity; try (simpl; lia).
    subst. reflexivity.
Qed.

Lemma try_rule_matches sc r k :
  active sc r = true -> k <= length (yy_input sc) ->
  matches (pat_regex (rule_pat r)) (firstn k (yy_input sc)) ->
  exists c, try_rule sc r = Some c.
Proof.
  intros Ha Hk Hm. unfold try_rule. rewrite Ha.
  destruct (longest_complete (yy_input sc) (pat_regex (rule_pat r)) 0 None k Hk Hm)
    as (m & E & _).
  unfold longest_match. rewrite E. eauto.
Qed.

(** In [DELIMSPEC] a step never gives up. *)
Lemma delimspec_no_jam sc :
  yy_start sc = DELIMSPEC -> yy_step sc <> SJam.
Proof.
  intros Hs Hj. unfold yy_step in Hj.
  destruct (yy_input sc) as [|a i] eqn:Ei; [discriminate|]. cbv zeta in Hj.
  apply yy_run_jam in Hj as [He|(c & Hin & Hrej)].
  - assert (Hc : exists c, In c (candidates sc)).
    { destruct (is_space a) eqn:Ea.
      - destruct (try_rule_matches sc
                    (mk R_WHITE [INITIAL; BOX; DELIMSPEC; ELASTIC; SHAPES]
                        (plain (Alt PWHITE PBOM))) 1) as (c & Hc).
        + unfold active. rewrite Hs. reflexivity.
        + rewrite Ei. simpl. lia.
        + rewrite Ei. simpl. apply MAltL. constructor. now rewrite blanks_mem.
        + exists c. eapply candidates_intro; [|exact Hc].
          unfold rules. left. reflexivity.
      - destruct (try_rule_matches sc
                    (mk R_DELIMSPEC [DELIMSPEC] (plain (Plus (Ccl true blanks)))) 1)
          as (c & Hc).
        + unfold active. rewrite Hs. reflexivity.
        + rewrite Ei. simpl. lia.
        + rewrite Ei. simpl. apply matches_plus_class. split; [discriminate|].
          repeat constructor. now rewrite non_blanks_mem, Ea.
        + exists c. eapply candidates_intro; [|exact Hc].
          unfold rules. right. left. reflexivity. }
    destruct Hc as (c & Hc). rewrite He in Hc. destruct Hc.
  - apply candidates_In in Hin as (r & Hr & Ht).
    unfold yy_do_action in Hrej. apply action_REJECT in Hrej.
    destruct (try_rule_some sc r c Ht) as (Hn & _). rewrite Hn in Hrej.
    destruct (delimspec_rules sc r c Hs Hr Ht) as [->| ->]; discriminate Hrej.
Qed.

(** C7. In [DELIMSPEC], with input left, a step either skips one white
    space character or a byte order mark and stays in [DELIMSPEC], or it
    takes the whole run of characters other than white space as a delimiter
    specification, hands it to [change_string_delimiters] and leaves the
    scanner in [BOX], valid or not: a valid specification gives the
    [YDELIMSPEC] token and sets the two characters, an invalid one gives the
    [YUNREC] token and leaves them.  The scanner never gives up there. *)
Theorem delimspec_token_whatever_validity sc :
  yy_start sc = DELIMSPEC -> yy_input sc <> [] ->
  match yy_step sc with
  | SSkip sc' =>
      yy_start sc' = DELIMSPEC /\ yyextra sc' = yyextra sc /\
      exists w, yy_input sc = w ++ yy_input sc' /\
                (w = BOM \/ exists c, w = [c] /\ is_space c = true)
  | SToken t v sc' =>
      exists n, 0 < n /\
        let w := firstn n (yy_input sc) in
        let str := strdup (yy_more sc ++ w) in
        Forall (fun c => is_space c = false) w /\
        yy_input sc' = skipn n (yy_input sc) /\
        (forall c rest, yy_input sc' = c :: rest -> is_space c = true) /\
        yy_start sc' = BOX /\
        ((valid_delimiters str /\ t = YDELIMSPEC /\
          sesc (yyextra sc') = nth 0 str NUL /\
          sdel (yyextra sc') = nth 1 str NUL) \/
         (~ valid_delimiters str /\ t = YUNREC /\ yyextra sc' = yyextra sc))
  | SEof | SJam => False
  end.
Proof.
  intros Hs Hi. pose proof (yy_step_rule sc) as H.
  pose proof (delimspec_no_jam sc Hs) as Hj.
  destruct (yy_step sc) as [t v sc'|sc'| |]; [| |contradiction|congruence].
  - destruct H as (r & c & Hr & Ht & Ha).
    destruct (try_rule_some sc r c Ht) as (_ & _ & _ & Hl & Hlen).
    destruct (before_action_fields c sc) as (Bs & Be & Bl & Bi & Bm).
    destruct (delimspec_rules sc r c Hs Hr Ht) as [->| ->];
      cbn [rule_name rule_pat mk plain pat_eol pat_regex pat_re] in *.
    { simpl in Ha. discriminate. }
    rewrite Hlen in *.
    destruct (longest_match_sound _ _ _ Hl) as [Hk Hm].
    apply matches_plus_class in Hm as [Hne Hall].
    exists (cand_total c). split.
    { destruct (cand_total c); [|lia]. simpl in Hne. congruence. }
    cbv zeta.
    assert (Hnb : Forall (fun c0 => is_space c0 = false)
                    (firstn (cand_total c) (yy_input sc))).
    { eapply Forall_impl; [|exact Hall]. intros a Hmem. cbv beta in Hmem.
      rewrite non_blanks_mem in Hmem. now destruct (is_space a). }
    assert (Hmax : forall a rest,
               skipn (cand_total c) (yy_input sc) = a :: rest -> is_space a = true).
    { intros a rest E. destruct (is_space a) eqn:Ea; [reflexivity|]. exfalso.
      assert (Hf : firstn (S (cand_total c)) (yy_input sc)
                   = firstn (cand_total c) (yy_input sc) ++ [a]).
      { rewrite <- (firstn_skipn (cand_total c) (yy_input sc)) at 1.
        rewrite E.
        rewrite firstn_app, firstn_firstn.
        replace (Nat.min (S (cand_total c)) (cand_total c)) with (cand_total c) by lia.
        rewrite length_firstn.
        replace (S (cand_total c) - Nat.min (cand_total c) (length (yy_input sc)))
          with 1 by lia.
        reflexivity. }
      assert (Hlen' : S (cand_total c) <= length (yy_input sc)).
      { rewrite <- (firstn_skipn (cand_total c) (yy_input sc)), E.
        rewrite length_app, length_firstn. simpl. lia. }
      pose proof (longest_match_max _ _ _ (S (cand_total c)) Hl Hlen') as Hle.
      enough (S (cand_total c) <= cand_total c) by lia. apply Hle.
      rewrite Hf. apply matches_plus_class. split.
      - destruct (firstn _ _); discriminate.
      - apply Forall_app. split; [assumption|].
        repeat constructor. now rewrite non_blanks_mem, Ea. }
    unfold yy_text in Ha. rewrite Hlen in Ha.
    destruct (delimspec_action_cases
                (yy_more sc ++ firstn (cand_total c) (yy_input sc))
                (yy_before_action c sc)) as [(Hv & E)|(Hv & d & E & _)];
      cbv zeta in E; rewrite E in Ha; injection Ha as <- <- <-;
      simpl; rewrite ?Bi, ?Be; repeat split; auto.
  - destruct H as (r & c & Hr & Ht & Ha).
    destruct (try_rule_some sc r c Ht) as (_ & _ & _ & Hl & Hlen).
    destruct (before_action_fields c sc) as (Bs & Be & Bl & Bi & Bm).
    destruct (delimspec_rules sc r c Hs Hr Ht) as [->| ->];
      cbn [rule_name rule_pat mk plain pat_eol pat_regex pat_re] in *.
    2:{ exfalso. revert Ha.
        destruct (delimspec_action_cases (yy_text c sc) (yy_before_action c sc))
          as [(_ & ->)|(_ & d & -> & _)]; discriminate. }
    simpl in Ha. injection Ha as <-. rewrite Bs, Be, Bi, Hlen.
    repeat split; auto.
    destruct (longest_match_sound _ _ _ Hl) as [Hk Hm].
    exists (firstn (cand_total c) (yy_input sc)). split.
    + symmetry. apply firstn_skipn.
    + apply matches_white in Hm. tauto.
Qed.

(** ** Strings *)

Lemma unescape_suffix esc del : forall s txt rest,
  unescape esc del s = Some (txt, rest) ->
  exists pre, s = pre ++ rest /\ pre <> [].
Proof.
  intros s. remember (length s) as n eqn:En. revert s En.
  induction n as [n IH] using lt_wf_ind. intros s En txt rest H.
  destruct s as [|c s]; [discriminate|]. simpl in H.
  destruct (Ascii.eqb c esc).
  - destruct s as [|c' s]; [discriminate|].
    destruct (unescape esc del s) as [[t r]|] eqn:E; [|discriminate].
    injection H as <- <-.
    destruct (IH (length s)) with (s := s) (txt := t) (rest := r)
      as (pre & -> & _); auto.
    { subst n. simpl. lia. }
    exists (c :: c' :: pre). split; [reflexivity | discriminate].
  - destruct (Ascii.eqb c del).
    + injection H as <- <-. exists [c]. split; [reflexivity | discriminate].
    + destruct (unescape esc del s) as [[t r]|] eqn:E; [|discriminate].
      injection H as <- <-.
      destruct (IH (length s)) with (s := s) (txt := t) (rest := r)
        as (pre & -> & _); auto.
      { subst n. simpl. lia. }
      exists (c :: pre). split; [reflexivity | discriminate].
Qed.

Lemma unescape_rest_length esc del s txt rest :
  unescape esc del s = Some (txt, rest) -> length rest < length s.
Proof.
  intros H. apply unescape_suffix in H as (pre & -> & Hne).
  rewrite length_app. destruct pre; [congruence | simpl; lia].
Qed.

Lemma nth_after (acc rest : list ascii) :
  nth (length acc) (acc ++ rest) NUL = hd NUL rest.
Proof.
  rewrite app_nth2 by lia. rewrite Nat.sub_diag. now destruct rest.
Qed.

Lemma no_nul_cons c s : no_nul (c :: s) -> c <> NUL /\ no_nul s.
Proof.
  unfold no_nul. intros H. split.
  - intros ->. apply H. now left.
  - intros Hin. apply H. now right.
Qed.

Lemma no_nul_app a b : no_nul a -> no_nul b -> no_nul (a ++ b).
Proof.
  unfold no_nul. intros Ha Hb Hin. apply in_app_or in Hin. tauto.
Qed.

Lemma strdup_poke acc tail : no_nul acc -> strdup (acc ++ NUL :: tail) = acc.
Proof.
  intros H. induction acc as [|c acc IH]; simpl; [reflexivity|].
  apply no_nul_cons in H as [Hc Hn].
  destruct (Ascii.eqb_spec c NUL); [contradiction|]. f_equal. now apply IH.
Qed.

Lemma firstn_length_app {A} (a b : list A) : firstn (length a) (a ++ b) = a.
Proof. induction a; simpl; [now destruct b | now f_equal]. Qed.

Lemma skipn_length_app {A} (a b : list A) : skipn (length a) (a ++ b) = b.
Proof. induction a; simpl; auto. Qed.

Lemma skipn_plus_app {A} (a b : list A) n :
  skipn (length a + n) (a ++ b) = skipn n b.
Proof. induction a; simpl; auto. Qed.

Lemma skipn_S_length_app {A} (a b : list A) c :
  skipn (S (length a)) (a ++ c :: b) = b.
Proof. induction a; simpl; auto. Qed.

Lemma poke_after acc c tail x :
  poke (acc ++ c :: tail) (length acc) x = acc ++ x :: tail.
Proof.
  unfold poke. now rewrite firstn_length_app, skipn_S_length_app.
Qed.

Lemma memmove_left_after acc c s junk :
  memmove_left (acc ++ c :: s ++ NUL :: junk) (length acc) (S (length s))
  = acc ++ s ++ NUL :: skipn (S (length s)) (c :: s ++ NUL :: junk).
Proof.
  unfold memmove_left.
  rewrite firstn_length_app, skipn_S_length_app, skipn_plus_app. f_equal.
  replace (s ++ NUL :: junk) with ((s ++ [NUL]) ++ junk) at 1
    by (now rewrite <- app_assoc).
  replace (S (length s)) with (length (s ++ [NUL])) at 1
    by (rewrite length_app; simpl; lia).
  rewrite firstn_length_app, <- app_assoc. reflexivity.
Qed.

(** The loop of the string rule computes [unescape]; the [yyless] argument
    counts the opening delimiter and what [unescape] consumed. *)
Lemma string_loop_spec esc del : forall fuel rest acc junk qcnt,
  length rest < fuel -> no_nul acc -> no_nul rest ->
  string_loop fuel esc del (acc ++ rest ++ NUL :: junk) (length acc)
    (Z.of_nat (length rest)) qcnt
  = Some (match unescape esc del rest with
          | Some (txt, tail) =>
              Terminated (acc ++ txt)
                (Z.of_nat (length acc) + qcnt
                 + Z.of_nat (length rest - length tail) + 1)
          | None => Unterminated
          end).
Proof.
  induction fuel as [|fuel IH]; intros rest acc junk qcnt Hf Ha Hr; [lia|].
  cbn [string_loop]. rewrite nth_after.
  destruct rest as [|c s].
  { simpl. reflexivity. }
  apply no_nul_cons in Hr as [Hc Hs].
  cbn [hd app]. rewrite (proj2 (Ascii.eqb_neq c NUL) Hc).
  cbn [unescape]. destruct (Ascii.eqb c esc) eqn:Ee.
  - rewrite Nat2Z.id. cbn [length]. rewrite memmove_left_after, nth_after.
    destruct s as [|c' s'].
    { simpl. reflexivity. }
    apply no_nul_cons in Hs as [Hc' Hs'].
    cbn [hd app]. rewrite (proj2 (Ascii.eqb_neq c' NUL) Hc').
    set (junk' := skipn _ _).
    replace (acc ++ c' :: s' ++ NUL :: junk')
      with ((acc ++ [c']) ++ s' ++ NUL :: junk')
      by (now rewrite <- app_assoc).
    replace (S (length acc)) with (length (acc ++ [c']))
      by (rewrite length_app; simpl; lia).
    match goal with
    | |- string_loop _ _ _ _ _ ?z _ = _ =>
        replace z with (Z.of_nat (length s')) by (cbn [length]; lia)
    end.
    rewrite IH.
    + destruct (unescape esc del s') as [[txt tail]|] eqn:Eu; [|reflexivity].
      apply unescape_rest_length in Eu.
      rewrite <- app_assoc. cbn [app]. do 2 f_equal.
      rewrite length_app. cbn [length]. lia.
    + simpl in Hf. lia.
    + apply no_nul_app; [assumption|]. intros [E|[]]. congruence.
    + assumption.
  - destruct (Ascii.eqb c del) eqn:Ed.
    + rewrite poke_after, strdup_poke by assumption.
      rewrite app_nil_r. do 2 f_equal. cbn [length]. lia.
    + replace (acc ++ c :: s ++ NUL :: junk)
        with ((acc ++ [c]) ++ s ++ NUL :: junk)
        by (now rewrite <- app_assoc).
      replace (S (length acc)) with (length (acc ++ [c]))
        by (rewrite length_app; simpl; lia).
      match goal with
      | |- string_loop _ _ _ _ _ ?z _ = _ =>
          replace z with (Z.of_nat (length s)) by (cbn [length]; lia)
      end.
      rewrite IH.
      * destruct (unescape esc del s) as [[txt tail]|] eqn:Eu; [|reflexivity].
        apply unescape_rest_length in Eu.
        rewrite <- app_assoc. cbn [app]. do 2 f_equal.
        rewrite length_app. cbn [length]. lia.
      * simpl in Hf. lia.
      * apply no_nul_app; [assumption|]. intros [E|[]]. congruence.
      * assumption.
Qed.

Lemma scan_string_spec esc del d body :
  no_nul body ->
  scan_string esc del (d :: body)
  = Some (match unescape esc del body with
          | Some (txt, tail) =>
              Terminated txt (Z.of_nat (S (length body - length tail)))
          | None => Unterminated
          end).
Proof.
  intros Hb. unfold scan_string. cbn [tl length].
  rewrite (strdup_no_nul body Hb).
  replace (Z.of_nat (S (length body)) - 1)%Z with (Z.of_nat (length body)) by lia.
  pose proof (string_loop_spec esc del (S (S (length body))) body [] [] 0%Z) as H.
  cbn [app length] in H. rewrite H.
  - destruct (unescape esc del body) as [[txt tail]|]; [|reflexivity].
    do 2 f_equal. lia.
  - lia.
  - intros [].
  - assumption.
Qed.

(** What the action of the string rule does with a line that opens with the
    registered delimiter. *)
Lemma string_action_spec d body sc :
  sdel (yyextra sc) = d -> no_nul body ->
  string_action (d :: body) sc =
  match unescape (sesc (yyextra sc)) d body with
  | Some (txt, tail) =>
      Return STRING (Some (val_s txt)) (set_input (tail ++ yy_input sc) sc)
  | None =>
      Return YUNREC None (count_error (Unterminated_String (d :: body)) sc)
  end.
Proof.
  intros Hd Hb. unfold string_action. cbn [nth]. rewrite Hd, Ascii.eqb_refl.
  cbn [negb]. rewrite scan_string_spec by assumption.
  destruct (unescape _ d body) as [[txt tail]|] eqn:Eu; [|reflexivity].
  rewrite Nat2Z.id. unfold yyless. cbn [skipn].
  apply unescape_suffix in Eu as (pre & -> & _).
  rewrite length_app.
  replace (length pre + length tail - length tail) with (length pre) by lia.
  now rewrite skipn_length_app.
Qed.

(** ** Which rules can match, by the first character *)

Lemma rules_not_nullable : forallb not_nullable rules = true.
Proof. vm_compute. reflexivity. Qed.

Lemma candidates_of_live sc c tail : forall rs,
  yy_input sc = c :: tail -> forallb not_nullable rs = true ->
  candidates_of sc rs
  = candidates_of sc (filter (first_live (yy_start sc) (yy_at_bol sc) c) rs).
Proof.
  intros rs Hi. induction rs as [|r rs IH]; intros Hn; [reflexivity|].
  cbn [forallb] in Hn. apply andb_true_iff in Hn as [Hr Hn].
  cbn [filter candidates_of].
  destruct (first_live (yy_start sc) (yy_at_bol sc) c r) eqn:El.
  - cbn [candidates_of]. rewrite (IH Hn). reflexivity.
  - rewrite (IH Hn).
    assert (Ht : try_rule sc r = None).
    { unfold try_rule, active. unfold first_live in El.
      destruct (existsb _ _ && implb _ _); [|reflexivity].
      cbn [andb] in El. apply negb_false_iff in El.
      unfold longest_match. rewrite Hi. cbn [longest].
      rewrite El. unfold not_nullable in Hr. apply negb_true_iff in Hr.
      rewrite Hr. reflexivity. }
    rewrite Ht. reflexivity.
Qed.

Lemma candidates_live sc c tail :
  yy_input sc = c :: tail ->
  candidates sc
  = candidates_of sc (filter (first_live (yy_start sc) (yy_at_bol sc) c) rules).
Proof.
  intros Hi. unfold candidates.
  apply (candidates_of_live sc c tail rules Hi rules_not_nullable).
Qed.

Lemma yy_step_run sc a i :
  yy_input sc = a :: i ->
  yy_step sc = yy_run (length (candidates sc)) (candidates sc) sc.
Proof. unfold yy_step. intros ->. reflexivity. Qed.

Lemma longest_Eps s n best : longest Eps s n best = Some n.
Proof. destruct s; reflexivity. Qed.

Lemma chr_LF_mem c : ccl_mem false (one LF) c = Ascii.eqb c LF.
Proof. destruct c as [[] [] [] [] [] [] [] []]; reflexivity. Qed.

Lemma deriv_rest_of_line c :
  deriv c rest_of_line = if Ascii.eqb c LF then Eps else rest_of_line.
Proof.
  unfold rest_of_line, Dot, Chr. cbn [deriv nullable].
  rewrite dot_mem, chr_LF_mem. destruct (Ascii.eqb c LF); reflexivity.
Qed.

Lemma rest_of_line_match body rest : forall n best,
  ~ In LF body ->
  longest rest_of_line (body ++ LF :: rest) n best = Some (n + length body + 1).
Proof.
  induction body as [|c body IH]; intros n best Hb; cbn [app longest].
  - rewrite deriv_rest_of_line, Ascii.eqb_refl. cbn [is_void].
    rewrite longest_Eps. f_equal. simpl. lia.
  - rewrite deriv_rest_of_line.
    destruct (Ascii.eqb_spec c LF) as [->|Hc]; [exfalso; apply Hb; now left|].
    cbn [is_void rest_of_line]. fold rest_of_line. rewrite IH.
    + f_equal. simpl. lia.
    + intros Hin. apply Hb. now right.
Qed.

Lemma string_rule_match d body rest :
  In d LEX_SDELIM -> ~ In LF body ->
  longest_match (pat_regex (rule_pat string_rule)) (d :: body ++ LF :: rest)
  = Some (S (S (length body))).
Proof.
  intros Hd Hb. unfold longest_match. cbn [longest].
  assert (E : deriv d (pat_regex (rule_pat string_rule)) = rest_of_line).
  { unfold LEX_SDELIM in Hd. cbn [chars list_ascii_of_string In] in Hd.
    repeat (destruct Hd as [<-|Hd]; [vm_compute; reflexivity|]). destruct Hd. }
  rewrite E. cbn [is_void rest_of_line]. fold rest_of_line.
  rewrite rest_of_line_match by assumption. f_equal. lia.
Qed.

Lemma sdelim_not_LF d : In d LEX_SDELIM -> d <> LF /\ d <> NUL.
Proof.
  unfold LEX_SDELIM. cbn [chars list_ascii_of_string In]. intros Hd.
  repeat (destruct Hd as [<-|Hd]; [split; discriminate|]). destruct Hd.
Qed.

Lemma dot_match d tail :
  d <> LF -> longest_match Dot (d :: tail) = Some 1.
Proof.
  intros Hd. unfold longest_match, Dot. cbn [longest deriv nullable].
  rewrite dot_mem, (proj2 (Ascii.eqb_neq d LF) Hd). cbn [negb is_void].
  apply longest_Eps.
Qed.

Lemma string_live st bol d :
  st = BOX \/ st = SHAPES -> In d LEX_SDELIM ->
  filter (first_live st bol d) rules = [string_rule; unrec_rule].
Proof.
  unfold LEX_SDELIM. cbn [chars list_ascii_of_string In]. intros Hs Hd.
  destruct Hs as [-> | ->];
    repeat (destruct Hd as [<-|Hd]; [vm_compute; reflexivity|]); destruct Hd.
Qed.

Lemma last_not_LF (s : list ascii) d :
  d <> LF -> ~ In LF s -> Ascii.eqb (last (d :: s) NUL) LF = false.
Proof.
  revert d. induction s as [|c s IH]; intros d Hd Hs.
  - simpl. now apply Ascii.eqb_neq.
  - change (last (d :: c :: s) NUL) with (last (c :: s) NUL). apply IH.
    + intros ->. apply Hs. now left.
    + intros Hin. apply Hs. now right.
Qed.

Lemma yy_run_best k cands sc c :
  yy_find_action cands = Some c ->
  yy_do_action c sc <> REJECT ->
  yy_run k cands sc =
  match yy_do_action c sc with
  | Return t v sc' => SToken t v sc'
  | Continue sc' => SSkip sc'
  | REJECT => SJam
  end.
Proof.
  intros Hf Hr. destruct k; cbn [yy_run]; rewrite Hf;
    destruct (yy_do_action c sc); try reflexivity; congruence.
Qed.

(** A line that opens with a character of [LEX_SDELIM], in [BOX] or
    [SHAPES]: the string rule is the longest match, and its action runs on
    the text up to the end of the line. *)
Lemma yy_step_string sc d body rest :
  yy_start sc = BOX \/ yy_start sc = SHAPES ->
  yy_more sc = [] ->
  sdel (yyextra sc) = d -> In d LEX_SDELIM ->
  no_nul body -> ~ In LF body ->
  yy_input sc = d :: body ++ LF :: rest ->
  yy_step sc =
  match unescape (sesc (yyextra sc)) d body with
  | Some (txt, tail) =>
      SToken STRING (Some (val_s txt))
        (set_input (tail ++ LF :: rest) (after_line rest sc))
  | None =>
      SToken YUNREC None
        (count_error (Unterminated_String (d :: body)) (after_line rest sc))
  end.
Proof.
  intros Hs Hm Hd Hin Hn Hlf Hi.
  rewrite (yy_step_run sc _ _ Hi), (candidates_live sc _ _ Hi).
  rewrite (string_live (yy_start sc) (yy_at_bol sc) d Hs Hin).
  assert (Ha1 : active sc string_rule = true).
  { unfold active. destruct Hs as [-> | ->]; reflexivity. }
  assert (Ha2 : active sc unrec_rule = true).
  { unfold active. destruct Hs as [-> | ->]; reflexivity. }
  destruct (sdelim_not_LF d Hin) as [HdLF _].
  cbn [candidates_of]. unfold try_rule. rewrite Ha1, Ha2, Hi.
  rewrite (string_rule_match d body rest Hin Hlf).
  cbn [unrec_rule rule_pat mk plain pat_regex pat_eol pat_re].
  rewrite (dot_match d (body ++ LF :: rest) HdLF).
  cbn [string_rule unrec_rule rule_pat rule_name mk to_eol pat_eol Nat.sub length].
  set (c1 := {| cand_rule := R_STRING; cand_total := S (S (length body));
                cand_len := S (length body) |}).
  set (c2 := {| cand_rule := R_UNREC; cand_total := 1; cand_len := 1 |}).
  assert (Hact : yy_do_action c1 sc =
            string_action (d :: body) (after_line rest sc)).
  { unfold yy_do_action, yy_before_action, yy_text. cbn [c1 cand_rule cand_len].
    rewrite Hi, Hm.
    change (d :: body ++ LF :: rest) with ((d :: body) ++ LF :: rest).
    replace (S (length body)) with (length (d :: body)) by reflexivity.
    rewrite firstn_length_app, skipn_length_app.
    cbn [app length Nat.ltb Nat.leb].
    rewrite (last_not_LF body d HdLF Hlf). reflexivity. }
  rewrite (yy_run_best 2 [c1; c2] sc c1); [| reflexivity |];
    rewrite Hact, (string_action_spec d body (after_line rest sc)) by assumption;
    change (sesc (yyextra (after_line rest sc))) with (sesc (yyextra sc));
    destruct (unescape (sesc (yyextra sc)) d body) as [[txt tail]|];
    try reflexivity; discriminate.
Qed.

Lemma last_snoc (s : list ascii) c : last (s ++ [c]) NUL = c.
Proof. apply last_last. Qed.

Lemma newline_live st bol :
  st = BOX \/ st = SHAPES -> filter (first_live st bol LF) rules = [white_rule].
Proof. intros [-> | ->]; vm_compute; reflexivity. Qed.

(** A newline in [BOX] or [SHAPES] is skipped; the next match starts at the
    beginning of the next line. *)
Lemma yy_step_newline sc rest :
  yy_start sc = BOX \/ yy_start sc = SHAPES ->
  yy_input sc = LF :: rest ->
  yy_step sc = SSkip (set_at_bol true (set_more [] (set_input rest sc))).
Proof.
  intros Hs Hi.
  rewrite (yy_step_run sc _ _ Hi), (candidates_live sc _ _ Hi).
  rewrite (newline_live (yy_start sc) (yy_at_bol sc) Hs).
  assert (Ha : active sc white_rule = true).
  { unfold active. destruct Hs as [-> | ->]; reflexivity. }
  cbn [candidates_of]. unfold try_rule. rewrite Ha, Hi.
  assert (El : longest_match (pat_regex (rule_pat white_rule)) (LF :: rest) = Some 1).
  { unfold longest_match. cbn [longest].
    change (deriv LF (pat_regex (rule_pat white_rule))) with Eps.
    cbn [is_void]. apply longest_Eps. }
  rewrite El. cbn [white_rule rule_pat rule_name mk plain pat_eol length].
  set (c1 := {| cand_rule := R_WHITE; cand_total := 1; cand_len := 1 |}).
  assert (Hact : yy_do_action c1 sc
                 = Continue (set_at_bol true (set_more [] (set_input rest sc)))).
  { unfold yy_do_action, yy_before_action, yy_text. cbn [c1 cand_rule cand_len].
    rewrite Hi. cbn [firstn skipn yy_action].
    rewrite length_app, last_snoc, Ascii.eqb_refl. cbn [length].
    replace (0 <? length (yy_more sc) + 1) with true; [reflexivity|].
    symmetry. apply Nat.ltb_lt. lia. }
  rewrite (yy_run_best 1 [c1] sc c1); [| reflexivity |]; rewrite Hact;
    [reflexivity | discriminate].
Qed.

Lemma dangling_escape_unterminated esc del : forall s,
  unescape esc del s = None -> unescape esc del (s ++ [esc]) = None.
Proof.
  intros s. remember (length s) as n eqn:En. revert s En.
  induction n as [n IH] using lt_wf_ind. intros s En H.
  destruct s as [|c s].
  { simpl. now rewrite Ascii.eqb_refl. }
  cbn [app unescape] in *. destruct (Ascii.eqb c esc).
  - destruct s as [|c' s]; cbn [app].
    { cbn [unescape]. reflexivity. }
    destruct (unescape esc del s) as [[t r]|] eqn:E; [discriminate|].
    rewrite (IH (length s)); auto. subst n. simpl. lia.
  - destruct (Ascii.eqb c del); [discriminate|].
    destruct (unescape esc del s) as [[t r]|] eqn:E; [discriminate|].
    rewrite (IH (length s)); auto. subst n. simpl. lia.
Qed.

(** With no escape character and no delimiter in it, a text is decoded to
    itself. *)
Lemma unescape_plain esc del : forall s tail,
  ~ In esc s -> ~ In del s -> esc <> del ->
  unescape esc del (s ++ del :: tail) = Some (s, tail).
Proof.
  induction s as [|c s IH]; intros tail He Hd Hne; cbn [app unescape].
  - rewrite (proj2 (Ascii.eqb_neq del esc)) by congruence.
    now rewrite Ascii.eqb_refl.
  - rewrite (proj2 (Ascii.eqb_neq c esc)), (proj2 (Ascii.eqb_neq c del)).
    + rewrite IH; auto; intros Hin; [apply He | apply Hd]; now right.
    + intros ->. apply Hd. now left.
    + intros ->. apply He. now left.
Qed.

(** C2. In [BOX] or [SHAPES], on a line that opens with the registered
    delimiter [d]: when [unescape] finds the closing delimiter, the step
    returns the [STRING] token whose text is what [unescape] gives, every
    escape character dropped and the character after it kept, up to the
    first delimiter that is not escaped, and the input goes on just after
    that delimiter.  In particular a text without escape character and
    delimiter, such as abc, comes out as it is, and with the default pair
    the example of the specification decodes to a, double quote, b,
    backslash, c. *)
Theorem string_payload_unescaped :
  (forall sc d body rest txt tail,
     yy_start sc = BOX \/ yy_start sc = SHAPES ->
     yy_more sc = [] ->
     sdel (yyextra sc) = d -> In d LEX_SDELIM ->
     no_nul body -> ~ In LF body ->
     yy_input sc = d :: body ++ LF :: rest ->
     unescape (sesc (yyextra sc)) d body = Some (txt, tail) ->
     yy_step sc = SToken STRING (Some (val_s txt))
                    (set_input (tail ++ LF :: rest) (after_line rest sc))) /\
  (forall sc d s tail rest,
     yy_start sc = BOX \/ yy_start sc = SHAPES ->
     yy_more sc = [] ->
     sdel (yyextra sc) = d -> In d LEX_SDELIM ->
     no_nul (s ++ d :: tail) -> ~ In LF (s ++ d :: tail) ->
     ~ In (sesc (yyextra sc)) s -> ~ In d s -> sesc (yyextra sc) <> d ->
     yy_input sc = d :: (s ++ d :: tail) ++ LF :: rest ->
     yy_step sc = SToken STRING (Some (val_s s))
                    (set_input (tail ++ LF :: rest) (after_line rest sc))) /\
  fst (tokens 3 (yy_init (chars "box b " ++ escaped_example ++ [LF])))
  = [(YBOX, None); (ASCII_ID, Some (val_ascii (chars "b")));
     (STRING, Some (val_s escaped_example_text))].
Proof.
  split; [|split].
  - intros sc d body rest txt tail Hs Hm Hd Hin Hn Hlf Hi Hu.
    rewrite (yy_step_string sc d body rest Hs Hm Hd Hin Hn Hlf Hi), Hu.
    reflexivity.
  - intros sc d s tail rest Hs Hm Hd Hin Hn Hlf He Hds Hne Hi.
    rewrite (yy_step_string sc d (s ++ d :: tail) rest Hs Hm Hd Hin Hn Hlf Hi).
    rewrite unescape_plain by assumption. reflexivity.
  - vm_compute. reflexivity.
Qed.

(** In [BOX] or [SHAPES], on a line that ends in a newline, opens with the
    registered delimiter and on which [unescape] finds no closing delimiter
    (so also when the line ends on an escape character, see
    [dangling_escape_unterminated]): the step returns the one [YUNREC]
    token for the whole line, counts the error, issues the diagnostic when
    the counter was below the bound, and leaves the input at the newline;
    the step after it skips the newline, and scanning goes on at the
    beginning of the next line. *)
Lemma unterminated_string_one_failure sc d body rest :
  yy_start sc = BOX \/ yy_start sc = SHAPES ->
  yy_more sc = [] ->
  sdel (yyextra sc) = d -> In d LEX_SDELIM ->
  no_nul body -> ~ In LF body ->
  yy_input sc = d :: body ++ LF :: rest ->
  unescape (sesc (yyextra sc)) d body = None ->
  exists sc',
    yy_step sc = SToken YUNREC None sc' /\
    yy_input sc' = LF :: rest /\
    yy_start sc' = yy_start sc /\
    sdel (yyextra sc') = d /\ sesc (yyextra sc') = sesc (yyextra sc) /\
    yyerrcnt (yyextra sc') = int_wrap (yyerrcnt (yyextra sc) + 1) /\
    yyerrlog sc' =
      (if (yyerrcnt (yyextra sc) <? yyerrcnt_limit)%Z
       then yyerrlog sc ++ [Unterminated_String (d :: body)]
       else yyerrlog sc) /\
    exists sc'',
      yy_step sc' = SSkip sc'' /\
      yy_input sc'' = rest /\ yy_at_bol sc'' = true /\
      yy_start sc'' = yy_start sc /\ yyextra sc'' = yyextra sc' /\
      yyerrlog sc'' = yyerrlog sc'.
Proof.
  intros Hs Hm Hd Hin Hn Hlf Hi Hu.
  rewrite (yy_step_string sc d body rest Hs Hm Hd Hin Hn Hlf Hi), Hu.
  set (sc' := count_error _ _). exists sc'.
  destruct (count_error_fields (Unterminated_String (d :: body))
              (after_line rest sc)) as (E1 & E2 & E3 & E4 & E5 & E6 & _).
  fold sc' in E1, E2, E3, E4, E5, E6.
  split; [reflexivity|]. split; [exact E6|]. split; [exact E5|].
  split; [rewrite E2; exact Hd|]. split; [exact E3|]. split; [exact E1|].
  split; [exact E4|].
  assert (Hs' : yy_start sc' = BOX \/ yy_start sc' = SHAPES).
  { rewrite E5. exact Hs. }
  rewrite (yy_step_newline sc' rest Hs' E6).
  eexists. split; [reflexivity|]. cbn. rewrite E5. auto.
Qed.

(** C4 on the code.  An unterminated string on the last line of a file,
    which no newline ends, is not seen by the string rule, whose [$]
    stands for a newline: the delimiter alone is returned as [YUNREC] by
    the rule of the unmatched character, nothing is counted and no
    diagnostic is issued, and the scan goes on inside the line, where the
    text of the string gives tokens of its own; with an escape character
    at the end of the line there are two [YUNREC] tokens.  The same line
    ended by a newline gives the one [YUNREC], one count and the
    diagnostic. *)
Theorem unterminated_string_on_last_line :
  (fst (yy_steps 10 (in_box 0 unterminated_last_line)) = [YUNREC; ASCII_ID] /\
   yy_input (snd (yy_steps 1 (in_box 0 unterminated_last_line))) = chars "abc" /\
   yyerrlog (snd (yy_steps 10 (in_box 0 unterminated_last_line))) = [] /\
   yyerrcnt (yyextra (snd (yy_steps 10 (in_box 0 unterminated_last_line)))) = 0%Z) /\
  (fst (yy_steps 10 (in_box 0 dangling_last_line)) = [YUNREC; ASCII_ID; YUNREC] /\
   yyerrlog (snd (yy_steps 10 (in_box 0 dangling_last_line))) = [] /\
   yyerrcnt (yyextra (snd (yy_steps 10 (in_box 0 dangling_last_line)))) = 0%Z) /\
  (fst (yy_steps 10 (in_box 0 (unterminated_last_line ++ [LF]))) = [YUNREC] /\
   yyerrlog (snd (yy_steps 10 (in_box 0 (unterminated_last_line ++ [LF]))))
   = [Unterminated_String unterminated_last_line] /\
   yyerrcnt (yyextra (snd (yy_steps 10 (in_box 0 (unterminated_last_line ++ [LF])))))
   = 1%Z).
Proof. vm_compute. repeat split. Qed.

(** ** Sample blocks *)

Lemma rtrim_len_le s : forall n, rtrim_len s n <= n.
Proof.
  induction n as [|n IH]; simpl; [lia|].
  destruct (is_space (nth n s NUL)); lia.
Qed.

Lemma rtrim_len_app a b : forall n, n <= length a ->
  rtrim_len (a ++ b) n = rtrim_len a n.
Proof.
  induction n as [|n IH]; intros Hn; simpl; [reflexivity|].
  rewrite app_nth1 by lia. rewrite IH by lia. reflexivity.
Qed.

Lemma rtrim_len_snoc s c :
  rtrim_len (s ++ [c]) (S (length s))
  = if is_space c then rtrim_len s (length s) else S (length s).
Proof.
  cbn [rtrim_len]. rewrite nth_after. cbn [hd].
  destruct (is_space c); [|reflexivity]. apply rtrim_len_app. lia.
Qed.

(** What [rtrim_len] keeps ends on a character that is no white space, and
    what it drops is white space. *)
Lemma rtrim_len_split s :
  exists pre ws, s = pre ++ ws /\ rtrim_len s (length s) = length pre /\
    Forall (fun c => is_space c = true) ws /\
    (pre = [] \/ is_space (last pre NUL) = false).
Proof.
  induction s as [|c s IH] using rev_ind.
  - exists [], []. repeat split; auto.
  - rewrite length_app, Nat.add_1_r, rtrim_len_snoc.
    destruct (is_space c) eqn:Ec.
    + destruct IH as (pre & ws & E & El & Hws & Hp).
      exists pre, (ws ++ [c]). split; [|split; [|split]].
      * rewrite app_assoc, <- E. reflexivity.
      * exact El.
      * apply Forall_app. split; [assumption|]. now repeat constructor.
      * exact Hp.
    + exists (s ++ [c]), []. rewrite app_nil_r, length_app, Nat.add_1_r.
      repeat split; auto. right. now rewrite last_snoc.
Qed.

Lemma rtrim_len_of pre ws :
  Forall (fun c => is_space c = true) ws ->
  pre = [] \/ is_space (last pre NUL) = false ->
  rtrim_len (pre ++ ws) (length (pre ++ ws)) = length pre.
Proof.
  intros Hws Hp. induction ws as [|c ws IH] using rev_ind.
  - rewrite app_nil_r. destruct Hp as [-> | Hp]; [reflexivity|].
    destruct pre as [|a pre] using rev_ind; [reflexivity|].
    rewrite last_snoc in Hp. rewrite length_app, Nat.add_1_r, rtrim_len_snoc.
    now rewrite Hp.
  - apply Forall_app in Hws as [Hws Hc].
    apply Forall_cons_iff in Hc as [Hc _].
    rewrite app_assoc, length_app, Nat.add_1_r, rtrim_len_snoc, Hc.
    now apply IH.
Qed.

Lemma line_rest_le s : forall k, line_rest s k <= k.
Proof.
  induction s as [|c s IH]; intros [|k]; cbn [line_rest]; try lia.
  destruct (Ascii.eqb c LF); [lia|]. specialize (IH k). lia.
Qed.

Lemma line_rest_app x y : forall k, k <= length x ->
  line_rest (x ++ y) k = line_rest x k.
Proof.
  induction x as [|c x IH]; intros [|k] Hk; cbn [app line_rest length] in *;
    try reflexivity; try lia.
  - destruct y; reflexivity.
  - destruct (Ascii.eqb c LF); [reflexivity|]. rewrite IH by lia. reflexivity.
Qed.

(** [line_rest] stops at the first newline, or at the end. *)
Lemma line_rest_split r :
  exists tl ws, r = tl ++ ws /\ line_rest r (length r) = length tl /\
    ~ In LF tl /\ (ws = [] \/ exists ws', ws = LF :: ws').
Proof.
  induction r as [|c r IH].
  - exists [], []. repeat split; auto.
  - cbn [length line_rest]. destruct (Ascii.eqb c LF) eqn:Ec.
    + apply Ascii.eqb_eq in Ec as ->. exists [], (LF :: r).
      repeat split; eauto.
    + apply Ascii.eqb_neq in Ec.
      destruct IH as (tl & ws & E & El & Hn & Hw).
      exists (c :: tl), ws. rewrite E at 1. cbn [app length].
      repeat split; auto. intros [H|H]; [congruence | tauto].
Qed.

Lemma line_rest_of tl ws :
  ~ In LF tl -> ws = [] \/ (exists ws', ws = LF :: ws') ->
  line_rest (tl ++ ws) (length (tl ++ ws)) = length tl.
Proof.
  intros Hn Hw. induction tl as [|c tl IH].
  - destruct Hw as [-> | (ws' & ->)]; [reflexivity|].
    cbn [app length line_rest]. now rewrite Ascii.eqb_refl.
  - cbn [app length line_rest].
    rewrite (proj2 (Ascii.eqb_neq c LF)) by (intros ->; apply Hn; now left).
    rewrite IH; [reflexivity|]. intros H. apply Hn. now right.
Qed.

Lemma space_not_LF_trailing l :
  Forall (fun c => is_space c = true) l -> ~ In LF l ->
  Forall (fun c => is_trailing c = true) l.
Proof.
  intros Hs Hn. apply Forall_forall. intros c Hc.
  rewrite Forall_forall in Hs. specialize (Hs c Hc).
  unfold is_space in Hs. unfold is_trailing.
  destruct (Ascii.eqb c LF) eqn:E.
  - apply Ascii.eqb_eq in E. subst c. contradiction.
  - now rewrite orb_false_r in Hs.
Qed.

Lemma trailing_is_space l :
  Forall (fun c => is_trailing c = true) l ->
  Forall (fun c => is_space c = true) l /\ ~ In LF l.
Proof.
  intros H. split.
  - eapply Forall_impl; [|exact H]. intros c Hc. unfold is_space.
    unfold is_trailing in Hc. now rewrite Hc.
  - intros Hin. rewrite Forall_forall in H. apply H in Hin. discriminate Hin.
Qed.

Lemma blank_lines_len_app a b n :
  n <= length a -> blank_lines_len (a ++ b) n = blank_lines_len a n.
Proof.
  intros Hn. unfold blank_lines_len. rewrite rtrim_len_app by assumption.
  pose proof (rtrim_len_le a n) as Hle.
  destruct (rtrim_len a n =? 0); [reflexivity|].
  rewrite skipn_app.
  replace (rtrim_len a n - length a) with 0 by lia. cbn [skipn].
  rewrite line_rest_app; [reflexivity|]. rewrite length_skipn. lia.
Qed.

(** A text of white space only is made of blank lines. *)
Lemma blank_lines_len_blank ws :
  Forall (fun c => is_space c = true) ws ->
  blank_lines_len ws (length ws) = 0.
Proof.
  intros H. pose proof (rtrim_len_of [] ws H (or_introl eq_refl)) as E.
  cbn [app length] in E. unfold blank_lines_len. rewrite E. reflexivity.
Qed.

(** After a line that is not blank the trailing blank lines go, from the
    newline of that line on. *)
Lemma blank_lines_len_of pre c tl ws :
  is_space c = false -> Forall (fun x => is_trailing x = true) tl ->
  Forall (fun x => is_space x = true) ws ->
  ws = [] \/ (exists ws', ws = LF :: ws') ->
  blank_lines_len (pre ++ c :: tl ++ ws) (length (pre ++ c :: tl ++ ws))
  = length (pre ++ c :: tl).
Proof.
  intros Hc Htl Hws Hw. destruct (trailing_is_space tl Htl) as [Htls HtlLF].
  unfold blank_lines_len.
  replace (pre ++ c :: tl ++ ws) with ((pre ++ [c]) ++ tl ++ ws)
    by (now rewrite <- app_assoc).
  rewrite (rtrim_len_of (pre ++ [c]) (tl ++ ws)).
  - rewrite length_app. cbn [length]. rewrite Nat.add_1_r. cbn [Nat.eqb].
    rewrite <- Nat.add_1_r.
    replace (length pre + 1) with (length (pre ++ [c]))
      by (rewrite length_app; reflexivity).
    rewrite skipn_length_app.
    replace (length ((pre ++ [c]) ++ tl ++ ws) - length (pre ++ [c]))
      with (length (tl ++ ws)) by (rewrite (length_app (pre ++ [c])); lia).
    rewrite line_rest_of by assumption.
    rewrite !length_app. cbn [length]. lia.
  - apply Forall_app. now split.
  - right. now rewrite last_snoc.
Qed.

(** What [blank_lines_len] keeps and what it drops. *)
Lemma blank_lines_len_split s :
  exists text ws, s = text ++ ws /\
    blank_lines_len s (length s) = length text /\
    Forall (fun c => is_space c = true) ws /\
    (text = [] \/
     ((exists pre c tl, text = pre ++ c :: tl /\ is_space c = false /\
                        Forall (fun x => is_trailing x = true) tl) /\
      (ws = [] \/ exists ws', ws = LF :: ws'))).
Proof.
  destruct (rtrim_len_split s) as (pre & r & E & El & Hr & Hp).
  destruct pre as [|a pre0] eqn:Epre.
  - exists [], s. rewrite E. cbn [app]. repeat split; auto.
    now apply blank_lines_len_blank.
  - rewrite <- Epre in *.
    assert (Hne : pre <> []) by (rewrite Epre; discriminate).
    destruct Hp as [Hp|Hp]; [contradiction|].
    destruct (exists_last Hne) as (pre' & c & Ep). rewrite Ep in Hp.
    rewrite last_snoc in Hp.
    destruct (line_rest_split r) as (tl & ws & Er & Elr & Hn & Hw).
    assert (Hsp : Forall (fun c => is_space c = true) tl /\
                  Forall (fun c => is_space c = true) ws).
    { rewrite Er in Hr. now apply Forall_app in Hr. }
    destruct Hsp as [Htl Hws].
    pose proof (space_not_LF_trailing tl Htl Hn) as Htr.
    exists (pre' ++ c :: tl), ws.
    assert (Es : s = pre' ++ c :: tl ++ ws).
    { rewrite E, Ep, Er, <- app_assoc. reflexivity. }
    split; [rewrite Es, <- app_assoc; reflexivity|].
    split; [rewrite Es; now apply blank_lines_len_of|].
    split; [assumption|]. right. split; [|assumption].
    exists pre', c, tl. auto.
Qed.

Lemma blank_lines_len_le s : blank_lines_len s (length s) <= length s.
Proof.
  destruct (blank_lines_len_split s) as (text & ws & E & El & _).
  rewrite El. apply (f_equal (@length ascii)) in E. rewrite length_app in E. lia.
Qed.

(** [bxs_rtrim] strips the trailing blank lines and nothing else: the text
    it gives ends with the last line that is not blank, and what it drops
    is white space from the newline of that line on. *)
Lemma bxs_rtrim_spec s :
  exists ws, s = bxs_rtrim s ++ ws /\
    Forall (fun c => is_space c = true) ws /\
    (bxs_rtrim s = [] \/
     ((exists pre c tl, bxs_rtrim s = pre ++ c :: tl /\ is_space c = false /\
                        Forall (fun x => is_trailing x = true) tl) /\
      (ws = [] \/ exists ws', ws = LF :: ws'))).
Proof.
  destruct (blank_lines_len_split s) as (text & ws & E & El & Hws & Ht).
  assert (Eb : bxs_rtrim s = text).
  { unfold bxs_rtrim. rewrite El, E. rewrite firstn_app, Nat.sub_diag, firstn_all.
    cbn [firstn]. apply app_nil_r. }
  rewrite Eb. exists ws. auto.
Qed.

Lemma bxs_rtrim_kept pre c tl ws :
  is_space c = false -> Forall (fun x => is_trailing x = true) tl ->
  Forall (fun x => is_space x = true) ws ->
  ws = [] \/ (exists ws', ws = LF :: ws') ->
  bxs_rtrim (pre ++ c :: tl ++ ws) = pre ++ c :: tl.
Proof.
  intros Hc Htl Hws Hw. unfold bxs_rtrim.
  rewrite blank_lines_len_of by assumption.
  replace (pre ++ c :: tl ++ ws) with ((pre ++ c :: tl) ++ ws)
    by (now rewrite <- app_assoc).
  rewrite firstn_app, Nat.sub_diag, firstn_all. cbn [firstn]. apply app_nil_r.
Qed.

Lemma bxs_rtrim_blank ws :
  Forall (fun c => is_space c = true) ws -> bxs_rtrim ws = [].
Proof.
  intros H. unfold bxs_rtrim. now rewrite blank_lines_len_blank.
Qed.

Lemma bxs_rtrim_idem s : bxs_rtrim (bxs_rtrim s) = bxs_rtrim s.
Proof.
  destruct (bxs_rtrim_spec s) as (ws & _ & _ & [E|((pre & c & tl & E & Hc & Htl) & _)]).
  - rewrite E. reflexivity.
  - rewrite E. rewrite <- (app_nil_r tl) at 1.
    apply bxs_rtrim_kept; auto.
Qed.

Lemma bxs_rtrim_newline s : bxs_rtrim (s ++ [LF]) = bxs_rtrim s.
Proof.
  destruct (bxs_rtrim_spec s)
    as (ws & E & Hws & [Et|((pre & c & tl & Et & Hc & Htl) & Hw)]).
  - rewrite Et in *. cbn [app] in E. subst ws. apply bxs_rtrim_blank.
    apply Forall_app. split; [assumption|]. now repeat constructor.
  - rewrite E at 1. rewrite Et.
    replace (((pre ++ c :: tl) ++ ws) ++ [LF]) with (pre ++ c :: tl ++ ws ++ [LF])
      by (now rewrite <- !app_assoc).
    apply bxs_rtrim_kept; auto.
    + apply Forall_app. split; [assumption|]. now repeat constructor.
    + right. destruct Hw as [-> | (ws' & ->)]; cbn [app]; eauto.
Qed.

Lemma strdup_repeat_nul a k tail :
  no_nul a -> 0 < k -> strdup (a ++ repeat NUL k ++ tail) = a.
Proof.
  intros Ha Hk. destruct k as [|k]; [lia|]. cbn [repeat app].
  now apply strdup_poke.
Qed.

Lemma no_nul_firstn n s : no_nul s -> no_nul (firstn n s).
Proof.
  unfold no_nul. intros H Hin. apply H.
  rewrite <- (firstn_skipn n s). apply in_or_app. now left.
Qed.

Lemma skip_trailing_spec pre x tr : forall k,
  is_trailing x = false -> Forall (fun c => is_trailing c = true) tr ->
  k <= length tr ->
  skip_trailing (pre ++ x :: tr) (length pre + k) = length pre.
Proof.
  induction k as [|k IH]; intros Hx Ht Hk.
  - rewrite Nat.add_0_r. destruct (length pre) as [|p] eqn:Ep; [reflexivity|].
    cbn [skip_trailing]. rewrite <- Ep, nth_after. cbn [hd].
    now rewrite Hx, Ep.
  - rewrite Nat.add_succ_r. cbn [skip_trailing].
    assert (Hn : nth (S (length pre + k)) (pre ++ x :: tr) NUL = nth k tr NUL).
    { replace (S (length pre + k)) with (length pre + S k) by lia.
      rewrite app_nth2_plus. reflexivity. }
    rewrite Hn.
    assert (Ht' : is_trailing (nth k tr NUL) = true).
    { rewrite Forall_forall in Ht. apply Ht. apply nth_In. lia. }
    rewrite Ht'. apply IH; auto. lia.
Qed.

(** The action of the sample rule on a text that ends with the four
    characters of the terminator and trailing blanks: the content is what
    comes before the terminator. *)
Lemma sample_action_spec content k0 k1 k2 k3 tr sc :
  no_nul content -> k0 <> NUL -> is_trailing k3 = false ->
  Forall (fun c => is_trailing c = true) tr ->
  sample_action (content ++ [k0; k1; k2; k3] ++ tr) sc =
  if 0 <? length (bxs_rtrim content) then
    Return STRING (Some (val_s (bxs_rtrim content ++ [LF])))
      (yyless (length content) (content ++ [k0; k1; k2; k3] ++ tr) sc)
  else
    Return YUNREC None
      (count_error SAMPLE_block_must_not_be_empty
         (yyless (length content) (content ++ [k0; k1; k2; k3] ++ tr) sc)).
Proof.
  intros Hc Hk0 Hk3 Ht. unfold sample_action.
  set (yytext := content ++ [k0; k1; k2; k3] ++ tr).
  assert (Hp : skip_trailing yytext (length yytext - 1) = length content + 3).
  { unfold yytext.
    replace (content ++ [k0; k1; k2; k3] ++ tr)
      with ((content ++ [k0; k1; k2]) ++ k3 :: tr)
      by (now rewrite <- app_assoc).
    replace (length ((content ++ [k0; k1; k2]) ++ k3 :: tr) - 1)
      with (length (content ++ [k0; k1; k2]) + length tr)
      by (rewrite !length_app; cbn [length]; lia).
    rewrite skip_trailing_spec by auto.
    rewrite length_app. reflexivity. }
  rewrite Hp.
  replace (length content + 3 - 2) with (S (length content)) by lia.
  replace (S (length content) - 1) with (length content) by lia.
  assert (Hs0 : strdup (poke yytext (S (length content)) NUL) = content ++ [k0]).
  { unfold yytext.
    replace (content ++ [k0; k1; k2; k3] ++ tr)
      with ((content ++ [k0]) ++ k1 :: ([k2; k3] ++ tr))
      by (now rewrite <- app_assoc).
    replace (S (length content)) with (length (content ++ [k0]))
      by (rewrite length_app; simpl; lia).
    rewrite poke_after. apply strdup_poke.
    apply no_nul_app; [assumption|]. intros [E|[]]. congruence. }
  rewrite Hs0.
  assert (Hs1 : poke ((content ++ [k0]) ++ [NUL]) (length content) LF
                = content ++ [LF; NUL]).
  { rewrite <- app_assoc. cbn [app]. apply poke_after. }
  rewrite Hs1. unfold btrim.
  rewrite blank_lines_len_app by lia.
  pose proof (blank_lines_len_le content) as Hle.
  assert (Hlen : length (bxs_rtrim content) = blank_lines_len content (length content)).
  { unfold bxs_rtrim. rewrite length_firstn. lia. }
  rewrite Hlen.
  destruct (0 <? blank_lines_len content (length content)) eqn:Epos; [|reflexivity].
  apply Nat.ltb_lt in Epos.
  do 3 f_equal.
  rewrite firstn_app, skipn_length_app.
  replace (blank_lines_len content (length content) - length content) with 0 by lia.
  cbn [firstn]. rewrite app_nil_r.
  destruct (Nat.eq_dec (blank_lines_len content (length content)) (length content))
    as [Efull|Epart].
  - rewrite Efull, Nat.sub_diag, firstn_all. cbn [repeat app].
    replace (content ++ [LF; NUL]) with ((content ++ [LF]) ++ [NUL])
      by (now rewrite <- app_assoc).
    rewrite strdup_poke.
    + now rewrite bxs_rtrim_newline.
    + apply no_nul_app; [assumption|]. intros [E|[]]. discriminate E.
  - rewrite strdup_repeat_nul.
    + fold (bxs_rtrim content). now rewrite bxs_rtrim_idem.
    + now apply no_nul_firstn.
    + lia.
Qed.

(** ** Patterns that end at the end of the line *)

Lemma lf_free_matches r u : matches r u -> lf_free r = true -> ~ In LF u.
Proof.
  induction 1 as [|neg rs c Hc|r s u v _ IHu _ IHv|r s u _ IH|r s u _ IH
                 | r | r u v _ IHu _ IHv]; cbn [lf_free]; intros Hf.
  - intros [].
  - intros [->|[]]. apply negb_true_iff in Hf. congruence.
  - apply andb_true_iff in Hf as [H1 H2]. intros Hin.
    apply in_app_or in Hin as [Hin|Hin]; [now apply IHu | now apply IHv].
  - apply andb_true_iff in Hf as [H1 H2]. now apply IH.
  - apply andb_true_iff in Hf as [H1 H2]. now apply IH.
  - intros [].
  - intros Hin. apply in_app_or in Hin as [Hin|Hin];
      [now apply IHu | now apply IHv].
Qed.

Lemma first_LF_unique (a a' b b' : list ascii) :
  ~ In LF a -> ~ In LF a' -> a ++ LF :: b = a' ++ LF :: b' -> a = a' /\ b = b'.
Proof.
  revert a'. induction a as [|x a IH]; intros a' Ha Ha' E.
  - destruct a' as [|y a']; cbn [app] in E.
    + injection E as <-. auto.
    + injection E as <- _. exfalso. apply Ha'. now left.
  - destruct a' as [|y a']; cbn [app] in E.
    + injection E as -> _. exfalso. apply Ha. now left.
    + injection E as <- E. destruct (IH a') as [-> ->]; auto.
      * intros H. apply Ha. now right.
      * intros H. apply Ha'. now right.
Qed.

Lemma matches_eol re u :
  matches (Cat re (Chr LF)) u -> exists v, u = v ++ [LF] /\ matches re v.
Proof.
  intros H. apply matches_Cat in H as (v & w & -> & Hv & Hw).
  apply matches_Ccl in Hw as (c & -> & Hc).
  rewrite chr_LF_mem in Hc. apply Ascii.eqb_eq in Hc. subst c. eauto.
Qed.

Lemma firstn_line (ln rest : list ascii) j :
  length ln < j ->
  firstn j (ln ++ LF :: rest) = ln ++ LF :: firstn (j - S (length ln)) rest.
Proof.
  intros Hj. rewrite firstn_app.
  rewrite firstn_all2 by lia. f_equal.
  destruct (j - length ln) as [|k] eqn:E; [lia|].
  cbn [firstn]. f_equal. f_equal. lia.
Qed.

(** On a line, a pattern with [$] matches the whole line with its newline
    or nothing. *)
Lemma eol_match_total re ln rest k :
  lf_free re = true -> ~ In LF ln ->
  longest_match (Cat re (Chr LF)) (ln ++ LF :: rest) = Some k ->
  k = S (length ln) /\ matches re ln.
Proof.
  intros Hf Hl H. apply longest_match_sound in H as [Hk Hm].
  apply matches_eol in Hm as (v & E & Hv).
  pose proof (lf_free_matches re v Hv Hf) as Hlv.
  destruct (Nat.le_gt_cases k (length ln)) as [Hle|Hgt].
  - exfalso. rewrite firstn_app in E.
    replace (k - length ln) with 0 in E by lia. cbn [firstn] in E.
    rewrite app_nil_r in E. apply Hl.
    rewrite <- (firstn_skipn k ln). apply in_or_app. left.
    rewrite E. apply in_or_app. right. now left.
  - rewrite firstn_line in E by assumption.
    change (v ++ [LF]) with (v ++ LF :: []) in E.
    apply first_LF_unique in E as [-> E]; auto.
    split; [|assumption].
    rewrite length_app in Hk. cbn [length] in Hk.
    assert (Hz : length (firstn (k - S (length v)) rest) = 0)
      by (first [now rewrite <- E | now rewrite E]).
    rewrite length_firstn in Hz. lia.
Qed.

Lemma eol_match re ln rest :
  lf_free re = true -> ~ In LF ln -> matches re ln ->
  longest_match (Cat re (Chr LF)) (ln ++ LF :: rest) = Some (S (length ln)).
Proof.
  intros Hf Hl Hm.
  assert (Hk : S (length ln) <= length (ln ++ LF :: rest)).
  { rewrite length_app. cbn [length]. lia. }
  assert (Hm' : matches (Cat re (Chr LF)) (firstn (S (length ln)) (ln ++ LF :: rest))).
  { rewrite firstn_line by lia. rewrite Nat.sub_diag. cbn [firstn].
    constructor; [assumption|]. constructor. reflexivity. }
  destruct (longest_complete _ _ 0 None _ Hk Hm') as (m & E & Hle).
  fold (longest_match (Cat re (Chr LF)) (ln ++ LF :: rest)) in E.
  destruct (eol_match_total re ln rest m Hf Hl E) as [-> _]. exact E.
Qed.

(** ** The terminator of a sample block *)

Lemma horizontal_mem c : ccl_mem false horizontal c = is_horizontal c.
Proof. destruct c as [[] [] [] [] [] [] [] []]; reflexivity. Qed.

Lemma trailing_mem c : ccl_mem false trailing c = is_trailing c.
Proof. destruct c as [[] [] [] [] [] [] [] []]; reflexivity. Qed.

Lemma letter_e_mem c : ccl_mem false (one "e") c = Ascii.eqb (tolower c) "e".
Proof. destruct c as [[] [] [] [] [] [] [] []]; reflexivity. Qed.
Lemma letter_n_mem c : ccl_mem false (one "n") c = Ascii.eqb (tolower c) "n".
Proof. destruct c as [[] [] [] [] [] [] [] []]; reflexivity. Qed.
Lemma letter_d_mem c : ccl_mem false (one "d") c = Ascii.eqb (tolower c) "d".
Proof. destruct c as [[] [] [] [] [] [] [] []]; reflexivity. Qed.
Lemma letter_s_mem c : ccl_mem false (one "s") c = Ascii.eqb (tolower c) "s".
Proof. destruct c as [[] [] [] [] [] [] [] []]; reflexivity. Qed.

Lemma matches_Lit_ends kw : matches (Lit "ends") kw <-> spells kw "ends".
Proof.
  unfold spells, Lit. cbn [chars list_ascii_of_string map Seq]. unfold Chr.
  split.
  - intros H.
    apply matches_Cat in H as (u1 & v1 & -> & H1 & H).
    apply matches_Cat in H as (u2 & v2 & -> & H2 & H).
    apply matches_Cat in H as (u3 & u4 & -> & H3 & H4).
    apply matches_Ccl in H1 as (c1 & -> & H1).
    apply matches_Ccl in H2 as (c2 & -> & H2).
    apply matches_Ccl in H3 as (c3 & -> & H3).
    apply matches_Ccl in H4 as (c4 & -> & H4).
    rewrite letter_e_mem in H1. rewrite letter_n_mem in H2.
    rewrite letter_d_mem in H3. rewrite letter_s_mem in H4.
    apply Ascii.eqb_eq in H1, H2, H3, H4. cbn [app map]. congruence.
  - intros H.
    destruct kw as [|c1 [|c2 [|c3 [|c4 [|c5 kw]]]]]; try discriminate.
    injection H as H1 H2 H3 H4.
    change [c1; c2; c3; c4] with ([c1] ++ [c2] ++ [c3] ++ [c4]).
    repeat constructor.
    + now rewrite letter_e_mem, H1.
    + now rewrite letter_n_mem, H2.
    + now rewrite letter_d_mem, H3.
    + now rewrite letter_s_mem, H4.
Qed.

Lemma Forall_mem_eq (f g : ascii -> bool) (l : list ascii) :
  (forall c, f c = g c) ->
  Forall (fun c => f c = true) l <-> Forall (fun c => g c = true) l.
Proof.
  intros E. split; intros H; eapply Forall_impl; try exact H;
    intros c Hc; cbv beta in *; congruence.
Qed.

Lemma matches_ends m :
  matches ends_re m <->
  exists kw tr, m = kw ++ tr /\ spells kw "ends" /\
                Forall (fun c => is_trailing c = true) tr.
Proof.
  unfold ends_re. cbn [Seq]. rewrite matches_Cat. split.
  - intros (kw & tr & -> & Hk & Ht). exists kw, tr.
    rewrite matches_Lit_ends in Hk. rewrite matches_star_class in Ht.
    rewrite (Forall_mem_eq _ _ tr trailing_mem) in Ht. auto.
  - intros (kw & tr & -> & Hk & Ht). exists kw, tr.
    rewrite matches_Lit_ends, matches_star_class.
    rewrite (Forall_mem_eq _ _ tr trailing_mem). auto.
Qed.

Lemma matches_ends_line m :
  matches ends_line_re m <->
  exists ind kw tr, m = ind ++ kw ++ tr /\
    Forall (fun c => is_horizontal c = true) ind /\
    spells kw "ends" /\
    Forall (fun c => is_trailing c = true) tr.
Proof.
  unfold ends_line_re. change (Seq [?a; ?b; ?c]) with (Cat a (Seq [b; c])).
  fold ends_re. rewrite matches_Cat. split.
  - intros (ind & m' & -> & Hi & Hm). apply matches_ends in Hm as (kw & tr & -> & Hk & Ht).
    exists ind, kw, tr. rewrite matches_star_class in Hi.
    rewrite (Forall_mem_eq _ _ ind horizontal_mem) in Hi. auto.
  - intros (ind & kw & tr & -> & Hi & Hk & Ht). exists ind, (kw ++ tr).
    rewrite matches_star_class, (Forall_mem_eq _ _ ind horizontal_mem).
    repeat split; auto. apply matches_ends. eauto.
Qed.

Lemma spells_ends kw :
  spells kw "ends" ->
  exists k0 k1 k2 k3, kw = [k0; k1; k2; k3] /\
    k0 <> NUL /\ k0 <> LF /\ is_trailing k3 = false /\ ~ In LF kw /\
    (k0 = "e"%char \/ k0 = "E"%char).
Proof.
  unfold spells. intros H.
  destruct kw as [|k0 [|k1 [|k2 [|k3 [|k4 kw]]]]]; try discriminate.
  injection H as H0 H1 H2 H3. exists k0, k1, k2, k3.
  split; [reflexivity|]. split; [intros ->; discriminate H0|].
  split; [intros ->; discriminate H0|].
  split.
  { revert H3. clear. destruct k3 as [[] [] [] [] [] [] [] []]; vm_compute; congruence. }
  split.
  { intros [->|[->|[->|[->|[]]]]]; discriminate. }
  revert H0. clear. destruct k0 as [[] [] [] [] [] [] [] []]; vm_compute; intros H;
    try discriminate H; auto.
Qed.

Lemma horizontal_char c :
  is_horizontal c = true ->
  (c = SPACE \/ c = TAB) /\ c <> NUL /\ c <> LF /\ is_trailing c = true.
Proof.
  unfold is_horizontal. intros H. apply orb_true_iff in H as [H|H];
    apply Ascii.eqb_eq in H; subst c; repeat split; auto; discriminate.
Qed.

Lemma trailing_not_LF_list tr :
  Forall (fun c => is_trailing c = true) tr -> ~ In LF tr.
Proof.
  rewrite Forall_forall. intros H Hin. apply H in Hin. discriminate Hin.
Qed.

Lemma horizontal_list ind :
  Forall (fun c => is_horizontal c = true) ind -> ~ In LF ind /\ no_nul ind.
Proof.
  rewrite Forall_forall. intros H. split; intros Hin; apply H in Hin;
    discriminate Hin.
Qed.


Lemma ends_free : lf_free ends_re = true.
Proof. vm_compute. reflexivity. Qed.




Lemma last_app_nonempty (a b : list ascii) : b <> [] -> last (a ++ b) NUL = last b NUL.
Proof.
  intros Hb. induction a as [|x a IH]; [reflexivity|].
  cbn [app]. destruct (a ++ b) eqn:E.
  - destruct a, b; try discriminate; congruence.
  - exact IH.
Qed.

Lemma last_In (b : list ascii) : b <> [] -> In (last b NUL) b.
Proof.
  induction b as [|x b IH]; [congruence|]. intros _.
  destruct b as [|y b]; [now left|]. right. apply IH. discriminate.
Qed.




(** ** Case-insensitive matching *)

Lemma in_ranges_tolower rs c : in_ranges rs (tolower c) = in_ranges rs c.
Proof.
  unfold in_ranges. induction rs as [|[lo hi] rs IH]; [reflexivity|].
  cbn [existsb fst snd]. rewrite IH. f_equal.
  rewrite tolower_idem, toupper_tolower.
  destruct (lower_or_upper c) as [E|E].
  - rewrite E. now destruct (in_range lo hi c), (in_range lo hi (toupper c)).
  - assert (Ec : in_range lo hi c = in_range lo hi (toupper c)) by now rewrite E.
    rewrite Ec.
    now destruct (in_range lo hi (tolower c)), (in_range lo hi (toupper c)).
Qed.

Lemma ccl_mem_ci neg rs a b :
  tolower a = tolower b -> ccl_mem neg rs a = ccl_mem neg rs b.
Proof.
  intros E. unfold ccl_mem.
  now rewrite <- (in_ranges_tolower rs a), <- (in_ranges_tolower rs b), E.
Qed.

Lemma deriv_ci a b r : tolower a = tolower b -> deriv a r = deriv b r.
Proof.
  intros E. induction r as [| |neg rs|r IHr s IHs|r IHr s IHs|r IHr];
    cbn [deriv]; try reflexivity.
  - now rewrite (ccl_mem_ci neg rs a b E).
  - now rewrite IHr, IHs.
  - now rewrite IHr, IHs.
  - now rewrite IHr.
Qed.

Lemma longest_ci s1 s2 :
  ci_eq s1 s2 -> forall r n best, longest r s1 n best = longest r s2 n best.
Proof.
  induction 1 as [|a b s1 s2 E _ IH]; intros r n best; [reflexivity|].
  cbn [longest]. rewrite (deriv_ci a b r E).
  destruct (is_void (deriv b r)); [reflexivity|]. apply IH.
Qed.

Lemma try_rule_ci sc1 sc2 r :
  yy_start sc1 = yy_start sc2 -> yy_at_bol sc1 = yy_at_bol sc2 ->
  ci_eq (yy_input sc1) (yy_input sc2) ->
  try_rule sc1 r = try_rule sc2 r.
Proof.
  intros Hs Hb Hi. unfold try_rule, active, longest_match.
  now rewrite Hs, Hb, (longest_ci _ _ Hi).
Qed.

(** The pattern matching of all the rules is blind to the case of
    letters: the same rules match, on the same lengths. *)
Lemma candidates_ci sc1 sc2 :
  yy_start sc1 = yy_start sc2 -> yy_at_bol sc1 = yy_at_bol sc2 ->
  ci_eq (yy_input sc1) (yy_input sc2) ->
  candidates sc1 = candidates sc2.
Proof.
  intros Hs Hb Hi. unfold candidates.
  induction rules as [|r rs IH]; [reflexivity|].
  cbn [candidates_of]. rewrite (try_rule_ci sc1 sc2 r Hs Hb Hi), IH.
  reflexivity.
Qed.

Lemma ci_eq_firstn n s1 s2 : ci_eq s1 s2 -> ci_eq (firstn n s1) (firstn n s2).
Proof.
  intros H. revert n. unfold ci_eq.
  induction H as [|a b s1 s2 E _ IH]; intros [|n]; cbn [firstn];
    try constructor; auto; apply IH.
Qed.

Lemma ci_eq_skipn n s1 s2 : ci_eq s1 s2 -> ci_eq (skipn n s1) (skipn n s2).
Proof.
  intros H. revert n. unfold ci_eq.
  induction H as [|a b s1 s2 E H IH]; intros [|n]; cbn [skipn];
    try constructor; auto; apply IH.
Qed.

Lemma ci_eq_refl s : ci_eq s s.
Proof. induction s; constructor; auto. Qed.

Lemma ci_eq_app a1 a2 b1 b2 : ci_eq a1 a2 -> ci_eq b1 b2 -> ci_eq (a1 ++ b1) (a2 ++ b2).
Proof. apply Forall2_app. Qed.

Lemma ci_eq_length s1 s2 : ci_eq s1 s2 -> length s1 = length s2.
Proof. apply Forall2_length. Qed.

Lemma ci_LF a b : tolower a = tolower b -> Ascii.eqb a LF = Ascii.eqb b LF.
Proof.
  revert b. 
  assert (H : forall c, Ascii.eqb c LF = Ascii.eqb (tolower c) LF).
  { intros c. destruct c as [[] [] [] [] [] [] [] []]; reflexivity. }
  intros b E. now rewrite (H a), (H b), E.
Qed.

Lemma ci_eq_last s1 s2 :
  ci_eq s1 s2 -> tolower (last s1 NUL) = tolower (last s2 NUL).
Proof.
  induction 1 as [|a b s1 s2 E H IH]; [reflexivity|].
  destruct H; [exact E|]. exact IH.
Qed.

(** ** Keywords in any case *)

Lemma before_action_agree c sc1 sc2 :
  agree sc1 sc2 ->
  agree (yy_before_action c sc1) (yy_before_action c sc2) /\
  ci_eq (yy_text c sc1) (yy_text c sc2).
Proof.
  intros (Hs & Hb & Hm & He & Hl & Hi).
  assert (Ht : ci_eq (yy_text c sc1) (yy_text c sc2)).
  { unfold yy_text. rewrite Hm. apply ci_eq_app; [apply ci_eq_refl|].
    now apply ci_eq_firstn. }
  split; [|exact Ht].
  unfold yy_before_action.
  rewrite (ci_eq_length _ _ Ht), (ci_LF _ _ (ci_eq_last _ _ Ht)).
  destruct (0 <? length (yy_text c sc2)); unfold agree; cbn;
    repeat split; auto; now apply ci_eq_skipn.
Qed.

Lemma agree_BEGIN s sc1 sc2 : agree sc1 sc2 -> agree (BEGIN s sc1) (BEGIN s sc2).
Proof. unfold agree. cbn. tauto. Qed.

Lemma agree_default_delimiters cnt sc1 sc2 :
  agree sc1 sc2 ->
  agree (set_extra {| yyerrcnt := cnt; sdel := DQUOTE; sesc := BACKSLASH |} sc1)
        (set_extra {| yyerrcnt := cnt; sdel := DQUOTE; sesc := BACKSLASH |} sc2).
Proof. unfold agree. cbn. tauto. Qed.

Lemma agree_count_error d sc1 sc2 :
  agree sc1 sc2 -> agree (count_error d sc1) (count_error d sc2).
Proof.
  intros (Hs & Hb & Hm & He & Hl & Hi). unfold count_error. rewrite He.
  destruct (_ <? _)%Z; unfold agree; cbn; rewrite ?Hl; repeat split; auto.
Qed.

Lemma agree_yyless n y1 y2 sc1 sc2 :
  agree sc1 sc2 -> ci_eq y1 y2 -> agree (yyless n y1 sc1) (yyless n y2 sc2).
Proof.
  intros (Hs & Hb & Hm & He & Hl & Hi) Hy. unfold agree, yyless. cbn.
  repeat split; auto. apply ci_eq_app; [now apply ci_eq_skipn | assumption].
Qed.

(** The keyword rules but the sample rule: the action does not look at the
    text, except to copy it for the general keywords. *)
Lemma keyword_action_agree n y1 y2 sc1 sc2 :
  is_keyword_rule n = true -> n <> R_SAMPLE_ENDS_LINE ->
  agree sc1 sc2 ->
  exists t v1 v2 sc1' sc2',
    yy_action n y1 sc1 = Return t v1 sc1' /\
    yy_action n y2 sc2 = Return t v2 sc2' /\
    agree sc1' sc2' /\
    (n <> R_KEYWORD -> v1 = v2) /\
    (n = R_KEYWORD ->
       v1 = Some (val_ascii (strdup y1)) /\ v2 = Some (val_ascii (strdup y2))).
Proof.
  intros Hk Hn Ha.
  destruct n; try discriminate Hk; try congruence;
    unfold yy_action; cbv zeta; rewrite ?change_default_delimiters;
    do 5 eexists;
    (split; [reflexivity|]); (split; [reflexivity|]);
    (split; [|split; [intros; reflexivity || congruence
                     |intros; try discriminate; split; reflexivity]]);
    auto using agree_BEGIN.
  - destruct Ha as (Hs & Hb & Hm & He & Hl & Hi). unfold agree. cbn.
    repeat split; auto.
  - destruct Ha as (Hs & Hb & Hm & He & Hl & Hi). unfold agree. cbn.
    rewrite He. repeat split; auto.
Qed.

Lemma ci_rigid a b : tolower a = tolower b -> is_space a = true -> b = a.
Proof.
  intros E Hs.
  assert (Ha : a = SPACE \/ a = TAB \/ a = CR \/ a = LF).
  { unfold is_space in Hs. repeat (apply orb_true_iff in Hs as [Hs|Hs]);
      apply Ascii.eqb_eq in Hs; auto. }
  revert E. destruct Ha as [->|[->|[->| ->]]];
    destruct b as [[] [] [] [] [] [] [] []]; vm_compute; congruence.
Qed.

Lemma ci_eq_rigid l1 l2 :
  Forall (fun c => is_space c = true) l1 -> ci_eq l1 l2 -> l2 = l1.
Proof.
  intros Hs H. induction H as [|a b l1 l2 E _ IH]; [reflexivity|].
  inversion Hs; subst. rewrite (ci_rigid a b E), IH; auto.
Qed.

Lemma ci_eq_map s1 s2 : ci_eq s1 s2 -> map tolower s1 = map tolower s2.
Proof. induction 1; cbn [map]; congruence. Qed.

Lemma horizontal_space l :
  Forall (fun c => is_horizontal c = true) l -> Forall (fun c => is_space c = true) l.
Proof.
  apply Forall_impl. intros c H. apply horizontal_char in H as ([-> | ->] & _);
    reflexivity.
Qed.

Lemma trailing_space l :
  Forall (fun c => is_trailing c = true) l -> Forall (fun c => is_space c = true) l.
Proof.
  apply Forall_impl. intros c H. unfold is_trailing in H. unfold is_space.
  now rewrite H.
Qed.

(** The sample rule sees the same content whatever the case of the
    terminator. *)
Lemma sample_action_agree more v v2 sc1 sc2 :
  agree sc1 sc2 -> no_nul more -> matches ends_line_re v -> ci_eq v v2 ->
  exists t val sc1' sc2',
    sample_action (more ++ v) sc1 = Return t val sc1' /\
    sample_action (more ++ v2) sc2 = Return t val sc2' /\
    agree sc1' sc2'.
Proof.
  intros Ha Hm Hv Hci.
  apply matches_ends_line in Hv as (ind & kw & tr & -> & Hind & Hkw & Htr).
  apply Forall2_app_inv_l in Hci as (ind2 & r2 & Hci1 & Hci2 & ->).
  apply Forall2_app_inv_l in Hci2 as (kw2 & tr2 & Hci2 & Hci3 & ->).
  apply (ci_eq_rigid ind ind2 (horizontal_space ind Hind)) in Hci1. subst ind2.
  apply (ci_eq_rigid tr tr2 (trailing_space tr Htr)) in Hci3. subst tr2.
  assert (Hkw2 : spells kw2 "ends").
  { unfold spells in *. now rewrite <- (ci_eq_map kw kw2 Hci2). }
  destruct (spells_ends kw Hkw) as (k0 & k1 & k2 & k3 & -> & Hk0 & _ & Hk3 & _).
  destruct (spells_ends kw2 Hkw2) as (j0 & j1 & j2 & j3 & -> & Hj0 & _ & Hj3 & _).
  destruct (horizontal_list ind Hind) as [_ Hindn].
  rewrite !app_assoc, <- !(app_assoc (more ++ ind)).
  rewrite !sample_action_spec by auto using no_nul_app.
  assert (Hy : ci_eq ((more ++ ind) ++ [k0; k1; k2; k3] ++ tr)
                     ((more ++ ind) ++ [j0; j1; j2; j3] ++ tr)).
  { apply ci_eq_app; [apply ci_eq_refl|].
    apply ci_eq_app; [assumption | apply ci_eq_refl]. }
  destruct (0 <? _); do 4 eexists;
    (split; [reflexivity|]); (split; [reflexivity|]).
  - now apply agree_yyless.
  - apply agree_count_error. now apply agree_yyless.
Qed.

Lemma try_rule_input sc r c :
  not_nullable r = true -> try_rule sc r = Some c -> yy_input sc <> [].
Proof.
  intros Hn Ht Hi. destruct (try_rule_some sc r c Ht) as (_ & _ & _ & Hl & _).
  rewrite Hi in Hl. unfold longest_match in Hl. cbn [longest] in Hl.
  unfold not_nullable in Hn. apply negb_true_iff in Hn. rewrite Hn in Hl.
  discriminate.
Qed.

Lemma rules_each_not_nullable r : In r rules -> not_nullable r = true.
Proof.
  intros H. pose proof rules_not_nullable as Hall.
  rewrite forallb_forall in Hall. now apply Hall.
Qed.

Lemma firstn_pred_snoc (i v : list ascii) n :
  n <= length i -> firstn n i = v ++ [LF] -> firstn (n - 1) i = v.
Proof.
  intros Hn E. assert (Hl : length (firstn n i) = length v + 1)
    by (rewrite E, length_app; reflexivity).
  rewrite length_firstn in Hl.
  assert (E' : firstn (n - 1) (firstn n i) = firstn (n - 1) i).
  { rewrite firstn_firstn. f_equal. lia. }
  rewrite <- E', E.
  replace (n - 1) with (length v) by lia. apply firstn_length_app.
Qed.

Lemma agree_set_input sc i1 i2 :
  ci_eq i1 i2 -> agree (set_input i1 sc) (set_input i2 sc).
Proof. intros H. unfold agree. cbn. repeat split; auto. Qed.

(** What the action of a keyword rule gives on two texts that differ in
    case only. *)
Lemma keyword_do_action_agree sc1 sc2 c r :
  agree sc1 sc2 -> no_nul (yy_more sc1) ->
  In r rules -> try_rule sc1 r = Some c ->
  is_keyword_rule (cand_rule c) = true ->
  exists t v1 v2 sc1' sc2',
    yy_do_action c sc1 = Return t v1 sc1' /\
    yy_do_action c sc2 = Return t v2 sc2' /\
    agree sc1' sc2' /\
    (cand_rule c <> R_KEYWORD -> v1 = v2) /\
    (cand_rule c = R_KEYWORD ->
       v1 = Some (val_ascii (strdup (yy_text c sc1))) /\
       v2 = Some (val_ascii (strdup (yy_text c sc2)))).
Proof.
  intros Ha Hm Hr Ht Hk. unfold yy_do_action.
  destruct (before_action_agree c sc1 sc2 Ha) as [Hb Hy].
  destruct (rule_id_eq_dec (cand_rule c) R_SAMPLE_ENDS_LINE) as [En|En].
  - rewrite En. cbn [yy_action].
    destruct (try_rule_some sc1 r c Ht) as (Hn & _ & _ & Hl & Hlen).
    apply rule_named_In in Hr. rewrite <- Hn, En in Hr.
    vm_compute in Hr. injection Hr as <-.
    cbn [rule_pat mk line pat_regex pat_eol pat_re] in Hl, Hlen.
    fold horizontal trailing in Hl.
    change (Seq [Star (Ccl false horizontal); Lit "ends"; Star (Ccl false trailing)])
      with ends_line_re in Hl.
    apply longest_match_sound in Hl as [Hle Hmatch].
    apply matches_eol in Hmatch as (v & Ev & Hv).
    apply firstn_pred_snoc in Ev; [|assumption].
    destruct Ha as (_ & _ & Hmore & _ & _ & Hi).
    set (v2 := firstn (cand_total c - 1) (yy_input sc2)).
    assert (Hv2 : ci_eq v v2).
    { rewrite <- Ev. unfold v2. now apply ci_eq_firstn. }
    unfold yy_text. rewrite Hlen, <- Hmore, Ev. fold v2.
    destruct (sample_action_agree (yy_more sc1) v v2 _ _ Hb Hm Hv Hv2)
      as (t & val & s1' & s2' & E1 & E2 & Hag).
    exists t, val, val, s1', s2'.
    split; [exact E1|]. split; [exact E2|]. split; [exact Hag|].
    split; [reflexivity | intros Ek; discriminate Ek].
  - destruct (keyword_action_agree (cand_rule c) (yy_text c sc1) (yy_text c sc2)
                _ _ Hk En Hb) as (t & v1 & v2 & s1' & s2' & E1 & E2 & Hag & H1 & H2).
    exists t, v1, v2, s1', s2'. auto.
Qed.

(** C9, as the code has it.  Take two inputs that differ in the case of
    their letters only.  All patterns match them alike; when the rule that
    wins on the first is a keyword rule, it wins on the second with the
    same length, and the two steps return the same token and leave the
    same start condition, delimiters, counter and log.  The value is the
    same too, except for the general keywords (author, designer, created,
    revision, revdate, indent), whose value is the text as it is spelled. *)
Theorem keywords_case_insensitive sc i1 i2 c :
  ci_eq i1 i2 -> no_nul (yy_more sc) ->
  yy_find_action (candidates (set_input i1 sc)) = Some c ->
  is_keyword_rule (cand_rule c) = true ->
  yy_find_action (candidates (set_input i2 sc)) = Some c /\
  exists t v1 v2 sc1 sc2,
    yy_step (set_input i1 sc) = SToken t v1 sc1 /\
    yy_step (set_input i2 sc) = SToken t v2 sc2 /\
    agree sc1 sc2 /\
    (cand_rule c <> R_KEYWORD -> v1 = v2) /\
    (cand_rule c = R_KEYWORD ->
       v1 = Some (val_ascii (strdup (yy_more sc ++ firstn (cand_len c) i1))) /\
       v2 = Some (val_ascii (strdup (yy_more sc ++ firstn (cand_len c) i2)))).
Proof.
  intros Hci Hm Hf Hk.
  pose proof (agree_set_input sc i1 i2 Hci) as Ha.
  assert (Hc : candidates (set_input i2 sc) = candidates (set_input i1 sc)).
  { symmetry. apply candidates_ci; try reflexivity. exact Hci. }
  rewrite Hc. split; [exact Hf|].
  pose proof (yy_find_action_In _ _ Hf) as Hin.
  apply candidates_In in Hin as (r & Hr & Ht).
  pose proof (try_rule_input _ r c (rules_each_not_nullable r Hr) Ht) as Hne.
  cbn [set_input yy_input] in Hne.
  destruct i1 as [|a1 i1]; [congruence|].
  destruct i2 as [|a2 i2]; [inversion Hci|].
  destruct (keyword_do_action_agree _ _ c r Ha Hm Hr Ht Hk)
    as (t & v1 & v2 & s1' & s2' & E1 & E2 & Hag & H1 & H2).
  exists t, v1, v2, s1', s2'.
  rewrite (yy_step_run (set_input (a1 :: i1) sc) a1 i1 eq_refl).
  rewrite (yy_step_run (set_input (a2 :: i2) sc) a2 i2 eq_refl).
  rewrite Hc.
  rewrite (yy_run_best _ _ (set_input (a1 :: i1) sc) c Hf) by congruence.
  rewrite (yy_run_best _ _ (set_input (a2 :: i2) sc) c Hf) by congruence.
  rewrite E1, E2.
  split; [reflexivity|]. split; [reflexivity|]. split; [exact Hag|].
  split; [exact H1|exact H2].
Qed.

(** C9 as stated fails on the value of a general keyword: it is the text
    as it is spelled. *)
Lemma keyword_value_keeps_case :
  fst (tokens 3 (yy_init (chars "box b AUTHOR ")))
  = [(YBOX, None); (ASCII_ID, Some (val_ascii (chars "b")));
     (KEYWORD, Some (val_ascii (chars "AUTHOR")))] /\
  fst (tokens 3 (yy_init (chars "box b author ")))
  = [(YBOX, None); (ASCII_ID, Some (val_ascii (chars "b")));
     (KEYWORD, Some (val_ascii (chars "author")))] /\
  val_ascii (chars "AUTHOR") <> val_ascii (chars "author").
Proof.
  split; [vm_compute; reflexivity|]. split; [vm_compute; reflexivity|].
  discriminate.
Qed.

(** A terminator in capitals ends the sample block as the one in small
    letters does. *)
Lemma capital_ENDS_terminates :
  fst (tokens 6 (yy_init (chars "BOX b SAMPLE" ++ [LF] ++ chars "  text" ++ [LF]
                          ++ chars "ENDS" ++ [LF] ++ chars "END" ++ [LF])))
  = [(YBOX, None); (ASCII_ID, Some (val_ascii (chars "b"))); (YSAMPLE, None);
     (STRING, Some (val_s (chars "  text" ++ [LF]))); (YENDSAMPLE, None);
     (YEND, None)].
Proof. vm_compute. reflexivity. Qed.

(** ** The terminator inside a line *)

Lemma sample_live_e_inside c :
  c = "e"%char \/ c = "E"%char ->
  filter (first_live SAMPLE false c) rules = [any_rule; ends_rule].
Proof. intros [-> | ->]; vm_compute; reflexivity. Qed.

(** In [SAMPLE], away from the beginning of a line, the word ends in any
    case followed by blanks up to the end of the line is taken by the rule
    of the terminator token: the step returns [YENDSAMPLE], switches to
    [BOX] and drops the text kept by [yymore]. *)
Lemma yy_step_ends_inside sc kw tr rest :
  yy_start sc = SAMPLE -> yy_at_bol sc = false ->
  spells kw "ends" ->
  Forall (fun c => is_trailing c = true) tr ->
  yy_input sc = kw ++ tr ++ LF :: rest ->
  yy_step sc = SToken YENDSAMPLE None (BEGIN BOX (after_line rest sc)).
Proof.
  intros Hs Hb Hkw Htr Hi.
  destruct (spells_ends kw Hkw)
    as (k0 & k1 & k2 & k3 & Ekw & Hk0 & Hk0' & Hk3 & HkLF & Hk0e).
  pose proof (trailing_not_LF_list tr Htr) as HtrLF.
  set (ln := kw ++ tr).
  assert (Hi' : yy_input sc = ln ++ LF :: rest).
  { rewrite Hi. unfold ln. now rewrite <- app_assoc. }
  assert (Hln : ~ In LF ln).
  { unfold ln. intros H. apply in_app_or in H as [H|H]; tauto. }
  assert (Hmatch : matches ends_re ln).
  { apply matches_ends. exists kw, tr. auto. }
  assert (Hi0 : yy_input sc = k0 :: ([k1; k2; k3] ++ tr) ++ LF :: rest).
  { rewrite Hi, Ekw. cbn [app]. now rewrite <- ?app_assoc. }
  assert (Hlen : length ln = S (S (S (S (length tr))))).
  { unfold ln. rewrite Ekw, length_app. reflexivity. }
  rewrite (yy_step_run sc _ _ Hi0), (candidates_live sc _ _ Hi0).
  rewrite Hs, Hb, (sample_live_e_inside k0 Hk0e).
  cbn [candidates_of]. unfold try_rule, active. rewrite Hs, Hb.
  cbn [any_rule ends_rule mk plain to_eol rule_starts rule_pat pat_bol
       pat_regex pat_eol pat_re rule_name existsb sc_eqb orb andb implb].
  assert (Hdot : longest_match Dot (ln ++ LF :: rest) = Some 1).
  { rewrite <- Hi', Hi0. apply dot_match. exact Hk0'. }
  rewrite Hi', Hdot, (eol_match ends_re ln rest ends_free Hln Hmatch), Hlen.
  cbn [Nat.sub].
  set (c1 := {| cand_rule := R_SAMPLE_ANY; cand_total := 1; cand_len := 1 |}).
  set (c2 := {| cand_rule := R_SAMPLE_ENDS;
                cand_total := S (S (S (S (S (length tr)))));
                cand_len := S (S (S (S (length tr)))) |}).
  assert (Hact : yy_do_action c2 sc
                 = Return YENDSAMPLE None (BEGIN BOX (after_line rest sc))).
  { unfold yy_do_action, yy_before_action, yy_text. cbn [c2 cand_rule cand_len].
    rewrite Hi', <- Hlen, firstn_length_app, skipn_length_app.
    assert (Hne : ln <> []) by (intros E; rewrite E in Hlen; discriminate).
    assert (Hpos : (0 <? length (yy_more sc ++ ln)) = true).
    { apply Nat.ltb_lt. rewrite length_app. lia. }
    rewrite Hpos.
    assert (Hlast : Ascii.eqb (last (yy_more sc ++ ln) NUL) LF = false).
    { rewrite last_app_nonempty by assumption. apply Ascii.eqb_neq.
      intros E. apply Hln. rewrite <- E. now apply last_In. }
    rewrite Hlast. reflexivity. }
  rewrite (yy_run_best _ [c1; c2] sc c2); [| reflexivity |]; rewrite Hact;
    [reflexivity | discriminate].
Qed.

(** C3 on the code.  A line on which other text follows the word ends does
    not terminate the block and stays in the content; but a content line
    that merely ends in the letters e, n, d, s, such as my friends, does
    terminate it: the scanner returns the terminator token in the middle of
    that line, no text token, and lexes the rest of the block as box
    definition text. *)
Theorem sample_terminator_inside_content_line :
  fst (tokens 20 (yy_init ends_now_sample))
  = [(YBOX, None); (ASCII_ID, Some (val_ascii (chars "b"))); (YSAMPLE, None);
     (STRING, Some (val_s (chars "  ends now" ++ [LF]))); (YENDSAMPLE, None);
     (YEND, None)] /\
  fst (tokens 20 (yy_init friends_sample))
  = [(YBOX, None); (ASCII_ID, Some (val_ascii (chars "b"))); (YSAMPLE, None);
     (YENDSAMPLE, None);
     (ASCII_ID, Some (val_ascii (chars "second")));
     (ASCII_ID, Some (val_ascii (chars "line")));
     (ASCII_ID, Some (val_ascii (chars "ends")));
     (YEND, None)].
Proof. split; vm_compute; reflexivity. Qed.

(** * The theorems at concrete inputs *)

Ltac not_in := cbv; intros H; repeat (destruct H as [H|H]; [discriminate H|]); exact H.

Lemma string_payload_unescaped_witness :
  yy_step (in_box 0 (escaped_example ++ LF :: chars "x"))
  = SToken STRING (Some (val_s escaped_example_text))
      (set_input (LF :: chars "x") (after_line (chars "x") (in_box 0 []))).
Proof.
  apply (proj1 string_payload_unescaped
           (in_box 0 (escaped_example ++ LF :: chars "x")) DQUOTE
           (tl escaped_example) (chars "x") escaped_example_text []).
  - left. reflexivity.
  - reflexivity.
  - reflexivity.
  - left. reflexivity.
  - not_in.
  - not_in.
  - reflexivity.
  - reflexivity.
Defined.

Lemma delimspec_token_whatever_validity_witness :
  match yy_step (in_delimspec (chars "?~ x")) with
  | SSkip sc' =>
      yy_start sc' = DELIMSPEC /\ yyextra sc' = yyextra (in_delimspec (chars "?~ x")) /\
      exists w, yy_input (in_delimspec (chars "?~ x")) = w ++ yy_input sc' /\
                (w = BOM \/ exists c, w = [c] /\ is_space c = true)
  | SToken t v sc' =>
      exists n, 0 < n /\
        Forall (fun c => is_space c = false)
          (firstn n (yy_input (in_delimspec (chars "?~ x")))) /\
        yy_input sc' = skipn n (yy_input (in_delimspec (chars "?~ x"))) /\
        (forall c rest, yy_input sc' = c :: rest -> is_space c = true) /\
        yy_start sc' = BOX /\
        ((valid_delimiters
            (strdup (yy_more (in_delimspec (chars "?~ x"))
                     ++ firstn n (yy_input (in_delimspec (chars "?~ x"))))) /\
          t = YDELIMSPEC /\
          sesc (yyextra sc') =
            nth 0 (strdup (yy_more (in_delimspec (chars "?~ x"))
                           ++ firstn n (yy_input (in_delimspec (chars "?~ x"))))) NUL /\
          sdel (yyextra sc') =
            nth 1 (strdup (yy_more (in_delimspec (chars "?~ x"))
                           ++ firstn n (yy_input (in_delimspec (chars "?~ x"))))) NUL) \/
         (~ valid_delimiters
              (strdup (yy_more (in_delimspec (chars "?~ x"))
                       ++ firstn n (yy_input (in_delimspec (chars "?~ x"))))) /\
          t = YUNREC /\ yyextra sc' = yyextra (in_delimspec (chars "?~ x"))))
  | SEof | SJam => False
  end.
Proof.
  apply (delimspec_token_whatever_validity (in_delimspec (chars "?~ x"))).
  - reflexivity.
  - discriminate.
Defined.


Lemma keywords_case_insensitive_witness :
  yy_find_action (candidates (set_input (chars "author x") (in_box 0 [])))
  = Some {| cand_rule := R_KEYWORD; cand_total := 6; cand_len := 6 |} /\
  exists t v1 v2 sc1 sc2,
    yy_step (set_input (chars "AuThOr x") (in_box 0 [])) = SToken t v1 sc1 /\
    yy_step (set_input (chars "author x") (in_box 0 [])) = SToken t v2 sc2 /\
    agree sc1 sc2 /\
    (R_KEYWORD <> R_KEYWORD -> v1 = v2) /\
    (R_KEYWORD = R_KEYWORD ->
       v1 = Some (val_ascii (strdup ([] ++ firstn 6 (chars "AuThOr x")))) /\
       v2 = Some (val_ascii (strdup ([] ++ firstn 6 (chars "author x"))))).
Proof.
  apply (keywords_case_insensitive (in_box 0 []) (chars "AuThOr x")
           (chars "author x")
           {| cand_rule := R_KEYWORD; cand_total := 6; cand_len := 6 |}).
  - repeat constructor.
  - not_in.
  - vm_compute. reflexivity.
  - reflexivity.
Defined.

Lemma one_shared_error_counter_witness :
  let sc := in_box 5 (DQUOTE :: chars "abc" ++ LF :: chars "x") in
  let sc' := count_error (Unterminated_String (DQUOTE :: chars "abc"))
               (after_line (chars "x") sc) in
  ((Some YUNREC = Some YBOX /\ yyerrcnt (yyextra sc') = 0%Z
    /\ yyerrlog sc' = yyerrlog sc) \/
   (exists d,
      (d = SAMPLE_block_must_not_be_empty \/
       exists yytext, d = Unterminated_String yytext) /\
      Some YUNREC = Some YUNREC /\
      yyerrcnt (yyextra sc') = int_wrap (yyerrcnt (yyextra sc) + 1) /\
      yyerrlog sc' = if (yyerrcnt (yyextra sc) <? yyerrcnt_limit)%Z
                     then yyerrlog sc ++ [d] else yyerrlog sc) \/
   (Some YUNREC <> Some YBOX /\ yyerrcnt (yyextra sc') = yyerrcnt (yyextra sc) /\
    limited (yyerrlog sc') = limited (yyerrlog sc))) /\
  (Some YUNREC = Some YEND -> yyerrcnt (yyextra sc') = yyerrcnt (yyextra sc)).
Proof.
  apply (one_shared_error_counter
           (in_box 5 (DQUOTE :: chars "abc" ++ LF :: chars "x")) (Some YUNREC)).
  vm_compute. reflexivity.
Defined.

(** * The scanner as a whole *)

(** ** What a match consumes *)

Lemma patterns_not_nullable : forallb pattern_not_nullable rules = true.
Proof. vm_compute. reflexivity. Qed.

(** A candidate takes at least one character of the input; with a trailing
    context, the character after its text is the newline. *)
Lemma try_rule_bounds sc r c :
  In r rules -> try_rule sc r = Some c ->
  1 <= cand_len c /\ cand_len c <= cand_total c /\
  cand_total c <= length (yy_input sc) /\
  matches (pat_re (rule_pat r)) (firstn (cand_len c) (yy_input sc)) /\
  (pat_eol (rule_pat r) = true ->
   skipn (cand_len c) (yy_input sc) = LF :: skipn (cand_total c) (yy_input sc)).
Proof.
  intros Hr Ht.
  destruct (try_rule_some sc r c Ht) as (_ & _ & _ & Hl & Hlen).
  apply longest_match_sound in Hl as [Hle Hm].
  assert (Hnn : nullable (pat_re (rule_pat r)) = false).
  { pose proof patterns_not_nullable as Hall. rewrite forallb_forall in Hall.
    apply Hall in Hr. unfold pattern_not_nullable in Hr.
    now apply negb_true_iff in Hr. }
  assert (Hne : forall u, matches (pat_re (rule_pat r)) u -> 1 <= length u).
  { intros u Hu. destruct u; [|simpl; lia].
    apply nullable_spec in Hu. congruence. }
  unfold pat_regex in Hm. destruct (pat_eol (rule_pat r)) eqn:Ee.
  - apply matches_eol in Hm as (v & Ev & Hv).
    assert (Hlv : length (firstn (cand_total c) (yy_input sc)) = length v + 1)
      by (rewrite Ev, length_app; reflexivity).
    rewrite length_firstn in Hlv.
    pose proof (Hne v Hv) as Hv1.
    pose proof (firstn_pred_snoc (yy_input sc) v (cand_total c) Hle Ev) as Ef.
    rewrite Hlen. rewrite Ef.
    assert (Hlen' : cand_total c - 1 = length v) by lia.
    repeat split; try lia; auto.
    intros _.
    rewrite <- (firstn_skipn (cand_total c) (yy_input sc)) at 1.
    rewrite Ev, Hlen', <- app_assoc, skipn_length_app. reflexivity.
  - rewrite Hlen. pose proof (Hne _ Hm) as H1.
    rewrite length_firstn in H1.
    repeat split; try lia; auto; discriminate.
Qed.
(** ** The start condition a rule ran in *)

Lemma sc_eqb_eq a b : sc_eqb a b = true -> a = b.
Proof. destruct a, b; simpl; congruence. Qed.

Lemma rule_start_In sc r c :
  In r rules -> try_rule sc r = Some c ->
  In (yy_start sc) (rule_starts_of (rule_name r)).
Proof.
  intros Hr Ht. unfold rule_starts_of. rewrite (rule_named_In r Hr).
  destruct (try_rule_some sc r c Ht) as (_ & Hs & _).
  apply existsb_exists in Hs as (s & Hin & E).
  apply sc_eqb_eq in E. now subst s.
Qed.

Lemma action_transition n yytext sc :
  In (yy_start sc) (rule_starts_of n) ->
  match yy_action n yytext sc with
  | Return t _ sc' => transition (yy_start sc) (Some t) (yy_start sc')
  | Continue sc' => transition (yy_start sc) None (yy_start sc')
  | REJECT => True
  end.
Proof.
  intros Hs. unfold transition.
  destruct n; vm_compute in Hs;
    repeat (destruct Hs as [Hs|Hs]; [symmetry in Hs|]); try contradiction;
    action_split yytext sc; try exact I;
    rewrite ?(proj1 (proj2 (proj2 (proj2 (proj2 (count_error_fields _ _))))));
    cbn; rewrite ?Hs; try (left; reflexivity); try tauto; intuition eauto.
Qed.
(** A step that returns or skips, as the action of the rule that ran. *)
Lemma yy_step_action sc t sc' :
  step_outcome (yy_step sc) = Some (t, sc') ->
  exists r c, In r rules /\ try_rule sc r = Some c /\
    ((exists tk v, t = Some tk /\
        yy_action (rule_name r) (yy_text c sc) (yy_before_action c sc)
        = Return tk v sc') \/
     (t = None /\
        yy_action (rule_name r) (yy_text c sc) (yy_before_action c sc)
        = Continue sc')).
Proof.
  intros H. pose proof (yy_step_rule sc) as Hs.
  destruct (yy_step sc) as [t0 v sc0|sc0| |]; simpl in H; try discriminate;
    injection H as <- <-; destruct Hs as (r & c & Hr & Ht & Ha);
    exists r, c; (split; [exact Hr|]); (split; [exact Ht|]).
  - left. eauto.
  - right. auto.
Qed.

Lemma before_action_start_In sc r c :
  In r rules -> try_rule sc r = Some c ->
  In (yy_start (yy_before_action c sc)) (rule_starts_of (rule_name r)).
Proof.
  intros Hr Ht. rewrite (proj1 (before_action_fields c sc)).
  now apply (rule_start_In sc r c).
Qed.

(** X1. The start condition changes only along the moves the rules spell
    out with [BEGIN]: a box definition is entered by the [box] token and
    left by the [end] token; the sample block, the shape list, the elastic
    list and the delimiter specification are entered from a box definition
    by their keyword and all lead back to it; the parent state is entered
    from the top level and leads back to it. *)
Theorem start_condition_transitions sc t sc' :
  step_outcome (yy_step sc) = Some (t, sc') ->
  transition (yy_start sc) t (yy_start sc').
Proof.
  intros H. destruct (yy_step_action sc t sc' H) as (r & c & Hr & Ht & Ha).
  pose proof (action_transition (rule_name r) (yy_text c sc)
                (yy_before_action c sc) (before_action_start_In sc r c Hr Ht)) as Hx.
  rewrite (proj1 (before_action_fields c sc)) in Hx.
  destruct Ha as [(tk & v & -> & Ea)|[-> Ea]]; rewrite Ea in Hx; exact Hx.
Qed.

Lemma action_value n yytext sc :
  match yy_action n yytext sc with
  | Return t v _ => value_fits t v
  | _ => True
  end.
Proof.
  destruct n; action_split yytext sc; try exact I; cbn; eauto.
Qed.

(** X2. Each token comes with the member of [yylval] its rule stores, and
    the tokens of the rules that store nothing come with none. *)
Theorem token_value_kinds sc t v sc' :
  yy_step sc = SToken t v sc' -> value_fits t v.
Proof.
  intros H. pose proof (yy_step_rule sc) as Hs. rewrite H in Hs.
  destruct Hs as (r & c & _ & _ & Ha).
  pose proof (action_value (rule_name r) (yy_text c sc) (yy_before_action c sc)) as Hv.
  now rewrite Ha in Hv.
Qed.

(** ** What the scanner keeps between two matches *)

Lemma default_delimiters_valid :
  In DQUOTE LEX_SDELIM /\ BACKSLASH <> DQUOTE.
Proof. split; [now left | discriminate]. Qed.

Lemma action_inv n yytext sc :
  yy_more sc = [] ->
  (yy_start sc <> INITIAL -> yy_start sc <> PARENT -> delimiters_valid sc) ->
  In (yy_start sc) (rule_starts_of n) ->
  match yy_action n yytext sc with
  | Return _ _ sc' | Continue sc' => scanner_inv sc'
  | REJECT => True
  end.
Proof.
  intros Hm Hd Hs.
  set (Q := fun d e : ascii => In d LEX_SDELIM /\ e <> d).
  assert (Hdef : Q DQUOTE BACKSLASH) by apply default_delimiters_valid.
  assert (Hval : forall s, valid_delimiters s -> Q (nth 1 s NUL) (nth 0 s NUL)).
  { intros s (_ & Hne & Hin). split; assumption. }
  assert (Hold : yy_start sc <> INITIAL -> yy_start sc <> PARENT ->
                 Q (sdel (yyextra sc)) (sesc (yyextra sc))) by exact Hd.
  assert (Hinv : forall sc',
            (yy_start sc' <> SAMPLE -> yy_more sc' = []) ->
            (yy_start sc' <> INITIAL -> yy_start sc' <> PARENT ->
             Q (sdel (yyextra sc')) (sesc (yyextra sc'))) ->
            scanner_inv sc').
  { intros sc' H1 H2. split; assumption. }
  clearbody Q. clear Hd.
  destruct n; vm_compute in Hs;
    repeat (destruct Hs as [Hs|Hs];
            [symmetry in Hs;
             match type of Hs with _ = ?b => change (yy_start sc = b) in Hs end|]);
    try contradiction;
    try (assert (Hd' : Q (sdel (yyextra sc)) (sesc (yyextra sc)))
           by (apply Hold; rewrite Hs; discriminate));
    action_split yytext sc; try exact I;
    apply Hinv;
    rewrite ?(proj1 (proj2 (count_error_fields _ _))),
            ?(proj1 (proj2 (proj2 (count_error_fields _ _)))),
            ?(proj1 (proj2 (proj2 (proj2 (proj2 (count_error_fields _ _)))))),
            ?(proj2 (proj2 (proj2 (proj2 (proj2 (proj2 (proj2 (count_error_fields _ _))))))));
    cbn; rewrite ?Hs, ?Hm; cbn;
    try (intros _; reflexivity); try (intros E; now elim E);
    try (intros _ _; assumption); try (intros E _; now elim E);
    try (intros _ E; now elim E); try (intros _ _; now apply Hval);
    try exact Hold.
Qed.
Lemma scanner_inv_step sc t sc' :
  scanner_inv sc -> step_outcome (yy_step sc) = Some (t, sc') -> scanner_inv sc'.
Proof.
  intros [Hm Hd] H.
  destruct (yy_step_action sc t sc' H) as (r & c & Hr & Ht & Ha).
  destruct (before_action_fields c sc) as (Es & Ee & _ & _ & Em).
  pose proof (action_inv (rule_name r) (yy_text c sc) (yy_before_action c sc) Em)
    as Hx.
  assert (Hd0 : yy_start (yy_before_action c sc) <> INITIAL ->
                yy_start (yy_before_action c sc) <> PARENT ->
                delimiters_valid (yy_before_action c sc)).
  { unfold delimiters_valid. rewrite Es, Ee. exact Hd. }
  specialize (Hx Hd0 (before_action_start_In sc r c Hr Ht)).
  destruct Ha as [(tk & v & -> & Ea)|[-> Ea]]; rewrite Ea in Hx; exact Hx.
Qed.

Lemma scanner_inv_init input : scanner_inv (yy_init input).
Proof.
  split; cbn; [reflexivity | intros E; now elim E].
Qed.

(** X3. Along a scan, text is kept by [yymore] in the sample block only,
    and inside a box definition the string delimiter is always a character
    of [LEX_SDELIM] that differs from the escape character: whatever the
    input does, whatever the delimiter specifications are. *)
Theorem scanner_inv_kept n : forall sc,
  scanner_inv sc -> scanner_inv (snd (yy_steps n sc)).
Proof.
  induction n as [|n IH]; intros sc Hinv; [exact Hinv|].
  cbn [yy_steps].
  destruct (step_outcome (yy_step sc)) as [[t sc']|] eqn:E; [|exact Hinv].
  specialize (IH sc' (scanner_inv_step sc t sc' Hinv E)).
  destruct (yy_steps n sc') as [ts sc'']. exact IH.
Qed.

(** ** Every step consumes input *)

Lemma action_keeps_input n yytext sc :
  n <> R_STRING -> n <> R_SAMPLE_ENDS_LINE ->
  match yy_action n yytext sc with
  | Return _ _ sc' | Continue sc' =>
      yy_input sc' = yy_input sc /\ yy_at_bol sc' = yy_at_bol sc
  | REJECT => True
  end.
Proof.
  intros H1 H2. destruct n; try congruence; action_split yytext sc;
    cbn; auto.
Qed.

Lemma string_loop_less esc del : forall fuel str p rl q s less,
  string_loop fuel esc del str p rl q = Some (Terminated s less) ->
  (0 <= q)%Z -> (2 <= less)%Z.
Proof.
  induction fuel as [|fuel IH]; intros str p rl q s less H Hq;
    cbn [string_loop] in H; [discriminate|].
  destruct (Ascii.eqb (nth p str NUL) NUL); [discriminate|].
  destruct (Ascii.eqb (nth p str NUL) esc).
  - destruct (Ascii.eqb _ NUL); [discriminate|].
    apply IH in H; lia.
  - destruct (Ascii.eqb (nth p str NUL) del).
    + injection H as _ <-. lia.
    + apply IH in H; lia.
Qed.

(** The string rule gives back all but at least two characters of its
    text, or nothing. *)
Lemma string_action_state yytext sc :
  match string_action yytext sc with
  | Return _ _ sc' =>
      yy_at_bol sc' = yy_at_bol sc /\
      (yy_input sc' = yy_input sc \/
       exists n, 2 <= n /\ yy_input sc' = skipn n yytext ++ yy_input sc)
  | Continue _ => False
  | REJECT => True
  end.
Proof.
  unfold string_action. destruct (negb _); [exact I|].
  destruct (scan_string _ _ _) as [[str less|]|] eqn:E.
  - unfold scan_string in E. apply string_loop_less in E; [|lia].
    cbn. split; [reflexivity|]. right. exists (Z.to_nat less). split; [lia|].
    reflexivity.
  - destruct (count_error_fields (Unterminated_String yytext) sc)
      as (_ & _ & _ & _ & _ & Ei & Eb & _). auto.
  - destruct (count_error_fields (Unterminated_String yytext) sc)
      as (_ & _ & _ & _ & _ & Ei & Eb & _). auto.
Qed.

(** The sample rule gives back its text from the terminator on. *)
Lemma sample_action_state yytext sc :
  exists t v sc', sample_action yytext sc = Return t v sc' /\
    yy_at_bol sc' = yy_at_bol sc /\
    yy_input sc' =
      skipn (skip_trailing yytext (length yytext - 1) - 2 - 1) yytext
      ++ yy_input sc.
Proof.
  unfold sample_action. destruct (btrim _ _) as [sample len].
  destruct (0 <? len).
  - do 3 eexists. split; [reflexivity|]. split; reflexivity.
  - do 3 eexists. split; [reflexivity|].
    destruct (count_error_fields SAMPLE_block_must_not_be_empty
                (yyless (skip_trailing yytext (length yytext - 1) - 2 - 1) yytext sc))
      as (_ & _ & _ & _ & _ & Ei & Eb & _).
    rewrite Ei, Eb. split; reflexivity.
Qed.
Lemma skip_trailing_ends pre kw tr :
  spells kw "ends" -> Forall (fun c => is_trailing c = true) tr ->
  skip_trailing (pre ++ kw ++ tr) (length (pre ++ kw ++ tr) - 1) - 2 - 1
  = length pre.
Proof.
  intros Hkw Htr.
  destruct (spells_ends kw Hkw) as (k0 & k1 & k2 & k3 & -> & _ & _ & Hk3 & _).
  replace (pre ++ [k0; k1; k2; k3] ++ tr)
    with ((pre ++ [k0; k1; k2]) ++ k3 :: tr)
    by (now rewrite <- app_assoc).
  replace (length ((pre ++ [k0; k1; k2]) ++ k3 :: tr) - 1)
    with (length (pre ++ [k0; k1; k2]) + length tr)
    by (rewrite !length_app; cbn [length]; lia).
  rewrite skip_trailing_spec by auto.
  rewrite length_app. cbn [length]. lia.
Qed.

Lemma ends_line_rule_named r :
  In r rules -> rule_name r = R_SAMPLE_ENDS_LINE -> r = ends_line_rule.
Proof.
  intros Hr En. apply rule_named_In in Hr. rewrite En in Hr.
  vm_compute in Hr. now injection Hr as <-.
Qed.

Lemma before_action_bol c sc :
  yy_text c sc <> [] ->
  yy_at_bol (yy_before_action c sc) = Ascii.eqb (last (yy_text c sc) NUL) LF.
Proof.
  intros Hne. unfold yy_before_action.
  destruct (yy_text c sc) as [|a y] eqn:E; [congruence|]. reflexivity.
Qed.

Lemma string_rule_starts s :
  In s (rule_starts_of R_STRING) -> s = BOX \/ s = SHAPES.
Proof. vm_compute. intuition. Qed.

(** X4. Every step uses up input.  Counting two for each character left
    and one for the beginning-of-line flag, a step that returns or skips
    leaves strictly less than it found: a match takes at least one
    character, the string rule gives back less than it took, and the sample
    rule, which may give back all it took, can only run at the beginning of
    a line and leaves the scanner inside the line. *)
Theorem yy_step_progress sc t sc' :
  (yy_start sc <> SAMPLE -> yy_more sc = []) ->
  step_outcome (yy_step sc) = Some (t, sc') ->
  yy_left sc' < yy_left sc.
Proof.
  intros Hmore H.
  destruct (yy_step_action sc t sc' H) as (r & c & Hr & Ht & Ha).
  destruct (try_rule_bounds sc r c Hr Ht) as (H1 & H2 & Htot & Hmatch & _).
  destruct (before_action_fields c sc) as (_ & _ & _ & Ei & _).
  assert (Hlen : length (yy_input (yy_before_action c sc))
                 = length (yy_input sc) - cand_len c).
  { rewrite Ei. apply length_skipn. }
  pose proof (rule_start_In sc r c Hr Ht) as Hst.
  set (y := yy_text c sc) in *. set (sc0 := yy_before_action c sc) in *.
  assert (Hres : exists res, yy_action (rule_name r) y sc0 = res /\
            match res with
            | Return _ _ s | Continue s => s = sc'
            | REJECT => False
            end).
  { destruct Ha as [(tk & v & _ & Ea)|[_ Ea]]; rewrite Ea;
      eexists; (split; [reflexivity|reflexivity]). }
  clear Ha. destruct Hres as (res & Ea & Hres).
  unfold yy_left.
  destruct (rule_id_eq_dec (rule_name r) R_STRING) as [En|En];
    [|destruct (rule_id_eq_dec (rule_name r) R_SAMPLE_ENDS_LINE) as [En'|En']].
  - (* the string rule *)
    rewrite En in Hst, Ea. apply string_rule_starts in Hst.
    assert (Hm : yy_more sc = []).
    { apply Hmore. destruct Hst as [-> | ->]; discriminate. }
    cbn [yy_action] in Ea.
    pose proof (string_action_state y sc0) as Hs. rewrite Ea in Hs.
    destruct res as [tk v s|s|]; try contradiction. subst s.
    destruct Hs as [_ [Hin|(n & Hn & Hin)]]; rewrite Hin.
    + rewrite Hlen. destruct (yy_at_bol sc'), (yy_at_bol sc); lia.
    + rewrite length_app, Hlen, length_skipn.
      assert (Hy : length y = cand_len c).
      { unfold y, yy_text. rewrite Hm. cbn [app]. rewrite length_firstn. lia. }
      rewrite Hy. destruct (yy_at_bol sc'), (yy_at_bol sc); lia.
  - (* the sample rule *)
    pose proof (ends_line_rule_named r Hr En') as ->.
    destruct (try_rule_some sc ends_line_rule c Ht) as (_ & _ & Hbol & _).
    specialize (Hbol eq_refl). rewrite Hbol.
    cbn [ends_line_rule mk line rule_pat pat_re rule_name] in Hmatch, Ea.
    fold horizontal trailing in Hmatch.
    change (Seq [Star (Ccl false horizontal); Lit "ends"; Star (Ccl false trailing)])
      with ends_line_re in Hmatch.
    apply matches_ends_line in Hmatch as (ind & kw & tr & Em & Hind & Hkw & Htr).
    cbn [yy_action] in Ea.
    destruct (sample_action_state y sc0) as (tk & v & s & Es & Eb & Ein).
    rewrite Es in Ea. subst res. subst s.
    assert (Hy : y = (yy_more sc ++ ind) ++ kw ++ tr).
    { unfold y, yy_text. rewrite Em. now rewrite <- app_assoc. }
    rewrite Hy in Ein at 1 2. rewrite skip_trailing_ends in Ein by assumption.
    rewrite Hy in Ein. rewrite skipn_length_app in Ein.
    destruct (spells_ends kw Hkw) as (k0 & k1 & k2 & k3 & Ekw & _ & _ & Hk3 & HkLF & _).
    assert (Hlast : Ascii.eqb (last y NUL) LF = false).
    { rewrite Hy, last_app_nonempty by (rewrite Ekw; discriminate).
      apply Ascii.eqb_neq. intros E.
      assert (Hin : In LF (kw ++ tr)).
      { rewrite <- E. apply last_In. rewrite Ekw. discriminate. }
      apply in_app_or in Hin as [Hin|Hin]; [tauto|].
      now apply (trailing_not_LF_list tr Htr). }
    assert (Hne : y <> []).
    { rewrite Hy, Ekw. destruct (yy_more sc ++ ind); discriminate. }
    rewrite Eb. fold sc0. unfold sc0 at 1.
    rewrite (before_action_bol c sc Hne). fold y. rewrite Hlast.
    rewrite Ein, length_app, Hlen.
    assert (Hcl : cand_len c = length ind + length kw + length tr).
    { assert (E : length (firstn (cand_len c) (yy_input sc))
                  = length (ind ++ kw ++ tr)) by now rewrite Em.
      rewrite length_firstn, !length_app in E. lia. }
    rewrite length_app. lia.
  - (* the other rules *)
    pose proof (action_keeps_input (rule_name r) y sc0 En En') as Hk.
    rewrite Ea in Hk.
    destruct res as [tk v s|s|]; try contradiction; subst s;
      destruct Hk as [Hin Hb]; rewrite Hin, Hlen;
      destruct (yy_at_bol sc'), (yy_at_bol sc); lia.
Qed.
(** A step that returns no token has taken at least one character and
    given none back. *)
Lemma skip_step_shrinks sc sc' :
  yy_step sc = SSkip sc' -> length (yy_input sc') < length (yy_input sc).
Proof.
  intros H. pose proof (yy_step_rule sc) as Hs. rewrite H in Hs.
  destruct Hs as (r & c & Hr & Ht & Ha).
  destruct (try_rule_bounds sc r c Hr Ht) as (H1 & H2 & Htot & _).
  destruct (before_action_fields c sc) as (_ & _ & _ & Ei & _).
  destruct (rule_id_eq_dec (rule_name r) R_STRING) as [En|En];
    [|destruct (rule_id_eq_dec (rule_name r) R_SAMPLE_ENDS_LINE) as [En'|En']].
  - rewrite En in Ha. cbn [yy_action] in Ha.
    pose proof (string_action_state (yy_text c sc) (yy_before_action c sc)) as Hx.
    rewrite Ha in Hx. contradiction.
  - rewrite En' in Ha. cbn [yy_action] in Ha.
    destruct (sample_action_state (yy_text c sc) (yy_before_action c sc))
      as (tk & v & s & Es & _). congruence.
  - pose proof (action_keeps_input (rule_name r) (yy_text c sc)
                  (yy_before_action c sc) En En') as Hk.
    rewrite Ha in Hk. destruct Hk as [Hin _].
    rewrite Hin, Ei, length_skipn. lia.
Qed.

(** X5. A call of [yylex] returns: with one unit of fuel for each
    character of the input and one more, the loop over the rules that
    return no token (white space, comments, the characters of a sample
    block) ends in a token, at the end of the input or in the jam of
    [%option nodefault], never for want of fuel. *)
Theorem yylex_returns fuel : forall sc,
  length (yy_input sc) < fuel ->
  (exists t v sc', yylex fuel sc = LToken t v sc') \/
  (exists sc', yylex fuel sc = LEof sc' /\ yy_input sc' = []) \/
  yylex fuel sc = LJam.
Proof.
  induction fuel as [|fuel IH]; intros sc Hf; [lia|].
  cbn [yylex]. pose proof (yy_step_rule sc) as Hs.
  destruct (yy_step sc) as [t v sc'|sc'| |] eqn:E.
  - left. eauto.
  - apply IH. apply skip_step_shrinks in E. lia.
  - right. left. eauto.
  - right. right. reflexivity.
Qed.
(** ** Where the scanner gives up *)

Lemma rule_named_rules n r : rule_named n = Some r -> In r rules.
Proof.
  unfold rule_named. intros H. apply find_some in H. tauto.
Qed.

Lemma yy_run_after_reject sc : forall k cands c0,
  In c0 cands -> (forall c, In c cands -> cand_rule c <> R_STRING) ->
  yy_run k cands sc <> SJam.
Proof.
  intros k cands c0 Hin Hall.
  assert (Hne : cands <> []) by (intros ->; destruct Hin).
  destruct (yy_find_action cands) as [c|] eqn:Ef;
    [|now apply yy_find_action_some in Ef].
  pose proof (Hall c (yy_find_action_In _ _ Ef)) as Hc.
  assert (Hr : yy_do_action c sc <> REJECT).
  { unfold yy_do_action. intros E. now apply action_REJECT in E. }
  rewrite (yy_run_best k cands sc c Ef Hr).
  destruct (yy_do_action c sc); congruence.
Qed.

(** A candidate of a rule other than the string rule keeps the scanner
    going: the string rule is the only one that rejects, and it is set
    aside when it does. *)
Lemma yy_run_no_jam cands sc c0 :
  In c0 cands -> cand_rule c0 <> R_STRING ->
  yy_run (length cands) cands sc <> SJam.
Proof.
  intros Hin Hc0.
  destruct cands as [|a cs] eqn:Ec; [destruct Hin|]. rewrite <- Ec in *.
  assert (Hne : cands <> []) by (rewrite Ec; discriminate).
  replace (length cands) with (S (length cs)) by (rewrite Ec; reflexivity).
  clear Ec. cbn [yy_run].
  destruct (yy_find_action cands) as [c|] eqn:Ef;
    [|now apply yy_find_action_some in Ef].
  destruct (yy_do_action c sc) eqn:Ea; try discriminate.
  unfold yy_do_action in Ea. apply action_REJECT in Ea.
  apply (yy_run_after_reject sc _ _ c0).
  - apply filter_In. split; [assumption|].
    apply negb_true_iff. unfold rule_eqb.
    destruct (rule_id_eq_dec (cand_rule c0) (cand_rule c)); congruence.
  - intros c' Hc'. apply filter_In in Hc' as [_ Hc'].
    apply negb_true_iff in Hc'. unfold rule_eqb in Hc'.
    destruct (rule_id_eq_dec (cand_rule c') (cand_rule c)); congruence.
Qed.

Lemma candidate_of_match sc r k :
  In r rules -> active sc r = true -> k <= length (yy_input sc) ->
  matches (pat_regex (rule_pat r)) (firstn k (yy_input sc)) ->
  exists c, In c (candidates sc) /\ cand_rule c = rule_name r.
Proof.
  intros Hr Ha Hk Hm.
  destruct (try_rule_matches sc r k Ha Hk Hm) as (c & Hc).
  exists c. split; [now apply (candidates_intro sc r c)|].
  now destruct (try_rule_some sc r c Hc).
Qed.

Lemma matches_one_char neg rs c : ccl_mem neg rs c = true -> matches (Ccl neg rs) [c].
Proof. now constructor. Qed.

Lemma parent_live_CR bol :
  filter (first_live PARENT bol CR) rules = [parent_nl_rule].
Proof. destruct bol; vm_compute; reflexivity. Qed.

Lemma parent_nl_lone_CR rest :
  (forall rest', rest <> LF :: rest') ->
  longest_match (pat_regex (rule_pat parent_nl_rule)) (CR :: rest) = None.
Proof.
  intros H. unfold longest_match. cbn [longest].
  change (deriv CR (pat_regex (rule_pat parent_nl_rule))) with (Chr LF).
  cbn [is_void Chr nullable pat_regex rule_pat parent_nl_rule mk plain pat_eol
       pat_re Opt andb orb].
  destruct rest as [|c rest]; [reflexivity|]. cbn [longest].
  unfold Chr. cbn [nullable deriv]. rewrite chr_LF_mem.
  destruct (Ascii.eqb_spec c LF) as [->|Hc]; [now elim (H rest)|]. reflexivity.
Qed.

(** X6. The scanner gives up in one situation only: in [PARENT], on a
    carriage return that no newline follows.  Everywhere else some rule
    matches whatever character comes next; there, the file name rule
    excludes the carriage return and the newline rule needs the newline. *)
Theorem yy_step_jam sc :
  yy_step sc = SJam <-> yy_start sc = PARENT /\ lone_CR (yy_input sc).
Proof.
  split.
  - intros Hj.
    destruct (yy_input sc) as [|a i] eqn:Ei.
    { unfold yy_step in Hj. rewrite Ei in Hj. discriminate. }
    rewrite (yy_step_run sc a i Ei) in Hj.
    assert (Hcand : forall r k, In r rules -> active sc r = true ->
              rule_name r <> R_STRING ->
              k <= length (a :: i) ->
              matches (pat_regex (rule_pat r)) (firstn k (a :: i)) -> False).
    { intros r k Hr Ha Hn Hk Hm. rewrite <- Ei in Hk, Hm.
      destruct (candidate_of_match sc r k Hr Ha Hk Hm) as (c & Hc & En).
      apply (yy_run_no_jam (candidates sc) sc c Hc); congruence. }
    assert (H1 : 1 <= length (a :: i)) by (simpl; lia).
    assert (Hwhite : In white_rule rules)
      by (apply (rule_named_rules R_WHITE); vm_compute; reflexivity).
    assert (Hunrec : In unrec_rule rules)
      by (apply (rule_named_rules R_UNREC); vm_compute; reflexivity).
    assert (Hnl : In nl_rule rules)
      by (apply (rule_named_rules R_SAMPLE_NL); vm_compute; reflexivity).
    assert (Hany : In any_rule rules)
      by (apply (rule_named_rules R_SAMPLE_ANY); vm_compute; reflexivity).
    assert (Hdel : In delimspec_rule rules)
      by (apply (rule_named_rules R_DELIMSPEC); vm_compute; reflexivity).
    assert (Hfile : In filename_rule rules)
      by (apply (rule_named_rules R_FILENAME); vm_compute; reflexivity).
    assert (Hpnl : In parent_nl_rule rules)
      by (apply (rule_named_rules R_PARENT_NL); vm_compute; reflexivity).
    assert (Hgen : yy_start sc = INITIAL \/ yy_start sc = BOX \/
                   yy_start sc = SHAPES \/ yy_start sc = ELASTIC -> False).
    { intros Hs. destruct (Ascii.eqb_spec a LF) as [->|Ha].
      - apply (Hcand white_rule 1 Hwhite); auto; try discriminate.
        + unfold active. destruct Hs as [->|[->|[->| ->]]]; reflexivity.
        + apply MAltL. now apply matches_one_char.
      - apply (Hcand unrec_rule 1 Hunrec); auto; try discriminate.
        + unfold active. destruct Hs as [->|[->|[->| ->]]]; reflexivity.
        + apply matches_one_char. rewrite dot_mem.
          now rewrite (proj2 (Ascii.eqb_neq a LF) Ha). }
    destruct (yy_start sc) eqn:Es; try (exfalso; apply Hgen; auto; fail).
    + (* SAMPLE *)
      exfalso. destruct (Ascii.eqb_spec a LF) as [->|Ha].
      * apply (Hcand nl_rule 1 Hnl); auto; try discriminate.
        -- unfold active. rewrite Es. reflexivity.
        -- now apply matches_one_char.
      * apply (Hcand any_rule 1 Hany); auto; try discriminate.
        -- unfold active. rewrite Es. reflexivity.
        -- apply matches_one_char. rewrite dot_mem.
           now rewrite (proj2 (Ascii.eqb_neq a LF) Ha).
    + (* DELIMSPEC *)
      exfalso. destruct (is_space a) eqn:Ea.
      * apply (Hcand white_rule 1 Hwhite); auto; try discriminate.
        -- unfold active. rewrite Es. reflexivity.
        -- apply MAltL. apply matches_one_char. now rewrite blanks_mem.
      * apply (Hcand delimspec_rule 1 Hdel); auto; try discriminate.
        -- unfold active. rewrite Es. reflexivity.
        -- apply matches_plus_class. split; [discriminate|].
           repeat constructor. now rewrite non_blanks_mem, Ea.
    + (* PARENT *)
      split; [reflexivity|].
      destruct (Ascii.eqb_spec a LF) as [->|Ha].
      { exfalso. apply (Hcand parent_nl_rule 1 Hpnl); auto; try discriminate.
        - unfold active. rewrite Es. reflexivity.
        - apply (@MCat _ _ [] [LF]).
          + apply MAltR. constructor.
          + now apply matches_one_char. }
      destruct (Ascii.eqb_spec a CR) as [->|Hb].
      * exists i. split; [reflexivity|]. intros rest' ->.
        apply (Hcand parent_nl_rule 2 Hpnl); auto; try discriminate.
        -- unfold active. rewrite Es. reflexivity.
        -- simpl. lia.
        -- apply (@MCat _ _ [CR] [LF]).
           ++ apply MAltL. now apply matches_one_char.
           ++ now apply matches_one_char.
      * exfalso. apply (Hcand filename_rule 1 Hfile); auto; try discriminate.
        -- unfold active. rewrite Es. reflexivity.
        -- apply matches_plus_class. split; [discriminate|].
           repeat constructor.
           revert Ha Hb. clear.
           destruct a as [[] [] [] [] [] [] [] []]; vm_compute; congruence.
  - intros (Hs & rest & Hi & Hrest).
    rewrite (yy_step_run sc CR rest Hi), (candidates_live sc CR rest Hi).
    rewrite Hs, parent_live_CR. cbn [candidates_of].
    unfold try_rule.
    assert (Ha : active sc parent_nl_rule = true)
      by (unfold active; rewrite Hs; reflexivity).
    rewrite Ha, Hi, (parent_nl_lone_CR rest Hrest). reflexivity.
Qed.

(** ** A run of characters that the active rules cannot leave *)

Lemma all_ascii_In c : In c all_ascii.
Proof.
  unfold all_ascii. rewrite <- (ascii_nat_embedding c).
  apply in_map, in_seq. pose proof (nat_ascii_bounded c). lia.
Qed.

Lemma forallb_all_ascii (P : ascii -> bool) :
  forallb P all_ascii = true -> forall c, P c = true.
Proof.
  intros H c. rewrite forallb_forall in H. apply H, all_ascii_In.
Qed.

Lemma all_ascii_eq (f g : ascii -> bool) :
  forallb (fun c => Bool.eqb (f c) (g c)) all_ascii = true ->
  forall c, f c = g c.
Proof.
  intros H c. apply eqb_prop. exact (forallb_all_ascii _ H c).
Qed.

Lemma case_closed_check ok :
  forallb (fun c => Bool.eqb (ok (tolower c)) (ok c)
                    && Bool.eqb (ok (toupper c)) (ok c)) all_ascii = true ->
  case_closed ok.
Proof.
  intros H c. pose proof (forallb_all_ascii _ H c) as Hc. cbv beta in Hc.
  apply andb_true_iff in Hc as [H1 H2]. split; now apply eqb_prop.
Qed.

Lemma derivs_spec u : forall r w, matches (derivs r u) w <-> matches r (u ++ w).
Proof.
  induction u as [|c u IH]; intros r w; cbn [derivs app]; [reflexivity|].
  rewrite IH. apply deriv_spec.
Qed.

Lemma matchb_spec r u : matchb r u = true <-> matches r u.
Proof.
  unfold matchb. rewrite nullable_spec, derivs_spec. now rewrite app_nil_r.
Qed.

Lemma derivs_ci u1 u2 :
  ci_eq u1 u2 -> forall r, derivs r u1 = derivs r u2.
Proof.
  induction 1 as [|a b u1 u2 E _ IH]; intros r; [reflexivity|].
  cbn [derivs]. now rewrite (deriv_ci a b r E), IH.
Qed.

Lemma chars_from_In n : forall lo c,
  (lo <= code c)%N -> (code c < lo + N.of_nat n)%N -> In c (chars_from n lo).
Proof.
  induction n as [|n IH]; intros lo c H1 H2; [lia|].
  cbn [chars_from]. destruct (N.eq_dec lo (code c)) as [E|E].
  - left. rewrite E. apply ascii_N_embedding.
  - right. apply IH; lia.
Qed.

Lemma in_range_chars lo hi c :
  in_range lo hi c = true -> In c (range_chars lo hi).
Proof.
  unfold in_range, range_chars. intros H.
  apply andb_true_iff in H as [H1 H2]. apply N.leb_le in H1, H2.
  apply chars_from_In; [assumption|]. lia.
Qed.

Lemma confined_spec ok r u :
  case_closed ok ->
  matches r u -> confined ok r = true -> Forall (fun c => ok c = true) u.
Proof.
  intros Hcc.
  induction 1 as [|neg rs c Hc|r s u v _ IHu _ IHv|r s u _ IH|r s u _ IH
                 | r | r u v _ IHu _ IHv]; cbn [confined]; intros Hf.
  - constructor.
  - constructor; [|constructor]. destruct neg.
    + pose proof (forallb_all_ascii _ Hf c) as H. cbv beta in H.
      now rewrite Hc in H.
    + unfold ccl_mem, in_ranges in Hc. cbn [xorb] in Hc.
      apply existsb_exists in Hc as ([lo hi] & Hin & Hc). cbn [fst snd] in Hc.
      rewrite forallb_forall in Hf. specialize (Hf _ Hin). cbn [fst snd] in Hf.
      rewrite forallb_forall in Hf. destruct (Hcc c) as [Hl Hu].
      apply orb_true_iff in Hc as [Hc|Hc]; [apply orb_true_iff in Hc as [Hc|Hc]|];
        apply in_range_chars, Hf in Hc; congruence.
  - apply andb_true_iff in Hf as [H1 H2]. apply Forall_app. auto.
  - apply andb_true_iff in Hf as [H1 H2]. auto.
  - apply andb_true_iff in Hf as [H1 H2]. auto.
  - constructor.
  - apply Forall_app. auto.
Qed.

Lemma dead_on_spec first r c u :
  dead_on first r = true -> first c = true -> ~ matches r (c :: u).
Proof.
  intros Hd Hc Hm. pose proof (forallb_all_ascii _ Hd c) as H. cbv beta in H.
  rewrite Hc in H. cbn [implb] in H. apply is_void_true in H.
  apply deriv_spec in Hm. rewrite H in Hm. now apply matches_Void in Hm.
Qed.

Lemma tail_confined_spec ok first r w :
  case_closed ok ->
  matches r w -> tail_confined ok first r = true ->
  forall c u, w = c :: u -> first c = true -> Forall (fun x => ok x = true) u.
Proof.
  intros Hcc.
  induction 1 as [|neg rs c Hc|r s u v Hu IHu Hv _|r s u _ IH|r s u _ IH
                 | r | r u v Hu _ Hv _]; cbn [tail_confined]; intros Hf c0 u0 E Hc0.
  - discriminate.
  - injection E as _ <-. constructor.
  - destruct (tail_confined ok first r && confined ok s) eqn:Hf'.
    + apply andb_true_iff in Hf' as [H1 H2].
      pose proof (confined_spec ok s v Hcc Hv H2) as Hv'.
      destruct u as [|a u]; cbn [app] in E.
      * subst v. now inversion Hv'.
      * injection E as -> <-. apply Forall_app. split; [|exact Hv'].
        now apply (IHu H1 c0 u).
    + exfalso. apply (dead_on_spec first _ c0 u0 Hf Hc0). rewrite <- E.
      now constructor.
  - apply andb_true_iff in Hf as [H1 H2]. eauto.
  - apply andb_true_iff in Hf as [H1 H2]. eauto.
  - discriminate.
  - destruct (confined ok r) eqn:Hf'.
    + assert (Hall : Forall (fun c => ok c = true) (u ++ v)).
      { apply (confined_spec ok (Star r) (u ++ v) Hcc); [|exact Hf'].
        now constructor. }
      rewrite E in Hall. now inversion Hall.
    + exfalso. apply (dead_on_spec first _ c0 u0 Hf Hc0). rewrite <- E.
      now constructor.
Qed.

Lemma active_active_in sc r :
  active sc r = active_in (yy_start sc) (yy_at_bol sc) r.
Proof. reflexivity. Qed.

(** No rule matches beyond the run. *)
Lemma run_bound ok first sc c w' rest r k :
  case_closed ok -> first c = true ->
  yy_input sc = c :: w' ++ rest ->
  Forall (fun x => ok x = true) w' -> stops ok rest ->
  run_confined ok first (yy_start sc) (yy_at_bol sc) = true ->
  In r rules -> active sc r = true -> k <= length (yy_input sc) ->
  matches (pat_regex (rule_pat r)) (firstn k (yy_input sc)) ->
  k <= S (length w').
Proof.
  intros Hcc Hc Hinput Hrun Hstop Hconf Hr Ha Hk Hm.
  destruct (Nat.le_gt_cases k (S (length w'))) as [Hle|Hgt]; [assumption|exfalso].
  unfold run_confined in Hconf. rewrite forallb_forall in Hconf.
  specialize (Hconf r Hr). cbv beta in Hconf.
  rewrite <- active_active_in, Ha in Hconf.
  rewrite Hinput in Hm, Hk.
  destruct k as [|k]; [lia|]. cbn [firstn] in Hm.
  pose proof (tail_confined_spec ok first _ _ Hcc Hm Hconf _ _ eq_refl Hc) as Hall.
  destruct rest as [|x rest'].
  - rewrite app_nil_r in Hk. cbn [length] in Hk. lia.
  - cbn in Hstop. rewrite firstn_app in Hall.
    apply Forall_app in Hall as [_ Hall].
    destruct (k - length w') as [|j] eqn:Ej; [lia|].
    cbn [firstn] in Hall. inversion Hall; subst. congruence.
Qed.

(** The candidates that take the whole run are those of the rules that
    match it. *)
Lemma try_rule_whole ok first sc c w' rest r :
  case_closed ok -> first c = true ->
  yy_input sc = c :: w' ++ rest ->
  Forall (fun x => ok x = true) w' -> stops ok rest ->
  run_confined ok first (yy_start sc) (yy_at_bol sc) = true ->
  In r rules ->
  match try_rule sc r with
  | Some cand =>
      cand_rule cand = rule_name r /\
      cand_total cand <= S (length w') /\
      (cand_total cand =? S (length w'))
      = (active sc r && matchb (pat_regex (rule_pat r)) (c :: w'))
  | None => (active sc r && matchb (pat_regex (rule_pat r)) (c :: w')) = false
  end.
Proof.
  intros Hcc Hc Hinput Hrun Hstop Hconf Hr.
  assert (Hfirst : firstn (S (length w')) (yy_input sc) = c :: w').
  { rewrite Hinput. apply (firstn_length_app (c :: w') rest). }
  assert (Hlw : S (length w') <= length (yy_input sc)).
  { rewrite Hinput. cbn [length]. rewrite length_app. lia. }
  destruct (try_rule sc r) as [cand|] eqn:Et.
  - destruct (try_rule_some sc r cand Et) as (Hn & Hs & Hb & Hl & _).
    assert (Ha : active sc r = true).
    { unfold active. rewrite Hs. destruct (pat_bol (rule_pat r)); [|reflexivity].
      now rewrite Hb. }
    pose proof (longest_match_sound _ _ _ Hl) as [Hk Hm].
    pose proof (run_bound ok first sc c w' rest r _ Hcc Hc Hinput Hrun Hstop Hconf Hr Ha Hk Hm)
      as Hle.
    split; [assumption|]. split; [assumption|]. rewrite Ha. cbn [andb].
    destruct (Nat.eqb_spec (cand_total cand) (S (length w'))) as [E|E].
    + symmetry. apply matchb_spec. rewrite E, Hfirst in Hm. exact Hm.
    + symmetry. apply not_true_is_false. intros Hmb. apply matchb_spec in Hmb.
      rewrite <- Hfirst in Hmb.
      pose proof (longest_match_max _ _ _ _ Hl Hlw Hmb). lia.
  - destruct (active sc r) eqn:Ha; [|reflexivity]. cbn [andb].
    apply not_true_is_false. intros Hmb. apply matchb_spec in Hmb.
    rewrite <- Hfirst in Hmb.
    destruct (try_rule_matches sc r _ Ha Hlw Hmb) as (cand & E). congruence.
Qed.

(** Of the candidates, the first that reaches the greatest length wins. *)
Lemma yy_find_action_first_max m : forall cands,
  (forall x, In x cands -> cand_total x <= m) ->
  (exists x, In x cands /\ cand_total x = m) ->
  yy_find_action cands = find (fun x => cand_total x =? m) cands.
Proof.
  induction cands as [|a cs IH]; intros Hle Hex.
  - destruct Hex as (x & [] & _).
  - cbn [yy_find_action find].
    destruct (Nat.eqb_spec (cand_total a) m) as [E|E].
    + destruct (yy_find_action cs) as [b|] eqn:Eb; [|reflexivity].
      apply yy_find_action_In in Eb.
      assert (Hb : cand_total b <= m) by (apply Hle; now right).
      rewrite E. apply Nat.leb_le in Hb. now rewrite Hb.
    + assert (Hex' : exists x, In x cs /\ cand_total x = m).
      { destruct Hex as (x & [<-|Hx] & Em); [congruence | eauto]. }
      rewrite (IH (fun x Hx => Hle x (or_intror Hx)) Hex').
      destruct (find (fun x => cand_total x =? m) cs) as [b|] eqn:Eb.
      * apply find_some in Eb as [_ Eb]. apply Nat.eqb_eq in Eb.
        assert (Ha : cand_total a <= m) by (apply Hle; now left).
        replace (cand_total b <=? cand_total a) with false; [reflexivity|].
        symmetry. apply Nat.leb_gt. lia.
      * destruct Hex' as (x & Hx & Em).
        apply (find_none _ _ Eb) in Hx. apply Nat.eqb_neq in Hx. congruence.
Qed.

(** On a run that the active rules cannot leave, the rule that runs is
    the first rule of the table that matches all of it. *)
Lemma yy_find_action_whole ok first sc c w' rest r :
  case_closed ok -> first c = true ->
  yy_input sc = c :: w' ++ rest ->
  Forall (fun x => ok x = true) w' -> stops ok rest ->
  run_confined ok first (yy_start sc) (yy_at_bol sc) = true ->
  whole_match (yy_start sc) (yy_at_bol sc) (c :: w') = Some r ->
  exists cand,
    yy_find_action (candidates sc) = Some cand /\
    cand_rule cand = rule_name r /\ cand_total cand = S (length w') /\
    try_rule sc r = Some cand.
Proof.
  intros Hcc Hc Hinput Hrun Hstop Hconf Hw.
  pose proof (fun r Hr => try_rule_whole ok first sc c w' rest r Hcc Hc Hinput Hrun Hstop Hconf Hr)
    as Hall.
  unfold whole_match in Hw. unfold candidates.
  assert (Hgen : forall rs, (forall r, In r rs -> In r rules) ->
            find (fun r => active_in (yy_start sc) (yy_at_bol sc) r
                           && matchb (pat_regex (rule_pat r)) (c :: w')) rs = Some r ->
            (forall x, In x (candidates_of sc rs) -> cand_total x <= S (length w')) /\
            exists cand,
              find (fun x => cand_total x =? S (length w')) (candidates_of sc rs)
              = Some cand /\
              cand_rule cand = rule_name r /\ try_rule sc r = Some cand).
  { induction rs as [|a rs IH]; intros Hsub Hf; [discriminate|].
    cbn [find] in Hf. cbn [candidates_of].
    pose proof (Hall a (Hsub a (or_introl eq_refl))) as Ha.
    rewrite <- active_active_in in Hf.
    destruct (try_rule sc a) as [ca|] eqn:Eta.
    - destruct Ha as (Hn & Hle & Heq). rewrite <- Heq in Hf.
      destruct (cand_total ca =? S (length w')) eqn:Et.
      + injection Hf as <-. split.
        * intros x [<-|Hx]; [assumption|].
          apply candidates_of_In in Hx as (r' & Hr' & Et').
          pose proof (Hall r' (Hsub r' (or_intror Hr'))) as H'. rewrite Et' in H'.
          tauto.
        * exists ca. cbn [find]. rewrite Et. auto.
      + destruct (IH (fun r Hr => Hsub r (or_intror Hr)) Hf) as (Hle' & cand & E1 & E2).
        split.
        * intros x [<-|Hx]; [assumption | now apply Hle'].
        * exists cand. cbn [find]. rewrite Et. auto.
    - rewrite Ha in Hf.
      exact (IH (fun r Hr => Hsub r (or_intror Hr)) Hf). }
  destruct (Hgen rules (fun r Hr => Hr) Hw) as (Hle & cand & Ef & En & Et).
  exists cand. pose proof (find_some _ _ Ef) as [Hin Em]. apply Nat.eqb_eq in Em.
  split; [|auto].
  rewrite (yy_find_action_first_max (S (length w'))); eauto.
Qed.

Lemma whole_match_rule st bol w r :
  whole_match st bol w = Some r ->
  In r rules /\ active_in st bol r = true /\
  matches (pat_regex (rule_pat r)) w.
Proof.
  unfold whole_match. intros H. apply find_some in H as [Hr H].
  apply andb_true_iff in H as [Ha Hm]. apply matchb_spec in Hm. auto.
Qed.

(** The same for the step, when the rule has no trailing context: its
    action runs on the run, with the rest as the input. *)
Lemma yy_step_whole ok first sc c w' rest r :
  case_closed ok -> first c = true ->
  yy_input sc = c :: w' ++ rest ->
  Forall (fun x => ok x = true) w' -> stops ok rest ->
  run_confined ok first (yy_start sc) (yy_at_bol sc) = true ->
  whole_match (yy_start sc) (yy_at_bol sc) (c :: w') = Some r ->
  pat_eol (rule_pat r) = false -> rule_name r <> R_STRING ->
  yy_step sc
  = step_of (yy_action (rule_name r) (yy_more sc ++ c :: w')
               (advance (c :: w') rest sc)).
Proof.
  intros Hcc Hc Hinput Hrun Hstop Hconf Hw He Hn.
  destruct (yy_find_action_whole ok first sc c w' rest r Hcc Hc Hinput Hrun Hstop Hconf Hw)
    as (cand & Hf & Hcn & Hct & Ht).
  destruct (try_rule_some sc r cand Ht) as (_ & _ & _ & _ & Hlen).
  rewrite He, Hct in Hlen.
  assert (Hact : yy_do_action cand sc
                 = yy_action (rule_name r) (yy_more sc ++ c :: w')
                     (advance (c :: w') rest sc)).
  { unfold yy_do_action, yy_before_action, yy_text. rewrite Hcn, Hlen, Hinput.
    change (c :: w' ++ rest) with ((c :: w') ++ rest).
    change (S (length w')) with (length (c :: w')).
    rewrite (firstn_length_app (c :: w') rest), (skipn_length_app (c :: w') rest).
    replace (0 <? length (yy_more sc ++ c :: w')) with true.
    - reflexivity.
    - symmetry. apply Nat.ltb_lt. rewrite length_app. cbn [length]. lia. }
  rewrite (yy_step_run sc c (w' ++ rest) Hinput).
  rewrite (yy_run_best _ _ sc cand Hf).
  - rewrite Hact. reflexivity.
  - rewrite Hact. intros E. now apply action_REJECT in E.
Qed.

(** * The tokens of words *)

Lemma letters_mem c : ccl_mem false letters c = is_letter c.
Proof. revert c. apply all_ascii_eq. vm_compute. reflexivity. Qed.

Lemma word_chars_mem c : ccl_mem false word_chars c = is_word_char c.
Proof. revert c. apply all_ascii_eq. vm_compute. reflexivity. Qed.

Lemma is_letter_tolower c : is_letter (tolower c) = is_letter c.
Proof. revert c. apply all_ascii_eq. vm_compute. reflexivity. Qed.

Lemma tolower_toupper c : tolower (toupper c) = tolower c.
Proof. destruct c as [[] [] [] [] [] [] [] []]; reflexivity. Qed.

Lemma word_byte_not_NUL c : is_word_byte c = true -> c <> NUL.
Proof. intros H ->. discriminate H. Qed.

Lemma letter_word_char c : is_letter c = true -> is_word_char c = true.
Proof. unfold is_word_char. now intros ->. Qed.

Lemma word_char_byte c : is_word_char c = true -> is_word_byte c = true.
Proof. unfold is_word_byte. now intros ->. Qed.

Lemma word_bytes_no_nul w :
  Forall (fun x => is_word_byte x = true) w -> no_nul w.
Proof.
  intros H Hin. rewrite Forall_forall in H. apply H in Hin. discriminate Hin.
Qed.

Lemma ci_eq_tolower w : ci_eq w (map tolower w).
Proof.
  unfold ci_eq. induction w as [|a w IH]; constructor; [|exact IH].
  now rewrite tolower_idem.
Qed.

Lemma whole_match_ci st bol w1 w2 :
  ci_eq w1 w2 -> whole_match st bol w1 = whole_match st bol w2.
Proof.
  intros E. unfold whole_match, matchb.
  induction rules as [|r rs IH]; [reflexivity|]. cbn [find].
  now rewrite (derivs_ci w1 w2 E), IH.
Qed.

Lemma word_byte_case_closed : case_closed is_word_byte.
Proof. apply case_closed_check. vm_compute. reflexivity. Qed.

(** In [INITIAL] and [BOX], after a letter or a byte of a multi-byte
    character, the rules go on with the characters of words only. *)
Lemma word_run_confined st bol :
  st = INITIAL \/ st = BOX ->
  run_confined is_word_byte word_start st bol = true.
Proof. intros [-> | ->]; destruct bol; vm_compute; reflexivity. Qed.

(** ** Keywords *)

Lemma keyword_table_check :
  forallb (fun k => keyword_check true k && keyword_check false k) keyword_table
  = true.
Proof. vm_compute. reflexivity. Qed.

Lemma letters_of_spelling w kw :
  map tolower w = kw -> forallb is_letter kw = true ->
  Forall (fun x => is_letter x = true) w.
Proof.
  intros <- H. rewrite forallb_forall in H. apply Forall_forall.
  intros x Hx. rewrite <- is_letter_tolower. apply H. now apply in_map.
Qed.

Lemma keyword_step sc st kw n w rest :
  In (st, kw, n) keyword_table ->
  yy_start sc = st -> yy_more sc = [] ->
  spells w kw -> stops is_word_byte rest ->
  yy_input sc = w ++ rest ->
  yy_step sc = step_of (yy_action n w (advance w rest sc)).
Proof.
  intros Hin Hs Hm Hw Hstop Hi.
  pose proof keyword_table_check as Hchk. rewrite forallb_forall in Hchk.
  specialize (Hchk _ Hin).
  assert (Hk : keyword_check (yy_at_bol sc) (st, kw, n) = true).
  { apply andb_true_iff in Hchk as [H1 H2]. now destruct (yy_at_bol sc). }
  clear Hchk. unfold keyword_check in Hk.
  apply andb_true_iff in Hk as [Hk Hwm]. apply andb_true_iff in Hk as [Hst Hl].
  pose proof (letters_of_spelling w (chars kw) Hw Hl) as Hlet.
  destruct (whole_match st (yy_at_bol sc) (chars kw)) as [r|] eqn:Ewm;
    [|discriminate].
  apply andb_true_iff in Hwm as [Hn He]. apply negb_true_iff in He.
  unfold rule_eqb in Hn.
  destruct (rule_id_eq_dec (rule_name r) n) as [En|]; [|discriminate].
  unfold spells in Hw. rewrite <- Hw in Ewm.
  rewrite <- (whole_match_ci st (yy_at_bol sc) w _ (ci_eq_tolower w)) in Ewm.
  destruct w as [|c w'].
  { exfalso. unfold whole_match in Ewm. apply find_some in Ewm as [Hr Ewm].
    apply andb_true_iff in Ewm as [_ Ewm]. unfold matchb in Ewm. cbn [derivs] in Ewm.
    pose proof (rules_each_not_nullable r Hr) as Hnn. unfold not_nullable in Hnn.
    apply negb_true_iff in Hnn. congruence. }
  apply Forall_cons_iff in Hlet as [Hc Hw'].
  rewrite <- En.
  rewrite (yy_step_whole is_word_byte word_start sc c w' rest r
             word_byte_case_closed); auto.
  - now rewrite Hm.
  - unfold word_start. now rewrite Hc.
  - eapply Forall_impl; [|exact Hw']. intros x Hx.
    now apply word_char_byte, letter_word_char.
  - apply word_run_confined.
    rewrite Hs. apply orb_true_iff in Hst as [Hst|Hst]; apply sc_eqb_eq in Hst; auto.
  - now rewrite Hs.
  - intros E. rewrite E in En. subst n.
    unfold keyword_table in Hin.
    repeat (destruct Hin as [Hin|Hin]; [discriminate Hin|]). destruct Hin.
Qed.

(** X7. A keyword that stands as a whole word runs the action of its own
    rule, however its letters are cased: in [INITIAL] the words parent and
    box, in [BOX] the twenty words of the box definition.  The word ends
    where the input ends or goes on with a character that is no letter,
    digit, underscore, hyphen or byte of a multi-byte character. *)
Theorem keyword_token sc st kw n w rest :
  In (st, kw, n) keyword_table ->
  yy_start sc = st -> yy_more sc = [] ->
  spells w kw -> stops is_word_byte rest ->
  yy_input sc = w ++ rest ->
  yy_step sc = step_of (yy_action n w (advance w rest sc)).
Proof. exact (keyword_step sc st kw n w rest). Qed.
(** ** Identifiers *)

Lemma in_range_one lo y : in_range lo lo y = true -> y = lo.
Proof.
  unfold in_range, code. intros H. apply andb_true_iff in H as [A B].
  apply N.leb_le in A, B.
  rewrite <- (ascii_N_embedding y), <- (ascii_N_embedding lo). f_equal. lia.
Qed.

Lemma one_mem_ci lo x : ccl_mem false [(lo, lo)] x = true -> tolower x = tolower lo.
Proof.
  unfold ccl_mem, in_ranges. cbn [xorb existsb fst snd]. rewrite orb_false_r.
  intros H.
  apply orb_true_iff in H as [H|H]; [apply orb_true_iff in H as [H|H]|];
    apply in_range_one in H.
  - now subst.
  - rewrite <- H. now rewrite tolower_idem.
  - rewrite <- H. now rewrite tolower_toupper.
Qed.

Lemma finite_lang_spec r : forall l w,
  finite_lang r = Some l -> matches r w -> In (map tolower w) l.
Proof.
  induction r as [| |neg rs|a IHa b IHb|a IHa b IHb|a IHa]; intros l w Hf Hm;
    cbn [finite_lang] in Hf.
  - now apply matches_Void in Hm.
  - injection Hf as <-. apply matches_Eps in Hm. subst w. now left.
  - destruct neg; [discriminate|].
    destruct rs as [|[lo hi] [|? ?]]; try discriminate.
    destruct (Ascii.eqb_spec lo hi) as [<-|]; [|discriminate].
    injection Hf as <-. apply matches_Ccl in Hm as (x & -> & Hx).
    apply one_mem_ci in Hx. cbn [map]. rewrite Hx. now left.
  - destruct (finite_lang a) as [la|]; [|discriminate].
    destruct (finite_lang b) as [lb|]; [|discriminate].
    injection Hf as <-. apply matches_Cat in Hm as (u & v & -> & Hu & Hv).
    apply in_flat_map. exists (map tolower u). split; [now apply IHa|].
    rewrite map_app. apply in_map. now apply IHb.
  - destruct (finite_lang a) as [la|]; [|discriminate].
    destruct (finite_lang b) as [lb|]; [|discriminate].
    injection Hf as <-. apply in_or_app.
    apply matches_Alt in Hm as [Hm|Hm]; [left; now apply IHa | right; now apply IHb].
  - discriminate.
Qed.

Lemma list_ascii_eqb_eq a b : list_ascii_eqb a b = true -> a = b.
Proof.
  unfold list_ascii_eqb. destruct (list_eq_dec ascii_dec a b); congruence.
Qed.

(** A rule that yields to words takes a word for itself only when the
    word is one of the keywords. *)
Lemma yields_to_words_spec kws st bol r c w' :
  yields_to_words kws st bol r = true -> is_letter c = true ->
  active_in st bol r && matchb (pat_regex (rule_pat r)) (c :: w') = true ->
  In (map tolower (c :: w')) kws.
Proof.
  unfold yields_to_words. intros Hy Hc Hm.
  apply andb_true_iff in Hm as [Ha Hm]. apply matchb_spec in Hm.
  rewrite Ha in Hy.
  destruct (dead_on is_letter (pat_regex (rule_pat r))) eqn:Hd.
  - exfalso. exact (dead_on_spec is_letter _ c w' Hd Hc Hm).
  - destruct (finite_lang (pat_regex (rule_pat r))) as [l|] eqn:El; [|discriminate].
    pose proof (finite_lang_spec _ l _ El Hm) as Hin.
    rewrite forallb_forall in Hy. apply Hy in Hin.
    apply existsb_exists in Hin as (k & Hk & E).
    apply list_ascii_eqb_eq in E. now rewrite E.
Qed.

Lemma find_rules_before (f : rule -> bool) n r0 : forall rs,
  (forall r, In r (rules_before n rs) -> f r = false) ->
  find (fun r => rule_eqb (rule_name r) n) rs = Some r0 ->
  f r0 = true ->
  find f rs = Some r0.
Proof.
  induction rs as [|a rs IH]; intros Hb Hn Hf; [discriminate|].
  cbn [find rules_before] in *.
  destruct (rule_eqb (rule_name a) n).
  - injection Hn as ->. now rewrite Hf.
  - rewrite (Hb a (or_introl eq_refl)). apply IH; auto.
    intros r Hr. apply Hb. now right.
Qed.

Lemma keywords_yield st bol :
  st = INITIAL \/ st = BOX ->
  forallb (yields_to_words (keywords st) st bol) (rules_before R_ASCII_ID rules)
  = true.
Proof. intros [-> | ->]; destruct bol; vm_compute; reflexivity. Qed.

Lemma matches_identifier c w' :
  is_letter c = true -> Forall (fun x => is_word_char x = true) w' ->
  matches PASCII_ID (c :: w').
Proof.
  intros Hc Hw. unfold PASCII_ID. apply (@MCat _ _ [c] w').
  - constructor. now rewrite letters_mem.
  - apply matches_star_class. eapply Forall_impl; [|exact Hw].
    intros x Hx. now rewrite word_chars_mem.
Qed.

(** X8. In [INITIAL] and [BOX], a word of letters, digits, underscores
    and hyphens that starts with a letter and is not a keyword of the start
    condition, in any casing, gives [ASCII_ID] with the word as its value,
    spelled as it is written; the keywords take precedence because their
    rules come first. *)
Theorem ascii_id_token sc c w' rest :
  yy_start sc = INITIAL \/ yy_start sc = BOX -> yy_more sc = [] ->
  yy_input sc = c :: w' ++ rest ->
  is_letter c = true -> Forall (fun x => is_word_char x = true) w' ->
  stops is_word_byte rest ->
  ~ In (map tolower (c :: w')) (keywords (yy_start sc)) ->
  yy_step sc
  = SToken ASCII_ID (Some (val_ascii (c :: w'))) (advance (c :: w') rest sc).
Proof.
  intros Hs Hm Hi Hc Hw Hstop Hkw.
  assert (Hbytes : Forall (fun x => is_word_byte x = true) w').
  { eapply Forall_impl; [|exact Hw]. intros x. apply word_char_byte. }
  assert (Hwm : whole_match (yy_start sc) (yy_at_bol sc) (c :: w')
                = Some ascii_id_rule).
  { unfold whole_match. apply (find_rules_before _ R_ASCII_ID).
    - intros r Hr. apply not_true_is_false. intros Hf.
      pose proof (keywords_yield (yy_start sc) (yy_at_bol sc) Hs) as Hy.
      rewrite forallb_forall in Hy.
      exact (Hkw (yields_to_words_spec _ _ _ r c w' (Hy r Hr) Hc Hf)).
    - vm_compute. reflexivity.
    - apply andb_true_iff. split.
      + destruct Hs as [-> | ->]; reflexivity.
      + apply matchb_spec. now apply matches_identifier. }
  rewrite (yy_step_whole is_word_byte word_start sc c w' rest ascii_id_rule
             word_byte_case_closed); auto.
  - rewrite Hm. cbn [app ascii_id_rule rule_name mk yy_action step_of].
    rewrite strdup_no_nul; [reflexivity|].
    apply word_bytes_no_nul. constructor; [|assumption].
    now apply word_char_byte, letter_word_char.
  - unfold word_start. now rewrite Hc.
  - now apply word_run_confined.
  - discriminate.
Qed.
(** ** Words with multi-byte characters *)

Lemma ascii_case_closed : case_closed is_ascii.
Proof. apply case_closed_check. vm_compute. reflexivity. Qed.

Lemma multibyte_yield st bol :
  st = INITIAL \/ st = BOX ->
  forallb (yields_to_multibyte st bol) (rules_before R_WORD rules) = true.
Proof. intros [-> | ->]; destruct bol; vm_compute; reflexivity. Qed.

Lemma white_rule_named r :
  In r rules -> rule_name r = R_WHITE -> r = white_rule.
Proof.
  intros Hr En. apply rule_named_In in Hr. rewrite En in Hr.
  vm_compute in Hr. now injection Hr as <-.
Qed.

Lemma rules_before_In n r : forall rs, In r (rules_before n rs) -> In r rs.
Proof.
  induction rs as [|a rs IH]; cbn [rules_before]; [tauto|].
  destruct (rule_eqb (rule_name a) n); [intros []|].
  intros [<-|H]; [now left | right; auto].
Qed.

Lemma word_confined : confined is_word_byte PWORD = true.
Proof. vm_compute. reflexivity. Qed.

Lemma word_starts : dead_on (fun c => negb (word_start c)) PWORD = true.
Proof. vm_compute. reflexivity. Qed.

Lemma word_step sc c w' rest :
  yy_start sc = INITIAL \/ yy_start sc = BOX -> yy_more sc = [] ->
  yy_input sc = c :: w' ++ rest ->
  matchb PWORD (c :: w') = true ->
  Exists (fun x => is_high x = true) (c :: w') -> c :: w' <> BOM ->
  stops is_word_byte rest ->
  yy_step sc = SToken WORD (Some (val_s (c :: w'))) (advance (c :: w') rest sc).
Proof.
  intros Hs Hm Hi Hw Hhigh Hbom Hstop.
  pose proof (proj1 (matchb_spec _ _) Hw) as Hmw.
  pose proof (confined_spec _ _ _ word_byte_case_closed Hmw word_confined) as Hall.
  apply Forall_cons_iff in Hall as [Hcb Hbytes].
  assert (Hc : word_start c = true).
  { destruct (word_start c) eqn:E; [reflexivity|exfalso].
    apply (dead_on_spec _ _ c w' word_starts); [now rewrite E | exact Hmw]. }
  assert (Hwm : whole_match (yy_start sc) (yy_at_bol sc) (c :: w')
                = Some word_rule).
  { unfold whole_match. apply (find_rules_before _ R_WORD).
    - intros r Hr. apply not_true_is_false. intros Hf.
      pose proof (multibyte_yield (yy_start sc) (yy_at_bol sc) Hs) as Hy.
      rewrite forallb_forall in Hy. specialize (Hy r Hr).
      apply andb_true_iff in Hf as [Ha Hf]. apply matchb_spec in Hf.
      unfold yields_to_multibyte in Hy. unfold rule_eqb in Hy.
      destruct (rule_id_eq_dec (rule_name r) R_WHITE) as [En|En].
      + apply rules_before_In in Hr.
        pose proof (white_rule_named r Hr En) as ->.
        apply matches_white in Hf as [(x & E & Hx)|E]; [|contradiction].
        injection E as -> _. revert Hc Hx. clear.
        destruct x as [[] [] [] [] [] [] [] []]; vm_compute; congruence.
      + rewrite Ha in Hy.
        destruct (confined is_ascii (pat_regex (rule_pat r))) eqn:Hcf.
        * pose proof (confined_spec _ _ _ ascii_case_closed Hf Hcf) as Hasc.
          apply Exists_exists in Hhigh as (x & Hx & Hh).
          rewrite Forall_forall in Hasc. apply Hasc in Hx.
          unfold is_ascii in Hx. rewrite Hh in Hx. discriminate.
        * exact (dead_on_spec _ _ c w' Hy Hc Hf).
    - vm_compute. reflexivity.
    - apply andb_true_iff. split; [|exact Hw].
      destruct Hs as [-> | ->]; reflexivity. }
  rewrite (yy_step_whole is_word_byte word_start sc c w' rest word_rule
             word_byte_case_closed); auto.
  - rewrite Hm. cbn [app word_rule rule_name mk yy_action step_of].
    rewrite strdup_no_nul; [reflexivity|].
    apply word_bytes_no_nul. now constructor.
  - now apply word_run_confined.
  - discriminate.
Qed.

(** X9. In [INITIAL] and [BOX], a word that holds a multi-byte character
    gives [WORD], with its bytes as the value: the [ASCII_ID] rule, which
    comes first, stops at the first byte that is not ASCII.  The byte order
    mark alone is the one such text that the white space rule takes. *)
Theorem word_token sc c w' rest :
  yy_start sc = INITIAL \/ yy_start sc = BOX -> yy_more sc = [] ->
  yy_input sc = c :: w' ++ rest ->
  matchb PWORD (c :: w') = true ->
  Exists (fun x => is_high x = true) (c :: w') -> c :: w' <> BOM ->
  stops is_word_byte rest ->
  yy_step sc = SToken WORD (Some (val_s (c :: w'))) (advance (c :: w') rest sc).
Proof. exact (word_step sc c w' rest). Qed.

(** * Numbers, shapes, symbols and white space *)

Lemma nothing_case_closed : case_closed nothing.
Proof. intros c. split; reflexivity. Qed.

Lemma stops_nothing rest : stops nothing rest.
Proof. destruct rest; reflexivity. Qed.

Lemma yields_on_spec first st bol r c w' :
  yields_on first st bol r = true -> first c = true ->
  active_in st bol r && matchb (pat_regex (rule_pat r)) (c :: w') = false.
Proof.
  unfold yields_on. intros Hy Hc.
  destruct (active_in st bol r); [|reflexivity]. cbn [andb].
  apply not_true_is_false. intros Hm. apply matchb_spec in Hm.
  exact (dead_on_spec first _ c w' Hy Hc Hm).
Qed.

(** The first rule that matches a text is the rule named [n] when the
    rules before it take no text that starts like it. *)
Lemma whole_match_named first st bol n r0 c w' :
  forallb (yields_on first st bol) (rules_before n rules) = true ->
  rule_named n = Some r0 -> first c = true ->
  active_in st bol r0 = true ->
  matches (pat_regex (rule_pat r0)) (c :: w') ->
  whole_match st bol (c :: w') = Some r0.
Proof.
  intros Hy Hn Hc Ha Hm. unfold whole_match.
  apply (find_rules_before _ n).
  - intros r Hr. rewrite forallb_forall in Hy.
    exact (yields_on_spec first st bol r c w' (Hy r Hr) Hc).
  - exact Hn.
  - rewrite Ha. cbn [andb]. now apply matchb_spec.
Qed.

(** ** Numbers *)

Lemma digit_case_closed : case_closed is_digit.
Proof. apply case_closed_check. vm_compute. reflexivity. Qed.

Lemma digits_mem c : ccl_mem false [("0"%char, "9"%char)] c = is_digit c.
Proof. revert c. apply all_ascii_eq. vm_compute. reflexivity. Qed.

Lemma signs_mem c : ccl_mem false (set "+-") c = is_sign c.
Proof. revert c. apply all_ascii_eq. vm_compute. reflexivity. Qed.

Lemma number_run_confined bol :
  run_confined is_digit number_start BOX bol = true.
Proof. destruct bol; vm_compute; reflexivity. Qed.

Lemma number_yield bol :
  forallb (yields_on number_start BOX bol) (rules_before R_NUMBER rules) = true.
Proof. destruct bol; vm_compute; reflexivity. Qed.

Lemma matches_digits ds :
  ds <> [] -> Forall (fun x => is_digit x = true) ds ->
  matches (Plus (Ccl false [("0"%char, "9"%char)])) ds.
Proof.
  intros Hne Hd. apply matches_plus_class. split; [assumption|].
  eapply Forall_impl; [|exact Hd]. intros x Hx. now rewrite digits_mem.
Qed.

Lemma int_wrap_small z :
  (- INT_MAX - 1 <= z <= INT_MAX)%Z -> int_wrap z = z.
Proof.
  unfold int_wrap, INT_MAX. intros H. rewrite Z.mod_small; lia.
Qed.

Lemma digit_val_nonneg c : is_digit c = true -> (0 <= digit_val c)%Z.
Proof.
  intros H. apply Z.leb_le. revert H.
  generalize (forallb_all_ascii
                (fun c => implb (is_digit c) (0 <=? digit_val c)%Z)
                ltac:(vm_compute; reflexivity) c).
  cbv beta. destruct (is_digit c); [intros E _; exact E | discriminate].
Qed.

Lemma decimal_nonneg ds :
  Forall (fun x => is_digit x = true) ds -> (0 <= decimal ds)%Z.
Proof.
  unfold decimal. intros Hd.
  assert (H : forall acc, (0 <= acc)%Z ->
            (0 <= fold_left (fun acc c => acc * 10 + digit_val c) ds acc)%Z).
  { induction Hd as [|c ds Hc _ IH]; intros acc Ha; [exact Ha|].
    cbn [fold_left]. apply IH. pose proof (digit_val_nonneg c Hc). lia. }
  apply H. lia.
Qed.

Lemma atoi_digits c ds :
  is_digit c = true -> atoi (c :: ds) = int_wrap (decimal (c :: ds)).
Proof.
  intros H. destruct c as [[] [] [] [] [] [] [] []];
    cbv in H; try discriminate H; reflexivity.
Qed.

(** X10. In [BOX], an optional sign and the digits that follow it, up to
    the first character that is no digit, give [YNUMBER] with the number
    they write in base ten as the value, as long as it is in the range of
    [int]. *)
Theorem number_token sc sign ds rest :
  yy_start sc = BOX -> yy_more sc = [] ->
  yy_input sc = sign ++ ds ++ rest ->
  sign = [] \/ sign = ["+"%char] \/ sign = ["-"%char] ->
  ds <> [] -> Forall (fun x => is_digit x = true) ds -> stops is_digit rest ->
  (decimal ds <= INT_MAX)%Z ->
  yy_step sc
  = SToken YNUMBER
      (Some (val_num (match sign with
                      | "-"%char :: _ => - decimal ds
                      | _ => decimal ds
                      end)%Z))
      (advance (sign ++ ds) rest sc).
Proof.
  intros Hs Hm Hi Hsign Hne Hd Hstop Hmax.
  pose proof (decimal_nonneg ds Hd) as Hpos.
  assert (Hv : atoi (sign ++ ds)
               = match sign with
                 | "-"%char :: _ => (- decimal ds)%Z
                 | _ => decimal ds
                 end).
  { unfold INT_MAX in Hmax. destruct Hsign as [->|[->| ->]]; cbn [app].
    - destruct ds as [|c ds']; [congruence|].
      rewrite atoi_digits by (now apply Forall_cons_iff in Hd as [Hc _]).
      apply int_wrap_small. unfold INT_MAX. lia.
    - cbn [atoi]. apply int_wrap_small. unfold INT_MAX. lia.
    - cbn [atoi]. apply int_wrap_small. unfold INT_MAX. lia. }
  rewrite <- Hv.
  assert (Hw : exists c w', sign ++ ds = c :: w' /\ number_start c = true /\
                 Forall (fun x => is_digit x = true) w').
  { destruct Hsign as [->|[->| ->]].
    - destruct ds as [|c ds']; [congruence|]. exists c, ds'.
      apply Forall_cons_iff in Hd as [Hc Hd]. unfold number_start.
      rewrite Hc. auto.
    - exists "+"%char, ds. auto.
    - exists "-"%char, ds. auto. }
  destruct Hw as (c & w' & Ew & Hc & Hw').
  assert (Hmatch : matches (pat_regex (rule_pat number_rule)) (sign ++ ds)).
  { cbn [number_rule mk plain rule_pat pat_regex pat_eol pat_re].
    constructor; [|now apply matches_digits].
    destruct Hsign as [->|[->| ->]].
    - apply MAltR. constructor.
    - apply MAltL. constructor. reflexivity.
    - apply MAltL. constructor. reflexivity. }
  rewrite app_assoc, Ew in Hi. cbn [app] in Hi. rewrite Ew in *.
  rewrite (yy_step_whole is_digit number_start sc c w' rest number_rule
             digit_case_closed); auto.
  - now rewrite Hm.
  - rewrite Hs. apply number_run_confined.
  - rewrite Hs.
    apply (whole_match_named number_start BOX (yy_at_bol sc) R_NUMBER number_rule
             c w' (number_yield (yy_at_bol sc)) eq_refl Hc eq_refl Hmatch).
  - discriminate.
Qed.

(** ** Shapes *)

Lemma compass_case_closed : case_closed is_compass.
Proof. apply case_closed_check. vm_compute. reflexivity. Qed.

Lemma shapes_run_confined st bol :
  st = SHAPES \/ st = ELASTIC ->
  run_confined is_compass is_compass st bol = true.
Proof. intros [-> | ->]; destruct bol; vm_compute; reflexivity. Qed.

Lemma shape_table_check st bol :
  st = SHAPES \/ st = ELASTIC ->
  forallb (shape_check st bol) shape_table = true.
Proof. intros [-> | ->]; destruct bol; vm_compute; reflexivity. Qed.

(** X11. In [SHAPES] and [ELASTIC], each of the sixteen shape names, in any
    casing, gives [SHAPE] with the shape of [shape_t] it names, provided
    the input does not go on with another of the letters n, e, s and w:
    then the longer name wins. *)
Theorem shape_token sc sh name w rest :
  In (sh, name) shape_table ->
  yy_start sc = SHAPES \/ yy_start sc = ELASTIC -> yy_more sc = [] ->
  spells w name -> stops is_compass rest ->
  yy_input sc = w ++ rest ->
  yy_step sc = SToken SHAPE (Some (val_shape sh)) (advance w rest sc).
Proof.
  intros Hin Hs Hm Hw Hstop Hi.
  pose proof (shape_table_check (yy_start sc) (yy_at_bol sc) Hs) as Hchk.
  rewrite forallb_forall in Hchk. specialize (Hchk _ Hin).
  unfold shape_check in Hchk. cbn [fst snd] in Hchk.
  apply andb_true_iff in Hchk as [Hl Hwm].
  destruct (whole_match (yy_start sc) (yy_at_bol sc) (chars name)) as [r|] eqn:Ewm;
    [|discriminate].
  apply andb_true_iff in Hwm as [Hn He]. apply negb_true_iff in He.
  unfold rule_eqb in Hn.
  destruct (rule_id_eq_dec (rule_name r) (R_SHAPE sh)) as [En|]; [|discriminate].
  unfold spells in Hw. rewrite <- Hw in Ewm, Hl.
  rewrite <- (whole_match_ci _ _ w _ (ci_eq_tolower w)) in Ewm.
  assert (Hcomp : Forall (fun x => is_compass x = true) w).
  { rewrite forallb_forall in Hl. apply Forall_forall. intros x Hx.
    destruct (compass_case_closed x) as [E _]. rewrite <- E.
    apply Hl. now apply in_map. }
  destruct w as [|c w'].
  { exfalso. apply whole_match_rule in Ewm as (Hr & _ & Hmt).
    apply nullable_spec in Hmt.
    pose proof (rules_each_not_nullable r Hr) as Hnn. unfold not_nullable in Hnn.
    apply negb_true_iff in Hnn. congruence. }
  apply Forall_cons_iff in Hcomp as [Hc Hw'].
  rewrite (yy_step_whole is_compass is_compass sc c w' rest r
             compass_case_closed); auto.
  - rewrite En. reflexivity.
  - now apply shapes_run_confined.
  - rewrite En. discriminate.
Qed.

(** ** Symbols *)

Lemma symbol_run_confined st bol :
  st = BOX \/ st = SHAPES \/ st = ELASTIC ->
  run_confined nothing is_symbol st bol = true.
Proof. intros [->|[->| ->]]; destruct bol; vm_compute; reflexivity. Qed.

Lemma symbol_chars c :
  is_symbol c = true ->
  c = ","%char \/ c = "("%char \/ c = ")"%char \/ c = "{"%char \/ c = "}"%char.
Proof.
  unfold is_symbol. cbn [chars list_ascii_of_string existsb].
  rewrite !orb_true_iff. intros [H|[H|[H|[H|[H|H]]]]];
    try discriminate H; apply Ascii.eqb_eq in H; auto.
Qed.

(** X12. In [BOX], [SHAPES] and [ELASTIC], each of the symbols [,(){}] is
    a token of its own, the character itself; the closing parenthesis ends
    the elastic list and the closing brace ends the shape list, and only
    they change the start condition. *)
Theorem symbol_token sc c rest :
  yy_start sc = BOX \/ yy_start sc = SHAPES \/ yy_start sc = ELASTIC ->
  yy_more sc = [] -> is_symbol c = true ->
  yy_input sc = c :: rest ->
  yy_step sc
  = SToken (CHAR c) None
      (if closes (yy_start sc) c then BEGIN BOX (advance [c] rest sc)
       else advance [c] rest sc).
Proof.
  intros Hs Hm Hc Hi.
  assert (Hwm : exists r, whole_match (yy_start sc) (yy_at_bol sc) [c] = Some r /\
                  pat_eol (rule_pat r) = false /\ rule_name r <> R_STRING /\
                  yy_action (rule_name r) [c] (advance [c] rest sc)
                  = Return (CHAR c) None
                      (if closes (yy_start sc) c
                       then BEGIN BOX (advance [c] rest sc)
                       else advance [c] rest sc)).
  { apply symbol_chars in Hc.
    destruct Hs as [Hs|[Hs|Hs]]; rewrite Hs;
      destruct Hc as [->|[->|[->|[->| ->]]]];
      destruct (yy_at_bol sc); eexists;
      (split; [vm_compute; reflexivity|]);
      (split; [reflexivity|]); (split; [discriminate|]); reflexivity. }
  destruct Hwm as (r & Hwm & He & Hn & Ha).
  rewrite (yy_step_whole nothing is_symbol sc c [] rest r nothing_case_closed);
    auto.
  - rewrite Hm. cbn [app]. rewrite Ha. reflexivity.
  - apply stops_nothing.
  - now apply symbol_run_confined.
Qed.

(** ** White space *)

Lemma white_run_confined st bol :
  st = INITIAL \/ st = BOX \/ st = DELIMSPEC \/ st = ELASTIC \/ st = SHAPES ->
  run_confined nothing is_space st bol = true.
Proof. intros [->|[->|[->|[->| ->]]]]; destruct bol; vm_compute; reflexivity. Qed.

Lemma space_chars c :
  is_space c = true -> c = SPACE \/ c = TAB \/ c = CR \/ c = LF.
Proof.
  unfold is_space. rewrite !orb_true_iff. intros [[[H|H]|H]|H];
    apply Ascii.eqb_eq in H; auto.
Qed.

(** X13. In [INITIAL], [BOX], [DELIMSPEC], [ELASTIC] and [SHAPES], a blank,
    a tab, a carriage return or a newline is skipped: no token, nothing
    changed but the position, and the beginning-of-line flag set by the
    newline only. *)
Theorem white_space_skipped sc c rest :
  yy_start sc = INITIAL \/ yy_start sc = BOX \/ yy_start sc = DELIMSPEC \/
  yy_start sc = ELASTIC \/ yy_start sc = SHAPES ->
  is_space c = true -> yy_input sc = c :: rest ->
  yy_step sc = SSkip (advance [c] rest sc).
Proof.
  intros Hs Hc Hi.
  assert (Hwm : whole_match (yy_start sc) (yy_at_bol sc) [c] = Some white_rule).
  { apply space_chars in Hc.
    destruct Hs as [Hs|[Hs|[Hs|[Hs|Hs]]]]; rewrite Hs;
      destruct Hc as [->|[->|[->| ->]]];
      destruct (yy_at_bol sc); vm_compute; reflexivity. }
  rewrite (yy_step_whole nothing is_space sc c [] rest white_rule
             nothing_case_closed); auto.
  - apply stops_nothing.
  - now apply white_run_confined.
  - discriminate.
Qed.

(** * The sample block, the parent line, comments *)

(** ** The content of a sample block *)

Lemma sample_run_confined bol :
  run_confined nothing (sample_plain bol) SAMPLE bol = true.
Proof. destruct bol; vm_compute; reflexivity. Qed.

Lemma sample_yield bol :
  forallb (yields_on (sample_plain bol) SAMPLE bol)
    (rules_before R_SAMPLE_ANY rules) = true.
Proof. destruct bol; vm_compute; reflexivity. Qed.

Lemma sample_newline_run bol :
  run_confined nothing (fun c => Ascii.eqb c LF) SAMPLE bol = true.
Proof. destruct bol; vm_compute; reflexivity. Qed.

Lemma length_snoc_ltb (m : list ascii) c :
  (1 <? length (m ++ [c])) = negb (match m with [] => true | _ => false end).
Proof.
  rewrite length_app. destruct m as [|a m]; [reflexivity|].
  cbn [length negb]. apply Nat.ltb_lt. lia.
Qed.

(** X14. Inside a sample block, every character that cannot begin the
    terminator is kept with [yymore] for the text of the block, and so is a
    newline, unless nothing has been kept yet: the newline after the
    [sample] keyword and the empty lines that follow it are dropped. *)
Theorem sample_content_kept sc c rest :
  yy_start sc = SAMPLE -> yy_input sc = c :: rest ->
  (sample_plain (yy_at_bol sc) c = true ->
   yy_step sc = SSkip (yymore (yy_more sc ++ [c]) (advance [c] rest sc))) /\
  (c = LF ->
   yy_step sc
   = SSkip (match yy_more sc with
            | [] => advance [c] rest sc
            | _ => yymore (yy_more sc ++ [c]) (advance [c] rest sc)
            end)).
Proof.
  intros Hs Hi. split.
  - intros Hc.
    assert (HcLF : Ascii.eqb c LF = false).
    { unfold sample_plain in Hc. apply andb_true_iff in Hc as [Hc _].
      apply andb_true_iff in Hc as [Hc _]. now apply negb_true_iff in Hc. }
    rewrite (yy_step_whole nothing (sample_plain (yy_at_bol sc)) sc c [] rest
               any_rule nothing_case_closed); auto.
    + apply stops_nothing.
    + rewrite Hs. apply sample_run_confined.
    + rewrite Hs.
      apply (whole_match_named (sample_plain (yy_at_bol sc)) SAMPLE (yy_at_bol sc)
               R_SAMPLE_ANY any_rule c [] (sample_yield (yy_at_bol sc)) eq_refl Hc).
      * destruct (yy_at_bol sc); reflexivity.
      * constructor. rewrite dot_mem. now rewrite HcLF.
    + discriminate.
  - intros ->.
    assert (Hwm : whole_match (yy_start sc) (yy_at_bol sc) [LF] = Some nl_rule).
    { rewrite Hs. destruct (yy_at_bol sc); vm_compute; reflexivity. }
    rewrite (yy_step_whole nothing (fun c => Ascii.eqb c LF) sc LF [] rest
               nl_rule nothing_case_closed); auto.
    + cbn [nl_rule rule_name mk yy_action]. rewrite length_snoc_ltb.
      destruct (yy_more sc); reflexivity.
    + apply stops_nothing.
    + rewrite Hs. apply sample_newline_run.
    + discriminate.
Qed.

(** ** The line of the parent keyword *)

Lemma name_char_case_closed : case_closed is_name_char.
Proof. apply case_closed_check. vm_compute. reflexivity. Qed.

Lemma name_chars_mem c : ccl_mem true [(CR, CR); (LF, LF)] c = is_name_char c.
Proof. revert c. apply all_ascii_eq. vm_compute. reflexivity. Qed.

Lemma parent_run_confined bol :
  run_confined is_name_char is_name_char PARENT bol = true.
Proof. destruct bol; vm_compute; reflexivity. Qed.

Lemma parent_yield bol :
  forallb (yields_on is_name_char PARENT bol) (rules_before R_FILENAME rules)
  = true.
Proof. destruct bol; vm_compute; reflexivity. Qed.

Lemma parent_live_LF bol :
  filter (first_live PARENT bol LF) rules = [parent_nl_rule].
Proof. destruct bol; vm_compute; reflexivity. Qed.

Lemma parent_nl_match nl rest :
  nl = [LF] \/ nl = [CR; LF] ->
  longest_match (pat_regex (rule_pat parent_nl_rule)) (nl ++ rest)
  = Some (length nl).
Proof.
  intros [-> | ->]; unfold longest_match; cbn [app longest length].
  - change (deriv LF (pat_regex (rule_pat parent_nl_rule))) with Eps.
    cbn [is_void]. apply longest_Eps.
  - change (deriv CR (pat_regex (rule_pat parent_nl_rule))) with (Chr LF).
    change (deriv LF (Chr LF)) with Eps.
    cbn [is_void Chr]. apply longest_Eps.
Qed.

(** X15. After the [parent] keyword, all that is left of the line is the
    file name, blanks and a number sign included: the run of characters up
    to the carriage return, the newline or the end of the input gives
    [FILENAME] and leads back to [INITIAL].  When the line ends at once,
    with a newline or a carriage return and a newline, no token is
    returned and the scanner is back in [INITIAL] as well. *)
Theorem parent_line sc :
  yy_start sc = PARENT ->
  (forall c w' rest,
     yy_input sc = c :: w' ++ rest ->
     Forall (fun x => is_name_char x = true) (c :: w') ->
     stops is_name_char rest ->
     exists v,
       yy_step sc = SToken FILENAME v (BEGIN INITIAL (advance (c :: w') rest sc))) /\
  (forall nl rest,
     nl = [LF] \/ nl = [CR; LF] -> yy_input sc = nl ++ rest ->
     yy_step sc = SSkip (BEGIN INITIAL (advance nl rest sc))).
Proof.
  intros Hs. split.
  - intros c w' rest Hi Hw Hstop.
    pose proof Hw as Hw0. apply Forall_cons_iff in Hw as [Hc Hw'].
    eexists.
    rewrite (yy_step_whole is_name_char is_name_char sc c w' rest filename_rule
               name_char_case_closed); auto.
    + reflexivity.
    + rewrite Hs. apply parent_run_confined.
    + rewrite Hs.
      apply (whole_match_named is_name_char PARENT (yy_at_bol sc) R_FILENAME
               filename_rule c w' (parent_yield (yy_at_bol sc)) eq_refl Hc eq_refl).
      apply matches_plus_class. split; [discriminate|].
      eapply Forall_impl; [|exact Hw0]. intros x Hx. now rewrite name_chars_mem.
    + discriminate.
  - intros nl rest Hnl Hi.
    assert (Hfirst : exists a i, nl ++ rest = a :: i /\ (a = LF \/ a = CR)).
    { destruct Hnl as [-> | ->]; do 2 eexists; (split; [reflexivity|]); auto. }
    destruct Hfirst as (a & i & Ea & Ha).
    assert (Hi' : yy_input sc = a :: i) by now rewrite Hi.
    rewrite (yy_step_run sc a i Hi'), (candidates_live sc a i Hi'), Hs.
    assert (Hlive : filter (first_live PARENT (yy_at_bol sc) a) rules
                    = [parent_nl_rule]).
    { destruct Ha as [-> | ->]; [apply parent_live_LF | apply parent_live_CR]. }
    rewrite Hlive. cbn [candidates_of]. unfold try_rule.
    assert (Hact : active sc parent_nl_rule = true)
      by (unfold active; rewrite Hs; reflexivity).
    rewrite Hact, Hi, (parent_nl_match nl rest Hnl).
    cbn [parent_nl_rule rule_pat rule_name mk plain pat_eol].
    set (c1 := {| cand_rule := R_PARENT_NL; cand_total := length nl;
                  cand_len := length nl |}).
    assert (Hdo : yy_do_action c1 sc
                  = Continue (BEGIN INITIAL (advance nl rest sc))).
    { unfold yy_do_action, yy_before_action, yy_text. cbn [c1 cand_rule cand_len].
      rewrite Hi, firstn_length_app, skipn_length_app.
      replace (0 <? length (yy_more sc ++ nl)) with true; [reflexivity|].
      symmetry. apply Nat.ltb_lt. rewrite length_app.
      destruct Hnl as [-> | ->]; cbn [length]; lia. }
    rewrite (yy_run_best _ _ sc c1); [| reflexivity |]; rewrite Hdo;
      [reflexivity | discriminate].
Qed.
(** ** Comments *)

Lemma comment_live st bol :
  st = INITIAL \/ st = BOX \/ st = SHAPES \/ st = ELASTIC ->
  filter (first_live st bol "#") rules = [comment_rule; unrec_rule].
Proof. intros [->|[->|[->| ->]]]; destruct bol; vm_compute; reflexivity. Qed.

Lemma comment_free : lf_free comment_re = true.
Proof. vm_compute. reflexivity. Qed.

Lemma matches_comment body :
  ~ In LF body -> matches comment_re ("#"%char :: body).
Proof.
  intros Hb. unfold comment_re. apply (@MCat _ _ ["#"%char] body).
  - constructor. reflexivity.
  - apply matches_star_class. apply Forall_forall. intros x Hx.
    rewrite dot_mem. apply negb_true_iff. apply Ascii.eqb_neq.
    intros ->. contradiction.
Qed.

(** X16. In [INITIAL], [BOX], [SHAPES] and [ELASTIC], a number sign opens a
    comment that runs to the end of the line: it is skipped without a
    token, and the newline is left for the next match. *)
Theorem comment_skipped sc body rest :
  yy_start sc = INITIAL \/ yy_start sc = BOX \/ yy_start sc = SHAPES \/
  yy_start sc = ELASTIC ->
  ~ In LF body ->
  yy_input sc = "#"%char :: body ++ LF :: rest ->
  yy_step sc = SSkip (after_line rest sc).
Proof.
  intros Hs Hb Hi.
  rewrite (yy_step_run sc _ _ Hi), (candidates_live sc _ _ Hi).
  rewrite (comment_live (yy_start sc) (yy_at_bol sc) Hs).
  assert (Ha1 : active sc comment_rule = true).
  { unfold active. destruct Hs as [->|[->|[->| ->]]]; reflexivity. }
  assert (Ha2 : active sc unrec_rule = true).
  { unfold active. destruct Hs as [->|[->|[->| ->]]]; reflexivity. }
  assert (Hln : ~ In LF ("#"%char :: body)).
  { intros [E|E]; [discriminate E | contradiction]. }
  cbn [candidates_of]. unfold try_rule. rewrite Ha1, Ha2, Hi.
  cbn [comment_rule unrec_rule rule_pat mk to_eol plain pat_regex pat_eol pat_re].
  fold comment_re.
  change ("#"%char :: body ++ LF :: rest) with (("#"%char :: body) ++ LF :: rest).
  rewrite (eol_match comment_re _ rest comment_free Hln (matches_comment body Hb)).
  change (("#"%char :: body) ++ LF :: rest) with ("#"%char :: body ++ LF :: rest).
  rewrite (dot_match "#" (body ++ LF :: rest)) by discriminate.
  cbn [rule_name comment_rule unrec_rule mk Nat.sub length].
  set (c1 := {| cand_rule := R_COMMENT; cand_total := S (S (length body));
                cand_len := S (length body) |}).
  set (c2 := {| cand_rule := R_UNREC; cand_total := 1; cand_len := 1 |}).
  assert (Hact : yy_do_action c1 sc = Continue (after_line rest sc)).
  { unfold yy_do_action, yy_before_action, yy_text. cbn [c1 cand_rule cand_len].
    rewrite Hi.
    change ("#"%char :: body ++ LF :: rest) with (("#"%char :: body) ++ LF :: rest).
    replace (S (length body)) with (length ("#"%char :: body)) by reflexivity.
    rewrite firstn_length_app, skipn_length_app.
    replace (0 <? length (yy_more sc ++ "#"%char :: body)) with true.
    - rewrite last_app_nonempty by discriminate.
      rewrite (last_not_LF body "#") by (auto; discriminate). reflexivity.
    - symmetry. apply Nat.ltb_lt. rewrite length_app. cbn [length]. lia. }
  rewrite (yy_run_best _ _ sc c1); [| reflexivity |]; rewrite Hact;
    [reflexivity | discriminate].
Qed.

(** ** The last line, when it has no newline *)

Lemma eol_no_newline re s :
  ~ In LF s -> longest_match (Cat re (Chr LF)) s = None.
Proof.
  intros Hs. apply longest_match_none. intros j Hj Hm.
  apply matches_eol in Hm as (v & E & _). apply Hs.
  rewrite <- (firstn_skipn j s). apply in_or_app. left.
  rewrite E. apply in_or_app. right. now left.
Qed.

Lemma opens_line_live st bol c :
  opens_line st c ->
  c <> LF /\
  exists r, filter (first_live st bol c) rules = [r; unrec_rule] /\
            pat_eol (rule_pat r) = true.
Proof.
  intros [[-> Hs]|[Hc Hs]].
  - split; [discriminate|]. exists comment_rule.
    rewrite (comment_live st bol Hs). auto.
  - split; [now apply sdelim_not_LF|]. exists string_rule.
    rewrite (string_live st bol c Hs Hc). auto.
Qed.

(** X17. The trailing context [$] needs its newline.  On a last line that
    does not end in one, neither the comment rule nor the string rule
    matches: the number sign, or the delimiter, is returned as [YUNREC] by
    itself, without a diagnostic, and the text after it is scanned as if it
    stood outside a comment or a string. *)
Theorem last_line_without_newline sc c body :
  opens_line (yy_start sc) c -> ~ In LF body ->
  yy_input sc = c :: body ->
  yy_step sc = SToken YUNREC None (past_char body sc).
Proof.
  intros Ho Hb Hi.
  destruct (opens_line_live (yy_start sc) (yy_at_bol sc) c Ho)
    as (HcLF & r & Hlive & He).
  rewrite (yy_step_run sc _ _ Hi), (candidates_live sc _ _ Hi), Hlive.
  assert (Ha2 : active sc unrec_rule = true).
  { unfold active.
    destruct Ho as [[_ [->|[->|[->| ->]]]]|[_ [-> | ->]]]; reflexivity. }
  assert (Hr : try_rule sc r = None).
  { unfold try_rule. destruct (active sc r); [|reflexivity].
    unfold pat_regex. rewrite He, Hi.
    rewrite eol_no_newline; [reflexivity|].
    intros [E|E]; [congruence | contradiction]. }
  cbn [candidates_of]. rewrite Hr. unfold try_rule. rewrite Ha2, Hi.
  cbn [unrec_rule rule_pat mk plain pat_regex pat_eol pat_re].
  rewrite (dot_match c body HcLF). cbn [rule_name].
  set (c2 := {| cand_rule := R_UNREC; cand_total := 1; cand_len := 1 |}).
  assert (Hact : yy_do_action c2 sc = Return YUNREC None (past_char body sc)).
  { unfold yy_do_action, yy_before_action, yy_text. cbn [c2 cand_rule cand_len].
    rewrite Hi. cbn [firstn skipn yy_action].
    replace (0 <? length (yy_more sc ++ [c])) with true.
    - rewrite last_snoc, (proj2 (Ascii.eqb_neq c LF) HcLF). reflexivity.
    - symmetry. apply Nat.ltb_lt. rewrite length_app. cbn [length]. lia. }
  rewrite (yy_run_best _ _ sc c2); [| reflexivity |]; rewrite Hact;
    [reflexivity | discriminate].
Qed.

(** ** A delimiter that is not in force *)

(** X18. A character of [LEX_SDELIM] opens a string only while it is the
    delimiter in force.  Any other one makes the string rule [REJECT] its
    match of the line: the character is returned as [YUNREC] by itself,
    without a diagnostic and with the error counter as it was, and the
    scan goes on right after it. *)
Theorem other_delimiter_rejected sc d body rest :
  yy_start sc = BOX \/ yy_start sc = SHAPES -> yy_more sc = [] ->
  In d LEX_SDELIM -> d <> sdel (yyextra sc) -> ~ In LF body ->
  yy_input sc = d :: body ++ LF :: rest ->
  yy_step sc = SToken YUNREC None (past_char (body ++ LF :: rest) sc).
Proof.
  intros Hs Hm Hin Hd Hlf Hi.
  rewrite (yy_step_run sc _ _ Hi), (candidates_live sc _ _ Hi).
  rewrite (string_live (yy_start sc) (yy_at_bol sc) d Hs Hin).
  assert (Ha1 : active sc string_rule = true).
  { unfold active. destruct Hs as [-> | ->]; reflexivity. }
  assert (Ha2 : active sc unrec_rule = true).
  { unfold active. destruct Hs as [-> | ->]; reflexivity. }
  destruct (sdelim_not_LF d Hin) as [HdLF _].
  cbn [candidates_of]. unfold try_rule. rewrite Ha1, Ha2, Hi.
  rewrite (string_rule_match d body rest Hin Hlf).
  cbn [unrec_rule rule_pat mk plain pat_regex pat_eol pat_re].
  rewrite (dot_match d (body ++ LF :: rest) HdLF).
  cbn [string_rule unrec_rule rule_pat rule_name mk to_eol pat_eol Nat.sub length].
  set (c1 := {| cand_rule := R_STRING; cand_total := S (S (length body));
                cand_len := S (length body) |}).
  set (c2 := {| cand_rule := R_UNREC; cand_total := 1; cand_len := 1 |}).
  assert (Hrej : yy_do_action c1 sc = REJECT).
  { unfold yy_do_action, yy_text. cbn [c1 cand_rule cand_len yy_action].
    rewrite Hi, Hm. cbn [app firstn nth].
    unfold string_action. cbn [nth].
    destruct (before_action_fields c1 sc) as (_ & Ee & _). rewrite Ee.
    rewrite (proj2 (Ascii.eqb_neq d (sdel (yyextra sc))) Hd). reflexivity. }
  assert (Hact : yy_do_action c2 sc
                 = Return YUNREC None (past_char (body ++ LF :: rest) sc)).
  { unfold yy_do_action, yy_before_action, yy_text. cbn [c2 cand_rule cand_len].
    rewrite Hi, Hm. cbn [app firstn skipn yy_action length Nat.ltb Nat.leb last].
    rewrite (proj2 (Ascii.eqb_neq d LF) HdLF). reflexivity. }
  cbn [length yy_run].
  assert (Hf : yy_find_action [c1; c2] = Some c1) by reflexivity.
  rewrite Hf, Hrej.
  assert (Hfil : filter (fun c' => negb (rule_eqb (cand_rule c') (cand_rule c1)))
                   [c1; c2] = [c2]) by reflexivity.
  rewrite Hfil.
  assert (Hf2 : yy_find_action [c2] = Some c2) by reflexivity.
  rewrite Hf2, Hact. reflexivity.
Qed.

(** ** The byte order mark *)

Lemma bom_whole_match st bol :
  st = INITIAL \/ st = BOX -> whole_match st bol BOM = Some white_rule.
Proof. intros [-> | ->]; destruct bol; vm_compute; reflexivity. Qed.

Lemma matches_bom_word w :
  Forall (fun x => is_word_char x = true) w -> matches PWORD (BOM ++ w).
Proof.
  intros Hw. unfold PWORD. constructor.
  - apply MAltR. apply matchb_spec. vm_compute. reflexivity.
  - induction Hw as [|x w Hx _ IH]; [constructor|].
    change (x :: w) with ([x] ++ w). constructor; [|exact IH].
    apply MAltL. constructor. now rewrite word_chars_mem.
Qed.

(** X19. In [INITIAL] and [BOX], a byte order mark is skipped as white
    space only when no word follows it at once.  Its three bytes are also a
    multi-byte character of [PWORD], so before a letter, a digit, an
    underscore or a hyphen the longer match wins and the mark becomes the
    beginning of a [WORD]: a file that opens with the mark and the keyword
    [box] or [parent] right after it does not give that keyword. *)
Theorem byte_order_mark sc w rest :
  yy_start sc = INITIAL \/ yy_start sc = BOX -> yy_more sc = [] ->
  yy_input sc = BOM ++ w ++ rest ->
  Forall (fun x => is_word_char x = true) w -> stops is_word_byte rest ->
  yy_step sc
  = match w with
    | [] => SSkip (advance BOM rest sc)
    | _ => SToken WORD (Some (val_s (BOM ++ w))) (advance (BOM ++ w) rest sc)
    end.
Proof.
  intros Hs Hm Hi Hw Hstop.
  assert (Eb : forall t, BOM ++ t
               = ascii_of_nat 239 :: [ascii_of_nat 187; ascii_of_nat 191] ++ t)
    by reflexivity.
  destruct w as [|x w'] eqn:Ew.
  - cbn [app] in Hi. rewrite Eb in Hi.
    rewrite (yy_step_whole is_word_byte word_start sc (ascii_of_nat 239)
               [ascii_of_nat 187; ascii_of_nat 191] rest white_rule
               word_byte_case_closed); auto;
      try (now apply word_run_confined); try (now apply bom_whole_match);
      try discriminate; repeat constructor.
  - rewrite <- Ew in *.
    assert (Hne : BOM ++ w <> BOM).
    { rewrite Ew. discriminate. }
    assert (Hmb : matchb PWORD (BOM ++ w) = true).
    { apply matchb_spec. now apply matches_bom_word. }
    rewrite Eb in Hi, Hne, Hmb |- *.
    change (ascii_of_nat 239 :: [ascii_of_nat 187; ascii_of_nat 191] ++ w ++ rest)
      with (ascii_of_nat 239 :: ([ascii_of_nat 187; ascii_of_nat 191] ++ w) ++ rest)
      in Hi.
    apply word_step; auto.
Qed.

(** * The buffers of the actions *)

(** ** The copy of the string rule *)

Lemma string_loop_in_bounds_ok esc del : forall fuel rest acc junk qcnt,
  no_nul rest ->
  string_loop_in_bounds fuel esc del (acc ++ rest ++ NUL :: junk) (length acc)
    (Z.of_nat (length rest)) qcnt = true.
Proof.
  induction fuel as [|fuel IH]; intros rest acc junk qcnt Hr; [reflexivity|].
  cbn [string_loop_in_bounds]. rewrite nth_after.
  destruct rest as [|c s]; [reflexivity|].
  apply no_nul_cons in Hr as [Hc Hs].
  cbn [hd app]. rewrite (proj2 (Ascii.eqb_neq c NUL) Hc).
  destruct (Ascii.eqb c esc).
  - rewrite Nat2Z.id.
    assert (Hb : (0 <=? Z.of_nat (length (c :: s)))%Z
                 && (S (length acc) + length (c :: s)
                     <=? length (acc ++ c :: s ++ NUL :: junk)) = true).
    { apply andb_true_iff. split; [apply Z.leb_le; lia|].
      apply Nat.leb_le. rewrite !length_app. cbn [length].
      rewrite length_app. cbn [length]. lia. }
    rewrite Hb. cbn [length]. rewrite memmove_left_after, nth_after.
    destruct s as [|c' s']; [reflexivity|].
    apply no_nul_cons in Hs as [Hc' Hs'].
    cbn [hd app]. rewrite (proj2 (Ascii.eqb_neq c' NUL) Hc').
    set (junk' := skipn _ _).
    replace (acc ++ c' :: s' ++ NUL :: junk')
      with ((acc ++ [c']) ++ s' ++ NUL :: junk')
      by (now rewrite <- app_assoc).
    replace (S (length acc)) with (length (acc ++ [c']))
      by (rewrite length_app; simpl; lia).
    match goal with
    | |- string_loop_in_bounds _ _ _ _ _ ?z _ = _ =>
        replace z with (Z.of_nat (length s')) by (cbn [length]; lia)
    end.
    now apply IH.
  - destruct (Ascii.eqb c del); [reflexivity|].
    replace (acc ++ c :: s ++ NUL :: junk)
      with ((acc ++ [c]) ++ s ++ NUL :: junk)
      by (now rewrite <- app_assoc).
    replace (S (length acc)) with (length (acc ++ [c]))
      by (rewrite length_app; simpl; lia).
    match goal with
    | |- string_loop_in_bounds _ _ _ _ _ ?z _ = _ =>
        replace z with (Z.of_nat (length s)) by (cbn [length]; lia)
    end.
    now apply IH.
Qed.

(** X20. On a text without a NUL byte, every [memmove] of the string rule
    stays inside the copy that [strdup] made: [rest_len] is the distance
    from [p] to the terminating NUL, which the call moves along.  A NUL
    byte in the line breaks this, as the example after the theorem shows:
    [yyleng] counts the bytes after it and [strdup] does not copy them. *)
Theorem string_memmove_in_bounds esc del yytext :
  yytext <> [] -> no_nul (tl yytext) ->
  scan_string_in_bounds esc del yytext = true.
Proof.
  intros Hne Hn. destruct yytext as [|d body]; [congruence|].
  unfold scan_string_in_bounds. cbn [tl length] in *.
  rewrite (strdup_no_nul body Hn).
  replace (Z.of_nat (S (length body)) - 1)%Z with (Z.of_nat (length body)) by lia.
  exact (string_loop_in_bounds_ok esc del _ body [] [] 0%Z Hn).
Qed.

(** The line: double quote, backslash, NUL, x, x.  The copy holds the
    backslash and its terminator; the first [memmove] is asked for four
    bytes. *)
Lemma nul_byte_overruns_string_copy :
  scan_string_in_bounds BACKSLASH DQUOTE
    [DQUOTE; BACKSLASH; NUL; "x"%char; "x"%char] = false.
Proof. vm_compute. reflexivity. Qed.

(** ** The copy of the sample rule *)

(** X21. On the text of the sample rule, that is what [yymore] kept and a
    line of blanks, the word ends and trailing blanks, without a NUL byte in
    what was kept: the loop over the trailing blanks stops on the last
    letter of the word, at least three characters into the text, so that
    [p -= 2] stays inside it, and the index at which the newline is written
    is that of the last character of the copy.  A NUL byte in the content
    breaks this, as the example after the theorem shows. *)
Theorem sample_copy_in_bounds more ind kw tr :
  no_nul more ->
  Forall (fun c => is_horizontal c = true) ind -> spells kw "ends" ->
  Forall (fun c => is_trailing c = true) tr ->
  let yytext := more ++ ind ++ kw ++ tr in
  sample_p yytext = length more + length ind + 3 /\
  is_trailing (nth (sample_p yytext) yytext NUL) = false /\
  sample_len yytext = length more + length ind /\
  length (sample_copy yytext) = sample_len yytext + 2.
Proof.
  intros Hm Hind Hkw Htr yytext.
  destruct (spells_ends kw Hkw) as (k0 & k1 & k2 & k3 & Ekw & Hk0 & _ & Hk3 & _).
  destruct (horizontal_list ind Hind) as [_ Hindn].
  set (content := more ++ ind).
  assert (Ey : yytext = content ++ [k0; k1; k2; k3] ++ tr).
  { unfold yytext, content. now rewrite Ekw, <- app_assoc. }
  assert (Hlc : length content = length more + length ind)
    by (unfold content; apply length_app).
  assert (Hp : sample_p yytext = length content + 3).
  { unfold sample_p. rewrite Ey.
    replace (content ++ [k0; k1; k2; k3] ++ tr)
      with ((content ++ [k0; k1; k2]) ++ k3 :: tr)
      by (now rewrite <- app_assoc).
    replace (length ((content ++ [k0; k1; k2]) ++ k3 :: tr) - 1)
      with (length (content ++ [k0; k1; k2]) + length tr)
      by (rewrite !length_app; cbn [length]; lia).
    rewrite skip_trailing_spec by auto.
    rewrite length_app. reflexivity. }
  split; [lia|]. split.
  { rewrite Hp, Ey.
    replace (content ++ [k0; k1; k2; k3] ++ tr)
      with ((content ++ [k0; k1; k2]) ++ k3 :: tr)
      by (now rewrite <- app_assoc).
    replace (length content + 3) with (length (content ++ [k0; k1; k2]))
      by (rewrite length_app; reflexivity).
    rewrite nth_after. exact Hk3. }
  split; [unfold sample_len; lia|].
  unfold sample_copy, sample_len. rewrite Hp.
  replace (length content + 3 - 2) with (S (length content)) by lia.
  rewrite Ey.
  replace (content ++ [k0; k1; k2; k3] ++ tr)
    with ((content ++ [k0]) ++ k1 :: ([k2; k3] ++ tr))
    by (now rewrite <- app_assoc).
  replace (S (length content)) with (length (content ++ [k0]))
    by (rewrite length_app; simpl; lia).
  rewrite poke_after, strdup_poke.
  - rewrite !length_app. cbn [length]. lia.
  - apply no_nul_app; [now apply no_nul_app|]. intros [E|[]]. congruence.
Qed.

(** What was kept: NUL, a, b, c, a newline; then the terminator.  The copy
    ends at the NUL byte and the newline is written at index 5. *)
Lemma nul_byte_overruns_sample_copy :
  let yytext := NUL :: chars "abc" ++ LF :: chars "ends" in
  sample_len yytext = 5 /\ length (sample_copy yytext) = 1.
Proof. vm_compute. split; reflexivity. Qed.

(** ** The buffer of report_state_char *)

Lemma is_print_spec c :
  is_print c = true -> c <> NUL /\ c <> LF.
Proof. intros H. split; intros ->; discriminate H. Qed.

(** X22. [report_state_char] formats three characters, two quotes around
    the character or a question mark in its place, which with the
    terminator fill the four bytes it allocates, whatever the character;
    none of the three is a NUL or a newline.  Without [LEXER_DEBUG] neither
    function writes anything, and with it [report_state] writes one line
    that ends in a newline. *)
Theorem report_state_char_buffer c :
  length (quoted c) + 1 = 4 /\
  strlen (quoted c) = 3 /\
  Forall (fun x => is_print x = true) (quoted c) /\
  (forall symbol expected,
     report_state_char false symbol c expected = [] /\
     last (report_state_char true symbol c expected) NUL = LF /\
     length (report_state_char true symbol c expected)
     = Nat.max 7 (length symbol) + 2 + 3 + 10 + length expected + 1).
Proof.
  assert (Hq : Forall (fun x => is_print x = true) (quoted c)).
  { unfold quoted. destruct (is_print c) eqn:E; repeat constructor; exact E. }
  split; [reflexivity|]. split.
  { unfold strlen. rewrite strdup_no_nul; [reflexivity|].
    intros Hin. rewrite Forall_forall in Hq. apply Hq in Hin. discriminate Hin. }
  split; [exact Hq|].
  intros symbol expected. split; [reflexivity|]. split.
  - unfold report_state_char, report_state.
    rewrite !app_assoc. apply last_snoc.
  - unfold report_state_char, report_state, pad_left.
    rewrite !length_app, repeat_length. cbn [length chars list_ascii_of_string quoted].
    lia.
Qed.

(** ** The values of shape_t *)

(** X23. The sixteen enumerators of [shape_t] are the indices below
    [NUM_SHAPES], each once; the shape rules of the scanner name every one
    of them, so a [SHAPE] token always carries an index of a table of
    [NUM_SHAPES] entries.  Four sides of [SHAPES_PER_SIDE] shapes that
    share their [NUM_CORNERS] corners make up that number. *)
Theorem shape_enumeration :
  (forall s, shape_index s < NUM_SHAPES) /\
  (forall s t, shape_index s = shape_index t -> s = t) /\
  (forall n, n < NUM_SHAPES ->
     exists s name, shape_index s = n /\ In (s, name) shape_table /\
                    In (shape_rule s name) rules) /\
  (forall sc v sc', yy_step sc = SToken SHAPE v sc' ->
     exists s, v = Some (val_shape s) /\ shape_index s < NUM_SHAPES) /\
  NUM_SIDES * (SHAPES_PER_SIDE - CORNERS_PER_SIDE) + NUM_CORNERS = NUM_SHAPES.
Proof.
  assert (Hlt : forall s, shape_index s < NUM_SHAPES).
  { intros s. destruct s; cbn; unfold NUM_SHAPES; lia. }
  split; [exact Hlt|]. split.
  { intros s t. destruct s, t; cbn; intros E; try reflexivity; discriminate E. }
  split.
  { intros n Hn. unfold NUM_SHAPES in Hn.
    assert (Hnth : exists k, nth_error shape_table n = Some k /\
                             shape_index (fst k) = n).
    { do 16 (destruct n as [|n]; [eexists; split; reflexivity|]). lia. }
    destruct Hnth as ([s name] & Hk & Hi). exists s, name.
    apply nth_error_In in Hk. split; [exact Hi|]. split; [exact Hk|].
    unfold shape_table in Hk. cbn [In] in Hk.
    repeat (destruct Hk as [Hk|Hk];
            [injection Hk as <- <-;
             match goal with
             | |- In (shape_rule ?x _) rules =>
                 apply (rule_named_rules (R_SHAPE x)); vm_compute; reflexivity
             end|]).
    destruct Hk. }
  split; [|reflexivity].
  intros sc v sc' H. pose proof (yy_step_rule sc) as Hs. rewrite H in Hs.
  destruct Hs as (r & c & _ & _ & Ha).
  pose proof (action_value (rule_name r) (yy_text c sc) (yy_before_action c sc)) as Hv.
  rewrite Ha in Hv. cbn in Hv. destruct Hv as (s & ->). eauto.
Qed.

(** ** A delimiter specification and the strings after it *)

(** X24. What [change_string_delimiters] accepts, the string rule
    recognises: after a call that returned 0, a line that opens with the
    new delimiter and holds it again, with neither of the two characters in
    between, gives [STRING] with the text in between. *)
Theorem accepted_delimiter_opens_strings sc spec sc' body tail rest :
  change_string_delimiters sc spec = (sc', 0%Z) ->
  yy_start sc' = BOX \/ yy_start sc' = SHAPES -> yy_more sc' = [] ->
  no_nul (body ++ tail) -> ~ In LF (body ++ tail) ->
  ~ In (nth 0 spec NUL) body -> ~ In (nth 1 spec NUL) body ->
  yy_input sc' = nth 1 spec NUL :: body ++ nth 1 spec NUL :: tail ++ LF :: rest ->
  yy_step sc'
  = SToken STRING (Some (val_s body))
      (set_input (tail ++ LF :: rest) (after_line rest sc')).
Proof.
  intros Hc Hs Hm Hn Hlf He Hd Hi.
  destruct (change_string_delimiters_cases sc spec)
    as [((_ & Hne & Hin) & E)|(_ & d & E & _)]; rewrite E in Hc;
    [|discriminate].
  injection Hc as <-.
  set (sc' := set_extra _ sc) in *.
  assert (Hn' : no_nul (body ++ nth 1 spec NUL :: tail)).
  { intros H. apply in_app_or in H as [H|[H|H]].
    - apply Hn. apply in_or_app. now left.
    - destruct (sdelim_not_LF _ Hin) as [_ Hnul]. congruence.
    - apply Hn. apply in_or_app. now right. }
  assert (Hlf' : ~ In LF (body ++ nth 1 spec NUL :: tail)).
  { intros H. apply in_app_or in H as [H|[H|H]].
    - apply Hlf. apply in_or_app. now left.
    - destruct (sdelim_not_LF _ Hin) as [HLF _]. congruence.
    - apply Hlf. apply in_or_app. now right. }
  rewrite (yy_step_string sc' (nth 1 spec NUL) (body ++ nth 1 spec NUL :: tail) rest
             Hs Hm eq_refl Hin Hn' Hlf').
  - change (sesc (yyextra sc')) with (nth 0 spec NUL).
    rewrite unescape_plain by assumption. reflexivity.
  - rewrite Hi, <- app_assoc. reflexivity.
Qed.

(** ** Writing a text as a string *)

Lemma unescape_escape esc del : forall s tail,
  esc <> del ->
  unescape esc del (escape esc del s ++ del :: tail) = Some (s, tail).
Proof.
  intros s tail Hne. induction s as [|c s IH].
  - cbn [escape flat_map app unescape].
    rewrite (proj2 (Ascii.eqb_neq del esc)) by congruence.
    now rewrite Ascii.eqb_refl.
  - unfold escape in *. cbn [flat_map].
    destruct (Ascii.eqb c esc) eqn:Ee; cbn [orb].
    + cbn [app unescape]. rewrite Ascii.eqb_refl, IH. reflexivity.
    + destruct (Ascii.eqb c del) eqn:Ed.
      * cbn [app unescape]. rewrite Ascii.eqb_refl, IH. reflexivity.
      * cbn [app unescape]. rewrite Ee, Ed, IH. reflexivity.
Qed.

Lemma In_escape esc del x : forall s,
  In x (escape esc del s) -> x = esc \/ In x s.
Proof.
  induction s as [|c s IH]; [intros []|].
  unfold escape in *. cbn [flat_map]. intros H.
  apply in_app_or in H as [H|H].
  - destruct (_ || _); cbn [In] in H.
    + destruct H as [<-|[<-|[]]]; [now left | right; now left].
    + destruct H as [<-|[]]. right. now left.
  - destruct (IH H) as [E|Hin]; [now left | right; now right].
Qed.

(** X25. Every text without a newline and a NUL byte can be written as a
    string, and the scanner reads it back: with an escape character put
    before each delimiter and each escape character of the text, and the
    result put between delimiters, the step gives [STRING] with the text
    itself, and what follows the closing delimiter on the line is left to
    scan. *)
Theorem escaped_text_read_back sc body tail rest :
  yy_start sc = BOX \/ yy_start sc = SHAPES -> yy_more sc = [] ->
  delimiters_valid sc ->
  sesc (yyextra sc) <> NUL -> sesc (yyextra sc) <> LF ->
  no_nul (body ++ tail) -> ~ In LF (body ++ tail) ->
  yy_input sc
  = sdel (yyextra sc) :: escape (sesc (yyextra sc)) (sdel (yyextra sc)) body
    ++ sdel (yyextra sc) :: tail ++ LF :: rest ->
  yy_step sc
  = SToken STRING (Some (val_s body))
      (set_input (tail ++ LF :: rest) (after_line rest sc)).
Proof.
  intros Hs Hm [Hin Hne] Hnul Hlf Hn Hl Hi.
  set (esc := sesc (yyextra sc)) in *. set (d := sdel (yyextra sc)) in *.
  destruct (sdelim_not_LF d Hin) as [HdLF HdNUL].
  assert (Hfree : forall x, x <> esc -> x <> d -> ~ In x (body ++ tail) ->
            ~ In x (escape esc d body ++ d :: tail)).
  { intros x Hx1 Hx2 Hx H. apply in_app_or in H as [H|[H|H]].
    - apply In_escape in H as [H|H]; [congruence|].
      apply Hx. apply in_or_app. now left.
    - congruence.
    - apply Hx. apply in_or_app. now right. }
  rewrite (yy_step_string sc d (escape esc d body ++ d :: tail) rest
             Hs Hm eq_refl Hin).
  - fold esc. rewrite unescape_escape by assumption. reflexivity.
  - apply Hfree; auto.
  - apply Hfree; auto.
  - rewrite Hi, <- app_assoc. reflexivity.
Qed.

(** * The keywords box and end, and the diagnostics of a box definition *)

(** ** Recognising box and end *)

(** C6. Whatever the state of the scanner, and so whatever delimiters and
    whatever count a box definition left behind.  In [INITIAL] the word
    box, in any case, is recognised: the step returns the [box] token and
    leaves the scanner in [BOX] with escape character backslash, delimiter
    double quote and the error counter at 0.  In [BOX] the word end is
    recognised: the step returns the [end] token, resets the same pair and
    leaves the scanner in [INITIAL], the counter as it was.  And no other
    step returns one of the two tokens: a step that returns the [box] token
    was taken in [INITIAL] and one that returns the [end] token in [BOX],
    with the same effect.  Along a scan nothing is kept by [yymore] in
    these two start conditions. *)
Theorem box_and_end_reset_delimiters sc :
  (forall w rest,
     yy_more sc = [] -> yy_input sc = w ++ rest -> stops is_word_byte rest ->
     (yy_start sc = INITIAL -> spells w "box" ->
      yy_step sc
      = SToken YBOX None
          (set_extra {| yyerrcnt := 0; sdel := DQUOTE; sesc := BACKSLASH |}
             (BEGIN BOX (advance w rest sc)))) /\
     (yy_start sc = BOX -> spells w "end" ->
      yy_step sc
      = SToken YEND None
          (set_extra {| yyerrcnt := yyerrcnt (yyextra sc);
                        sdel := DQUOTE; sesc := BACKSLASH |}
             (BEGIN INITIAL (advance w rest sc))))) /\
  (forall t v sc',
     yy_step sc = SToken t v sc' ->
     (t = YBOX ->
        yy_start sc = INITIAL /\ yy_start sc' = BOX /\
        sesc (yyextra sc') = BACKSLASH /\ sdel (yyextra sc') = DQUOTE /\
        yyerrcnt (yyextra sc') = 0%Z) /\
     (t = YEND ->
        yy_start sc = BOX /\ yy_start sc' = INITIAL /\
        sesc (yyextra sc') = BACKSLASH /\ sdel (yyextra sc') = DQUOTE)).
Proof.
  split; [|exact (box_end_tokens_reset sc)].
  intros w rest Hm Hi Hstop. split; intros Hs Hw.
  - assert (Hin : In (INITIAL, "box"%string, R_BOX) keyword_table)
      by (right; left; reflexivity).
    rewrite (keyword_step sc INITIAL "box" R_BOX w rest Hin Hs Hm Hw Hstop Hi).
    reflexivity.
  - assert (Hin : In (BOX, "end"%string, R_END) keyword_table)
      by (do 13 right; left; reflexivity).
    rewrite (keyword_step sc BOX "end" R_END w rest Hin Hs Hm Hw Hstop Hi).
    reflexivity.
Qed.

(** ** Malformed strings in a row *)

Lemma yy_steps_two sc t v sc1 sc2 n :
  yy_step sc = SToken t v sc1 -> yy_step sc1 = SSkip sc2 ->
  yy_steps (2 * S n) sc
  = (t :: fst (yy_steps (2 * n) sc2), snd (yy_steps (2 * n) sc2)).
Proof.
  intros H1 H2. replace (2 * S n) with (S (S (2 * n))) by lia.
  cbn [yy_steps]. rewrite H1. cbn [step_outcome yy_steps].
  rewrite H2. cbn [step_outcome].
  destruct (yy_steps (2 * n) sc2) as [ts sc']. reflexivity.
Qed.

(** Each line gives its [YUNREC] token and counts; the lines that come
    while the counter is below the bound give their diagnostic too. *)
Lemma string_lines_steps esc d : forall bodies sc rest,
  yy_start sc = BOX \/ yy_start sc = SHAPES -> yy_more sc = [] ->
  sdel (yyextra sc) = d -> sesc (yyextra sc) = esc -> In d LEX_SDELIM ->
  Forall (fun body => no_nul body /\ ~ In LF body /\
                      unescape esc d body = None) bodies ->
  (0 <= yyerrcnt (yyextra sc))%Z ->
  (yyerrcnt (yyextra sc) + Z.of_nat (length bodies) <= INT_MAX)%Z ->
  yy_input sc = string_lines d bodies ++ rest ->
  exists sc',
    yy_steps (2 * length bodies) sc = (repeat YUNREC (length bodies), sc') /\
    yy_input sc' = rest /\ yy_start sc' = yy_start sc /\
    yyerrcnt (yyextra sc')
    = (yyerrcnt (yyextra sc) + Z.of_nat (length bodies))%Z /\
    yyerrlog sc'
    = yyerrlog sc
      ++ map (fun body => Unterminated_String (d :: body))
           (firstn (Z.to_nat (yyerrcnt_limit - yyerrcnt (yyextra sc))) bodies).
Proof.
  induction bodies as [|body bodies IH]; intros sc rest Hs Hm Hd He Hin Hb H0 Hmax Hi.
  - exists sc. cbn [length Nat.mul yy_steps repeat]. cbn [string_lines flat_map app] in Hi.
    rewrite firstn_nil. cbn [map]. rewrite app_nil_r, Z.add_0_r. auto.
  - apply Forall_cons_iff in Hb as [(Hn & Hlf & Hu) Hb].
    cbn [length] in Hmax. cbn [string_lines flat_map] in Hi.
    fold (string_lines d bodies) in Hi.
    set (rest' := string_lines d bodies ++ rest) in *.
    assert (Hi' : yy_input sc = d :: body ++ LF :: rest').
    { rewrite Hi. unfold rest'. cbn [app]. now rewrite <- !app_assoc. }
    pose proof (yy_step_string sc d body rest' Hs Hm Hd Hin Hn Hlf Hi') as H1.
    rewrite He, Hu in H1.
    set (sc1 := count_error (Unterminated_String (d :: body)) (after_line rest' sc)) in *.
    destruct (count_error_fields (Unterminated_String (d :: body))
                (after_line rest' sc))
      as (E1 & E2 & E3 & E4 & E5 & E6 & _ & E8).
    fold sc1 in E1, E2, E3, E4, E5, E6, E8.
    cbn in E1, E2, E3, E4, E5, E6, E8.
    rewrite int_wrap_succ in E1 by lia.
    assert (Hs1 : yy_start sc1 = BOX \/ yy_start sc1 = SHAPES) by now rewrite E5.
    pose proof (yy_step_newline sc1 rest' Hs1 E6) as H2.
    set (sc2 := set_at_bol true (set_more [] (set_input rest' sc1))) in *.
    destruct (IH sc2 rest) as (sc' & R1 & R2 & R3 & R4 & R5).
    + cbn. now rewrite E5.
    + reflexivity.
    + cbn. now rewrite E2.
    + cbn. now rewrite E3.
    + exact Hin.
    + exact Hb.
    + cbn. lia.
    + cbn. lia.
    + reflexivity.
    + exists sc'. change (length (body :: bodies)) with (S (length bodies)).
      rewrite (yy_steps_two sc YUNREC None sc1 sc2 (length bodies) H1 H2).
      rewrite R1. cbn [fst snd repeat length].
      split; [reflexivity|]. split; [exact R2|].
      split; [rewrite R3; cbn; exact E5|].
      split; [rewrite R4; cbn; lia|].
      rewrite R5. cbn [yyerrlog sc2 set_at_bol set_more set_input yyextra yyerrcnt].
      rewrite E4, E1.
      destruct (Z.ltb_spec (yyerrcnt (yyextra sc)) yyerrcnt_limit) as [Hlt|Hge].
      * replace (Z.to_nat (yyerrcnt_limit - yyerrcnt (yyextra sc)))
          with (S (Z.to_nat (yyerrcnt_limit - (yyerrcnt (yyextra sc) + 1))))
          by lia.
        cbn [firstn map]. rewrite <- app_assoc. reflexivity.
      * replace (Z.to_nat (yyerrcnt_limit - yyerrcnt (yyextra sc))) with 0 by lia.
        replace (Z.to_nat (yyerrcnt_limit - (yyerrcnt (yyextra sc) + 1))) with 0
          by lia.
        reflexivity.
Qed.

(** C5, as the code has it.  The bound holds between two [box] tokens, not
    for a session: [box] sets the counter to 0.  In a run of steps without
    a [box] token, started with a counter that cannot overflow in the run,
    at most [yyerrcnt_limit] diagnostics of an unterminated string or an
    empty sample block are added to the log.  And malformed strings in a
    row, each on a line that its newline ends, in [BOX] or [SHAPES]: every
    one of them gives exactly one [YUNREC] token and nothing else, the
    first ones give a diagnostic each, as long as the counter is below the
    bound, and the others none; the scan is then at the text after the
    last of the lines. *)
Theorem diagnostics_bounded_between_boxes :
  (forall n sc toks sc',
     yy_steps n sc = (toks, sc') ->
     existsb is_YBOX toks = false ->
     (0 <= yyerrcnt (yyextra sc))%Z ->
     (yyerrcnt (yyextra sc) + Z.of_nat n <= INT_MAX)%Z ->
     (Z.of_nat (limited (yyerrlog sc'))
      <= Z.of_nat (limited (yyerrlog sc)) + yyerrcnt_limit)%Z) /\
  (forall sc bodies rest,
     yy_start sc = BOX \/ yy_start sc = SHAPES -> yy_more sc = [] ->
     In (sdel (yyextra sc)) LEX_SDELIM ->
     Forall (fun body =>
               no_nul body /\ ~ In LF body /\
               unescape (sesc (yyextra sc)) (sdel (yyextra sc)) body = None)
       bodies ->
     (0 <= yyerrcnt (yyextra sc))%Z ->
     (yyerrcnt (yyextra sc) + Z.of_nat (length bodies) <= INT_MAX)%Z ->
     yy_input sc = string_lines (sdel (yyextra sc)) bodies ++ rest ->
     exists sc',
       yy_steps (2 * length bodies) sc = (repeat YUNREC (length bodies), sc') /\
       yy_input sc' = rest /\ yy_start sc' = yy_start sc /\
       yyerrlog sc'
       = yyerrlog sc
         ++ map (fun body => Unterminated_String (sdel (yyextra sc) :: body))
              (firstn (Z.to_nat (yyerrcnt_limit - yyerrcnt (yyextra sc))) bodies) /\
       (Z.of_nat (length (yyerrlog sc'))
        <= Z.of_nat (length (yyerrlog sc)) + yyerrcnt_limit)%Z).
Proof.
  split.
  - intros n sc toks sc' H Hbox H0 Hmax.
    exact (proj1 (diagnostics_bounded_run n sc toks sc' H Hbox H0 Hmax)).
  - intros sc bodies rest Hs Hm Hin Hb H0 Hmax Hi.
    destruct (string_lines_steps (sesc (yyextra sc)) (sdel (yyextra sc)) bodies
                sc rest Hs Hm eq_refl eq_refl Hin Hb H0 Hmax Hi)
      as (sc' & R1 & R2 & R3 & _ & R5).
    exists sc'. split; [exact R1|]. split; [exact R2|]. split; [exact R3|].
    split; [exact R5|].
    rewrite R5, length_app, length_map.
    pose proof (firstn_le_length
                  (Z.to_nat (yyerrcnt_limit - yyerrcnt (yyextra sc))) bodies) as Hl1.
    assert (Hl2 : length (firstn (Z.to_nat (yyerrcnt_limit - yyerrcnt (yyextra sc)))
                            bodies)
                  <= Z.to_nat (yyerrcnt_limit - yyerrcnt (yyextra sc))).
    { rewrite length_firstn. lia. }
    unfold yyerrcnt_limit in *. lia.
Qed.

(** * The properties of the scanner as a whole at concrete inputs *)

Ltac in_list := repeat first [left; reflexivity | right].

(** The empty sample block: the sample rule gives back all it took. *)
Lemma yy_step_progress_witness :
  yy_left (snd (yy_steps 1 (in_sample [] (chars "ends" ++ [LF]))))
  < yy_left (in_sample [] (chars "ends" ++ [LF])).
Proof.
  apply (yy_step_progress (in_sample [] (chars "ends" ++ [LF])) (Some YUNREC)).
  - intros _. reflexivity.
  - vm_compute. reflexivity.
Defined.

(** Three blanks and a comment before the first token. *)
Lemma yylex_returns_witness :
  (exists t v sc', yylex 12 (yy_init (chars "   # c" ++ LF :: chars "box")) = LToken t v sc') \/
  (exists sc', yylex 12 (yy_init (chars "   # c" ++ LF :: chars "box")) = LEof sc' /\
               yy_input sc' = []) \/
  yylex 12 (yy_init (chars "   # c" ++ LF :: chars "box")) = LJam.
Proof.
  apply (yylex_returns 12 (yy_init (chars "   # c" ++ LF :: chars "box"))).
  cbn. lia.
Defined.

(** A box definition that changes its delimiters twice, the second time
    with a specification that is refused. *)
Lemma scanner_inv_kept_witness :
  scanner_inv
    (snd (yy_steps 40
            (yy_init (chars "box b delim ?~ sample" ++ LF :: chars "x" ++ LF
                      :: chars "ends delim xx ~a~ end")))).
Proof.
  apply (scanner_inv_kept 40).
  split.
  - intros _. reflexivity.
  - intros H. exfalso. apply H. reflexivity.
Defined.

Lemma start_condition_transitions_witness :
  transition (yy_start (in_box 0 (chars "Sample" ++ [LF]))) (Some YSAMPLE)
    (yy_start (snd (yy_steps 1 (in_box 0 (chars "Sample" ++ [LF]))))).
Proof.
  apply (start_condition_transitions (in_box 0 (chars "Sample" ++ [LF]))).
  vm_compute. reflexivity.
Defined.

Lemma token_value_kinds_witness :
  value_fits YRXPFLAG (Some (val_c "g"%char)).
Proof.
  apply (token_value_kinds (in_box 0 (chars "global ")) YRXPFLAG
           (Some (val_c "g"%char))
           (snd (yy_steps 1 (in_box 0 (chars "global "))))).
  vm_compute. reflexivity.
Defined.

Lemma keyword_token_witness :
  yy_step (in_box 0 (chars "ShApEs {"))
  = step_of (yy_action R_SHAPES (chars "ShApEs")
               (advance (chars "ShApEs") (chars " {") (in_box 0 (chars "ShApEs {")))).
Proof.
  apply (keyword_token (in_box 0 (chars "ShApEs {")) BOX "shapes" R_SHAPES
           (chars "ShApEs") (chars " {")).
  - in_list.
  - reflexivity.
  - reflexivity.
  - reflexivity.
  - reflexivity.
  - reflexivity.
Defined.

(** The word boxes is no keyword, although it starts like one. *)
Lemma ascii_id_token_witness :
  yy_step (yy_init (chars "Boxes x"))
  = SToken ASCII_ID (Some (val_ascii (chars "Boxes")))
      (advance (chars "Boxes") (chars " x") (yy_init (chars "Boxes x"))).
Proof.
  apply (ascii_id_token (yy_init (chars "Boxes x")) "B"%char (chars "oxes")
           (chars " x")).
  - left. reflexivity.
  - reflexivity.
  - reflexivity.
  - reflexivity.
  - repeat constructor.
  - reflexivity.
  - not_in.
Defined.

(** The bytes 195 and 169 are the letter e with an acute accent. *)
Lemma word_token_witness :
  yy_step (in_box 0 (map ascii_of_nat [195; 169] ++ chars "t x"))
  = SToken WORD (Some (val_s (map ascii_of_nat [195; 169] ++ chars "t")))
      (advance (map ascii_of_nat [195; 169] ++ chars "t") (chars " x")
         (in_box 0 (map ascii_of_nat [195; 169] ++ chars "t x"))).
Proof.
  apply (word_token (in_box 0 (map ascii_of_nat [195; 169] ++ chars "t x"))
           (ascii_of_nat 195) (ascii_of_nat 169 :: chars "t") (chars " x")).
  - right. reflexivity.
  - reflexivity.
  - reflexivity.
  - vm_compute. reflexivity.
  - apply Exists_cons_hd. reflexivity.
  - discriminate.
  - reflexivity.
Defined.

(** A byte order mark and the keyword box right after it. *)
Lemma byte_order_mark_witness :
  yy_step (yy_init (BOM ++ chars "box" ++ chars " x"))
  = SToken WORD (Some (val_s (BOM ++ chars "box")))
      (advance (BOM ++ chars "box") (chars " x")
         (yy_init (BOM ++ chars "box" ++ chars " x"))).
Proof.
  apply (byte_order_mark (yy_init (BOM ++ chars "box" ++ chars " x"))
           (chars "box") (chars " x")).
  - left. reflexivity.
  - reflexivity.
  - reflexivity.
  - repeat constructor.
  - reflexivity.
Defined.

Lemma number_token_witness :
  yy_step (in_box 0 (chars "-12 "))
  = SToken YNUMBER (Some (val_num (-12)))
      (advance (chars "-12") (chars " ") (in_box 0 (chars "-12 "))).
Proof.
  apply (number_token (in_box 0 (chars "-12 ")) (chars "-") (chars "12")
           (chars " ")).
  - reflexivity.
  - reflexivity.
  - reflexivity.
  - right. right. reflexivity.
  - discriminate.
  - repeat constructor.
  - reflexivity.
  - vm_compute. discriminate.
Defined.

Lemma shape_token_witness :
  yy_step (BEGIN SHAPES (in_box 0 (chars "NnW (")))
  = SToken SHAPE (Some (val_shape Shape.NNW))
      (advance (chars "NnW") (chars " (") (BEGIN SHAPES (in_box 0 (chars "NnW (")))).
Proof.
  apply (shape_token (BEGIN SHAPES (in_box 0 (chars "NnW ("))) Shape.NNW "nnw"
           (chars "NnW") (chars " (")).
  - in_list.
  - left. reflexivity.
  - reflexivity.
  - reflexivity.
  - reflexivity.
  - reflexivity.
Defined.

(** The brace that closes a shape list. *)
Lemma symbol_token_witness :
  yy_step (BEGIN SHAPES (in_box 0 (chars "} x")))
  = SToken (CHAR "}") None
      (BEGIN BOX (advance (chars "}") (chars " x")
                    (BEGIN SHAPES (in_box 0 (chars "} x"))))).
Proof.
  apply (symbol_token (BEGIN SHAPES (in_box 0 (chars "} x"))) "}"%char (chars " x")).
  - right. left. reflexivity.
  - reflexivity.
  - reflexivity.
  - reflexivity.
Defined.

Lemma white_space_skipped_witness :
  yy_step (yy_init (LF :: chars "box"))
  = SSkip (advance [LF] (chars "box") (yy_init (LF :: chars "box"))).
Proof.
  apply (white_space_skipped (yy_init (LF :: chars "box")) LF (chars "box")).
  - left. reflexivity.
  - reflexivity.
  - reflexivity.
Defined.

(** The first newline of a sample block, with nothing kept yet. *)
Lemma sample_content_kept_witness :
  yy_step (in_sample [] (LF :: chars "x"))
  = SSkip (advance [LF] (chars "x") (in_sample [] (LF :: chars "x"))).
Proof.
  apply (proj2 (sample_content_kept (in_sample [] (LF :: chars "x")) LF (chars "x")
                  eq_refl eq_refl)).
  reflexivity.
Defined.

(** A file name with a blank and a number sign in it. *)
Lemma parent_line_witness :
  exists v,
    yy_step (BEGIN PARENT (yy_init (chars " my #1.cfg" ++ [CR; LF])))
    = SToken FILENAME v
        (BEGIN INITIAL
           (advance (chars " my #1.cfg") [CR; LF]
              (BEGIN PARENT (yy_init (chars " my #1.cfg" ++ [CR; LF]))))).
Proof.
  apply (proj1 (parent_line (BEGIN PARENT (yy_init (chars " my #1.cfg" ++ [CR; LF])))
                  eq_refl)
           SPACE (chars "my #1.cfg") [CR; LF]).
  - reflexivity.
  - repeat constructor.
  - reflexivity.
Defined.

Lemma comment_skipped_witness :
  yy_step (yy_init (chars "# a box" ++ LF :: chars "box"))
  = SSkip (after_line (chars "box") (yy_init (chars "# a box" ++ LF :: chars "box"))).
Proof.
  apply (comment_skipped (yy_init (chars "# a box" ++ LF :: chars "box"))
           (chars " a box") (chars "box")).
  - left. reflexivity.
  - not_in.
  - reflexivity.
Defined.

(** A string on the last line of a file that does not end in a newline. *)
Lemma last_line_without_newline_witness :
  yy_step (in_box 0 (DQUOTE :: chars "abc" ++ [DQUOTE]))
  = SToken YUNREC None
      (past_char (chars "abc" ++ [DQUOTE])
         (in_box 0 (DQUOTE :: chars "abc" ++ [DQUOTE]))).
Proof.
  apply (last_line_without_newline (in_box 0 (DQUOTE :: chars "abc" ++ [DQUOTE]))
           DQUOTE (chars "abc" ++ [DQUOTE])).
  - right. split; [in_list | left; reflexivity].
  - not_in.
  - reflexivity.
Defined.

(** An apostrophe while the double quote is the delimiter. *)
Lemma other_delimiter_rejected_witness :
  yy_step (in_box 0 (chars "'abc'" ++ [LF]))
  = SToken YUNREC None
      (past_char (chars "abc'" ++ [LF]) (in_box 0 (chars "'abc'" ++ [LF]))).
Proof.
  apply (other_delimiter_rejected (in_box 0 (chars "'abc'" ++ [LF])) "'"%char
           (chars "abc'") []).
  - left. reflexivity.
  - reflexivity.
  - in_list.
  - discriminate.
  - not_in.
  - reflexivity.
Defined.

Lemma string_memmove_in_bounds_witness :
  scan_string_in_bounds BACKSLASH DQUOTE (escaped_example ++ chars " x") = true.
Proof.
  apply (string_memmove_in_bounds BACKSLASH DQUOTE (escaped_example ++ chars " x")).
  - discriminate.
  - not_in.
Defined.

Lemma sample_copy_in_bounds_witness :
  let yytext := (chars "abc" ++ [LF]) ++ chars "  " ++ chars "Ends" ++ [SPACE; CR] in
  sample_p yytext = length (chars "abc" ++ [LF]) + length (chars "  ") + 3 /\
  is_trailing (nth (sample_p yytext) yytext NUL) = false /\
  sample_len yytext = length (chars "abc" ++ [LF]) + length (chars "  ") /\
  length (sample_copy yytext) = sample_len yytext + 2.
Proof.
  apply (sample_copy_in_bounds (chars "abc" ++ [LF]) (chars "  ") (chars "Ends")
           [SPACE; CR]).
  - not_in.
  - repeat constructor.
  - reflexivity.
  - repeat constructor.
Defined.

(** The question mark as the escape character and the tilde as the
    delimiter. *)
Lemma accepted_delimiter_opens_strings_witness :
  yy_step (fst (change_string_delimiters (in_box 0 (chars "~ab~ x" ++ [LF]))
                  (chars "?~")))
  = SToken STRING (Some (val_s (chars "ab")))
      (set_input (chars " x" ++ [LF])
         (after_line []
            (fst (change_string_delimiters (in_box 0 (chars "~ab~ x" ++ [LF]))
                    (chars "?~"))))).
Proof.
  apply (accepted_delimiter_opens_strings (in_box 0 (chars "~ab~ x" ++ [LF]))
           (chars "?~")
           (fst (change_string_delimiters (in_box 0 (chars "~ab~ x" ++ [LF]))
                   (chars "?~")))
           (chars "ab") (chars " x") []).
  - reflexivity.
  - left. reflexivity.
  - reflexivity.
  - not_in.
  - not_in.
  - not_in.
  - not_in.
  - reflexivity.
Defined.

(** The text a, double quote, b, backslash, c between double quotes. *)
Lemma escaped_text_read_back_witness :
  yy_step (in_box 0 (DQUOTE :: escape BACKSLASH DQUOTE
                       ["a"%char; DQUOTE; "b"%char; BACKSLASH; "c"%char]
                     ++ DQUOTE :: chars " x" ++ LF :: chars "end"))
  = SToken STRING (Some (val_s ["a"%char; DQUOTE; "b"%char; BACKSLASH; "c"%char]))
      (set_input (chars " x" ++ LF :: chars "end")
         (after_line (chars "end")
            (in_box 0 (DQUOTE :: escape BACKSLASH DQUOTE
                         ["a"%char; DQUOTE; "b"%char; BACKSLASH; "c"%char]
                       ++ DQUOTE :: chars " x" ++ LF :: chars "end")))).
Proof.
  apply (escaped_text_read_back
           (in_box 0 (DQUOTE :: escape BACKSLASH DQUOTE
                        ["a"%char; DQUOTE; "b"%char; BACKSLASH; "c"%char]
                      ++ DQUOTE :: chars " x" ++ LF :: chars "end"))
           ["a"%char; DQUOTE; "b"%char; BACKSLASH; "c"%char] (chars " x")
           (chars "end")).
  - left. reflexivity.
  - reflexivity.
  - split; [in_list | discriminate].
  - discriminate.
  - discriminate.
  - not_in.
  - not_in.
  - reflexivity.
Defined.

(** The word box at the beginning of a file; and the word end in a box
    definition that changed its delimiters to the tilde and the question
    mark and counted three errors. *)
Lemma box_and_end_reset_delimiters_witness :
  yy_step (yy_init (chars "Box b"))
  = SToken YBOX None
      (set_extra {| yyerrcnt := 0; sdel := DQUOTE; sesc := BACKSLASH |}
         (BEGIN BOX (advance (chars "Box") (chars " b") (yy_init (chars "Box b"))))) /\
  (let sc := set_extra {| yyerrcnt := 3; sdel := "~"; sesc := "?" |}
               (in_box 0 (chars "End" ++ LF :: chars "box c")) in
   yy_step sc
   = SToken YEND None
       (set_extra {| yyerrcnt := 3; sdel := DQUOTE; sesc := BACKSLASH |}
          (BEGIN INITIAL (advance (chars "End") (LF :: chars "box c") sc)))).
Proof.
  split.
  - apply (proj1 (proj1 (box_and_end_reset_delimiters (yy_init (chars "Box b")))
                    (chars "Box") (chars " b") eq_refl eq_refl eq_refl)).
    + reflexivity.
    + reflexivity.
  - apply (proj2 (proj1 (box_and_end_reset_delimiters
                           (set_extra {| yyerrcnt := 3; sdel := "~"; sesc := "?" |}
                              (in_box 0 (chars "End" ++ LF :: chars "box c"))))
                    (chars "End") (LF :: chars "box c") eq_refl eq_refl eq_refl)).
    + reflexivity.
    + reflexivity.
Defined.

(** Six unterminated strings in a row in a new box definition: six
    failure tokens and five diagnostics. *)
Lemma diagnostics_bounded_between_boxes_witness :
  exists sc',
    yy_steps 12 (in_box 0 six_unterminated) = (repeat YUNREC 6, sc') /\
    yy_input sc' = [] /\ yy_start sc' = BOX /\
    yyerrlog sc' = repeat (Unterminated_String (DQUOTE :: chars "x")) 5 /\
    (Z.of_nat (length (yyerrlog sc')) <= 0 + yyerrcnt_limit)%Z.
Proof.
  apply (proj2 diagnostics_bounded_between_boxes (in_box 0 six_unterminated)
           (repeat (chars "x") 6) []).
  - left. reflexivity.
  - reflexivity.
  - in_list.
  - repeat (constructor; [split; [not_in | split; [not_in | reflexivity]]|]).
    constructor.
  - vm_compute. discriminate.
  - vm_compute. discriminate.
  - reflexivity.
Defined.
